(** * go-serr: structured errors, text excerpts and two-sided diffs

    A shallow embedding of the Go package [serr] and the properties of its
    specification.  The package exists in three revisions in the repository:

    - [serr.go] (first unit): structured errors whose builders return
      clone-wrapped copies, a sealed [ValidArgs], a cycle guard without lock;
    - [part_000]: in-place builders, the cycle guard under a [sync.RWMutex];
    - [serr.go] (second unit): the oldest revision, without a cycle guard.

    The text functions ([Excerpt], [Diff], [prefixRunes], [suffixRunes]) are
    the same in all three. *)

From Stdlib Require Import ZArith Ascii String List Lia Bool.
From stdpp Require Import base tactics option list pretty.

Open Scope Z_scope.

(** ** Go's [unicode/utf8], as the package uses it

    A Go [string] is a sequence of bytes; here a [string] of the standard
    library, whose characters are the bytes.  A [[]byte] is a [list ascii],
    a [rune] is an [int32] kept in [Z], an [int] is a [Z]. *)

Module utf8.

Definition RuneError : Z := 0xFFFD.
Definition RuneSelf : Z := 0x80.
Definition MaxRune : Z := 0x10FFFF.
Definition UTFMax : Z := 4.

Definition surrogateMin : Z := 0xD800.
Definition surrogateMax : Z := 0xDFFF.

Definition tx : Z := 0x80.
Definition t2 : Z := 0xC0.
Definition t3 : Z := 0xE0.
Definition t4 : Z := 0xF0.

Definition maskx : Z := 0x3F.
Definition mask2 : Z := 0x1F.
Definition mask3 : Z := 0x0F.
Definition mask4 : Z := 0x07.

Definition rune1Max : Z := 0x7F.
Definition rune2Max : Z := 0x7FF.
Definition rune3Max : Z := 0xFFFF.

Definition locb : Z := 0x80.
Definition hicb : Z := 0xBF.

(** Entries of the table [first]: the low three bits are the size of the
    encoding, the high four bits index [acceptRanges]. *)
Definition xx : Z := 0xF1.
Definition as_ : Z := 0xF0.
Definition s1 : Z := 0x02.
Definition s2 : Z := 0x13.
Definition s3 : Z := 0x03.
Definition s4 : Z := 0x23.
Definition s5 : Z := 0x34.
Definition s6 : Z := 0x04.
Definition s7 : Z := 0x44.

(** The value of a byte, [0 <= byte_val c < 256]. *)
Definition byte_val (c : ascii) : Z := Z.of_N (N_of_ascii c).

(** [byte(v)]: the conversion of an integer to a byte keeps the low 8 bits. *)
Definition to_byte (v : Z) : ascii := ascii_of_N (Z.to_N (Z.land v 0xFF)).

(** [p[i]] for an index the code has checked to be in range. *)
Definition at_ (p : list ascii) (i : Z) : Z :=
  match p !! Z.to_nat i with
  | Some c => byte_val c
  | None => 0
  end.

(** [len(p)] *)
Definition len (p : list ascii) : Z := Z.of_nat (length p).

(** [p[i:]] and [p[:j]] *)
Definition slice_from (p : list ascii) (i : Z) : list ascii := drop (Z.to_nat i) p.
Definition slice_to (p : list ascii) (j : Z) : list ascii := take (Z.to_nat j) p.

(** The table [first], row by row: 0x00-0x7F [as], 0x80-0xC1 [xx],
    0xC2-0xDF [s1], 0xE0 [s2], 0xE1-0xEC [s3], 0xED [s4], 0xEE-0xEF [s3],
    0xF0 [s5], 0xF1-0xF3 [s6], 0xF4 [s7], 0xF5-0xFF [xx]. *)
Definition first (b : Z) : Z :=
  if b <? 0x80 then as_
  else if b <? 0xC2 then xx
  else if b <? 0xE0 then s1
  else if b =? 0xE0 then s2
  else if b <? 0xED then s3
  else if b =? 0xED then s4
  else if b <? 0xF0 then s3
  else if b =? 0xF0 then s5
  else if b <? 0xF4 then s6
  else if b =? 0xF4 then s7
  else xx.

Definition acceptRanges (i : Z) : Z * Z :=
  match i with
  | 0 => (locb, hicb)
  | 1 => (0xA0, hicb)
  | 2 => (locb, 0x9F)
  | 3 => (0x90, hicb)
  | 4 => (locb, 0x8F)
  | _ => (0, 0)
  end.

(** [utf8.DecodeRune]: the first rune of [p] and its width in bytes;
    [(RuneError, 0)] on the empty slice, [(RuneError, 1)] on an encoding that
    is invalid or cut short. *)
Definition DecodeRune (p : list ascii) : Z * Z :=
  let n := len p in
  if n <? 1 then (RuneError, 0) else
  let p0 := at_ p 0 in
  let x := first p0 in
  if as_ <=? x then
    let mask := if Z.testbit x 0 then -1 else 0 in
    (Z.lor (Z.land p0 (Z.lnot mask)) (Z.land RuneError mask), 1)
  else
  let sz := Z.land x 7 in
  let accept := acceptRanges (Z.shiftr x 4) in
  if n <? sz then (RuneError, 1) else
  let b1 := at_ p 1 in
  if (b1 <? fst accept) || (snd accept <? b1) then (RuneError, 1) else
  if sz <=? 2 then
    (Z.lor (Z.shiftl (Z.land p0 mask2) 6) (Z.land b1 maskx), 2)
  else
  let b2 := at_ p 2 in
  if (b2 <? locb) || (hicb <? b2) then (RuneError, 1) else
  if sz <=? 3 then
    (Z.lor (Z.lor (Z.shiftl (Z.land p0 mask3) 12) (Z.shiftl (Z.land b1 maskx) 6))
           (Z.land b2 maskx), 3)
  else
  let b3 := at_ p 3 in
  if (b3 <? locb) || (hicb <? b3) then (RuneError, 1) else
  (Z.lor (Z.lor (Z.lor (Z.shiftl (Z.land p0 mask4) 18) (Z.shiftl (Z.land b1 maskx) 12))
                (Z.shiftl (Z.land b2 maskx) 6))
         (Z.land b3 maskx), 4).

(** [utf8.RuneStart] *)
Definition RuneStart (b : Z) : bool := negb (Z.land b 0xC0 =? 0x80).

(** The loop [for start--; start >= lim; start-- { if RuneStart(p[start]) { break } }]
    of [DecodeLastRune], entered after the first [start--]; it returns the
    value of [start] on exit. *)
Fixpoint lastRuneStart (fuel : nat) (p : list ascii) (start lim : Z) : Z :=
  match fuel with
  | O => start
  | S fuel' =>
      if start <? lim then start
      else if RuneStart (at_ p start) then start
      else lastRuneStart fuel' p (start - 1) lim
  end.

(** [utf8.DecodeLastRune]: the last rune of [p] and its width. *)
Definition DecodeLastRune (p : list ascii) : Z * Z :=
  let end_ := len p in
  if end_ =? 0 then (RuneError, 0) else
  let start := end_ - 1 in
  let r := at_ p start in
  if r <? RuneSelf then (r, 1) else
  let lim := end_ - UTFMax in
  let lim := if lim <? 0 then 0 else lim in
  let start := lastRuneStart (S (length p)) p (start - 1) lim in
  let start := if start <? 0 then 0 else start in
  let '(r, size) := DecodeRune (slice_to (slice_from p start) (end_ - start)) in
  if negb (start + size =? end_) then (RuneError, 1) else (r, size).

(** The runes of a byte sequence in order, each with the index of its first
    byte: what [for i, r := range s] iterates over. *)
Fixpoint decodeFrom (fuel : nat) (i : Z) (p : list ascii) : list (Z * Z) :=
  match fuel with
  | O => []
  | S fuel' =>
      match p with
      | [] => []
      | _ :: _ =>
          let '(r, size) := DecodeRune p in
          (i, r) :: decodeFrom fuel' (i + size) (slice_from p size)
      end
  end.

Definition range (s : string) : list (Z * Z) :=
  let p := list_ascii_of_string s in decodeFrom (length p) 0 p.

(** [utf8.RuneCountInString]: the number of runes; erroneous and short
    encodings count as single runes of width one byte. *)
Definition RuneCount (p : list ascii) : Z :=
  Z.of_nat (length (decodeFrom (length p) 0 p)).

Definition RuneCountInString (s : string) : Z :=
  RuneCount (list_ascii_of_string s).

(** [utf8.AppendRune]: the encoding of one rune; a rune out of range or a
    surrogate half is encoded as [RuneError]. *)
Definition encode3 (r : Z) : list ascii :=
  [ to_byte (Z.lor t3 (Z.shiftr r 12));
    to_byte (Z.lor tx (Z.land (Z.shiftr r 6) maskx));
    to_byte (Z.lor tx (Z.land r maskx)) ].

Definition EncodeRune (r : Z) : list ascii :=
  if (0 <=? r) && (r <=? rune1Max) then [ to_byte r ]
  else if (0 <=? r) && (r <=? rune2Max) then
    [ to_byte (Z.lor t2 (Z.shiftr r 6));
      to_byte (Z.lor tx (Z.land r maskx)) ]
  else if (r <? 0) || (MaxRune <? r) || ((surrogateMin <=? r) && (r <=? surrogateMax)) then
    encode3 RuneError
  else if r <=? rune3Max then encode3 r
  else
    [ to_byte (Z.lor t4 (Z.shiftr r 18));
      to_byte (Z.lor tx (Z.land (Z.shiftr r 12) maskx));
      to_byte (Z.lor tx (Z.land (Z.shiftr r 6) maskx));
      to_byte (Z.lor tx (Z.land r maskx)) ].

(** [string(rs)] for [rs] a [[]rune] *)
Definition string_of_runes (rs : list Z) : string :=
  string_of_list_ascii (concat (map EncodeRune rs)).

End utf8.

(** ** The text functions of [serr.go] *)

Definition EllipsisRune : string :=
  String (ascii_of_nat 226) (String (ascii_of_nat 128) (String (ascii_of_nat 166) EmptyString)).

(** [len(s)] and [len(b)] *)
Definition len_string (s : string) : Z := Z.of_nat (String.length s).

(** The loop of [prefixRunes] over the remaining [(i, r)] pairs of the
    [range], with the runes gathered so far. *)
Fixpoint prefixRunes_loop (it : list (Z * Z)) (n : Z) (result : list Z) : list Z :=
  match it with
  | [] => result
  | (i, r) :: it' =>
      if n <=? i then result
      else prefixRunes_loop it' n (result ++ [r])
  end.

Definition prefixRunes (input : string) (n : Z) : string :=
  utf8.string_of_runes (prefixRunes_loop (utf8.range input) n []).

(** The loop of [suffixRunes]: [for count < n && len(b) > 0]. *)
Fixpoint suffixRunes_loop (fuel : nat) (b : list ascii) (count n : Z) (result : list Z)
  : list Z :=
  match fuel with
  | O => result
  | S fuel' =>
      if (count <? n) && (0 <? utf8.len b) then
        let '(r, size) := utf8.DecodeLastRune b in
        suffixRunes_loop fuel' (utf8.slice_to b (utf8.len b - size)) (count + 1) n
                         (result ++ [r])
      else result
  end.

Definition suffixRunes (input : string) (n : Z) : string :=
  let b := list_ascii_of_string input in
  let result := suffixRunes_loop (S (length b)) b 0 n [] in
  utf8.string_of_runes (rev result).

Definition Excerpt (s : string) (width : Z) : string :=
  let cnt := utf8.RuneCountInString s in
  if cnt <=? width then s else
  let prefix := Z.quot width 2 in
  let suffix := prefix in
  let suffix := if (width <=? cnt) && (Z.rem width 2 =? 0) then suffix - 1 else suffix in
  (prefixRunes s prefix ++ EllipsisRune ++ suffixRunes s suffix)%string.

(** The first loop of [Diff]: strip the runes the two slices have in common
    at the front, counting them in [start]. *)
Fixpoint Diff_prefix (fuel : nat) (b1 b2 : list ascii) (start : Z)
  : list ascii * list ascii * Z :=
  match fuel with
  | O => (b1, b2, start)
  | S fuel' =>
      if (0 <? utf8.len b1) && (0 <? utf8.len b2) then
        let '(ch1, width1) := utf8.DecodeRune b1 in
        let '(ch2, width2) := utf8.DecodeRune b2 in
        if negb (ch1 =? ch2) then (b1, b2, start)
        else Diff_prefix fuel' (utf8.slice_from b1 width1) (utf8.slice_from b2 width2)
                         (start + 1)
      else (b1, b2, start)
  end.

(** The second loop of [Diff]: strip the common runes at the back, counting
    them in [end]. *)
Fixpoint Diff_suffix (fuel : nat) (b1 b2 : list ascii) (end_ : Z)
  : list ascii * list ascii * Z :=
  match fuel with
  | O => (b1, b2, end_)
  | S fuel' =>
      if (0 <? utf8.len b1) && (0 <? utf8.len b2) then
        let '(ch1, width1) := utf8.DecodeLastRune b1 in
        let '(ch2, width2) := utf8.DecodeLastRune b2 in
        if negb (ch1 =? ch2) then (b1, b2, end_)
        else Diff_suffix fuel' (utf8.slice_to b1 (utf8.len b1 - width1))
                         (utf8.slice_to b2 (utf8.len b2 - width2)) (end_ + 1)
      else (b1, b2, end_)
  end.

(** The differing regions of [Diff] before they are excerpted, with the two
    counts: the state of [b1], [b2], [start] and [end] when the code reaches
    [s1 = string(b1)], or the label [end] from the early exit. *)
Definition Diff_regions (s1 s2 : string) : list ascii * list ascii * Z * Z :=
  let b1 := list_ascii_of_string s1 in
  let b2 := list_ascii_of_string s2 in
  let '(b1, b2, start) := Diff_prefix (S (length b1)) b1 b2 0 in
  if utf8.len b1 + utf8.len b2 =? 0 then ([], [], start, 0)
  else
    let '(b1, b2, end_) := Diff_suffix (S (length b1)) b1 b2 0 in
    (b1, b2, start, end_).

Definition Diff (s1 s2 : string) (n : Z) : string * string * Z * Z :=
  let b1 := list_ascii_of_string s1 in
  let b2 := list_ascii_of_string s2 in
  let '(b1, b2, start) := Diff_prefix (S (length b1)) b1 b2 0 in
  if utf8.len b1 + utf8.len b2 =? 0 then (EmptyString, EmptyString, start, 0)
  else
    let '(b1, b2, end_) := Diff_suffix (S (length b1)) b1 b2 0 in
    let s1 := string_of_list_ascii b1 in
    let s2 := string_of_list_ascii b2 in
    let s1 := if n <? utf8.len b1 then Excerpt s1 n else s1 in
    let s2 := if n <? utf8.len b2 then Excerpt s2 n else s2 in
    (s1, s2, start, end_).

(** *** The text functions, in the words of the specification *)

(** The runes of a slice in order, as [for _, r := range] yields them. *)
Definition runes (p : list ascii) : list Z :=
  map snd (utf8.decodeFrom (length p) 0 p).

(** The result of a scan of [Diff], for the inputs in the other order. *)
Definition swap3 (x : list ascii * list ascii * Z) : list ascii * list ascii * Z :=
  let '(b1, b2, n) := x in (b2, b1, n).

(** The bytes [p0] and [b1] begin an encoding of [sz] bytes as [DecodeRune]
    accepts it: [p0] is a leading byte of that size, and [b1] is in the range
    that the table [first] gives for [p0]. *)
Definition lead_ok (sz p0 b1 : Z) : bool :=
  (0xC2 <=? p0) && (p0 <=? 0xF4) && (Z.land (utf8.first p0) 7 =? sz)
  && (fst (utf8.acceptRanges (Z.shiftr (utf8.first p0) 4)) <=? b1)
  && (b1 <=? snd (utf8.acceptRanges (Z.shiftr (utf8.first p0) 4))).

(** The runes of a slice, each as the bytes that encode it; a byte that is
    not part of a valid encoding is a rune of its own. *)
Fixpoint rune_pieces (fuel : nat) (p : list ascii) : list (list ascii) :=
  match fuel with
  | O => []
  | S fuel' =>
      match p with
      | [] => []
      | _ :: _ =>
          let size := snd (utf8.DecodeRune p) in
          utf8.slice_to p size :: rune_pieces fuel' (utf8.slice_from p size)
      end
  end.

Definition runes_of (s : string) : list (list ascii) :=
  let p := list_ascii_of_string s in rune_pieces (length p) p.

(** The first [k] and the last [k] runes of a string; none for [k <= 0]. *)
Definition first_runes (k : Z) (s : string) : string :=
  string_of_list_ascii (concat (take (Z.to_nat k) (runes_of s))).

Definition last_runes (k : Z) (s : string) : string :=
  string_of_list_ascii
    (concat (drop (length (runes_of s) - Z.to_nat k)%nat (runes_of s))).

(** An excerpt as the specification describes it for a string of more than
    [w] runes: the first [w/2] runes, the ellipsis, and the last [w/2] runes
    for an odd [w], the last [w/2 - 1] for an even one. *)
Definition Excerpt_spec (s : string) (w : Z) : string :=
  (first_runes (Z.quot w 2) s ++ EllipsisRune
   ++ last_runes (if Z.odd w then Z.quot w 2 else Z.quot w 2 - 1) s)%string.

(** A slice of bytes below [RuneSelf]: each byte is a rune. *)
Definition ascii_only (p : list ascii) : Prop :=
  Forall (fun c => utf8.byte_val c < utf8.RuneSelf) p.

(** A differing region as [Diff] returns it: through [Excerpt] when it has
    more than [n] bytes, as it is otherwise. *)
Definition excerpt_if_longer (b : list ascii) (n : Z) : string :=
  if n <? utf8.len b then Excerpt (string_of_list_ascii b) n
  else string_of_list_ascii b.

(** ** Values, formatting and the outcome of a call *)

(** The values of type [any] that attributes hold: strings, integers,
    booleans, the nil interface, and any other value, known by the text
    [%v] prints for it. *)
Inductive any : Type :=
  | AString (s : string)
  | AInt (n : Z)
  | ABool (b : bool)
  | ANil
  | AOther (text : string).

(** [fmt.Sprintf("%v", v)] *)
Definition Sprint_v (v : any) : string :=
  match v with
  | AString s => s
  | AInt n => pretty n
  | ABool true => "true"
  | ABool false => "false"
  | ANil => "<nil>"
  | AOther text => text
  end.

(** [slog.Attr], with [slog.Any(key, value)] as its constructor. *)
Record Attr : Type := slog_Any { Key : string; Value : any }.

(** How a call ends: it returns, it panics with a message, it blocks for
    ever on a lock its own goroutine holds, or the model ran out of fuel. *)
Inductive result (A : Type) : Type :=
  | Ok (a : A)
  | Panic (msg : string)
  | Blocked
  | OutOfFuel.
Arguments Ok {A} a.
Arguments Panic {A} msg.
Arguments Blocked {A}.
Arguments OutOfFuel {A}.

(** Calls thread the store [S] and may end early. *)
Definition M (S A : Type) : Type := S -> result (A * S).

Definition ret {S A} (a : A) : M S A := fun h => Ok (a, h).

Definition bind {S A B} (m : M S A) (k : A -> M S B) : M S B :=
  fun h =>
    match m h with
    | Ok (a, h') => k a h'
    | Panic msg => Panic msg
    | Blocked => Blocked
    | OutOfFuel => OutOfFuel
    end.

Definition lift {S A} (r : result A) : M S A :=
  fun h =>
    match r with
    | Ok a => Ok (a, h)
    | Panic msg => Panic msg
    | Blocked => Blocked
    | OutOfFuel => OutOfFuel
    end.

Definition panic {S A} (msg : string) : M S A := fun _ => Panic msg.
Definition out_of_fuel {S A} : M S A := fun _ => OutOfFuel.
Definition blocked {S A} : M S A := fun _ => Blocked.

Notation "'do' x <- m ; k" := (bind m (fun x => k))
  (at level 10, x name, m at level 100, k at level 200).
Notation "m ;; k" := (bind m (fun _ => k))
  (at level 100, k at level 200, right associativity).

(** An [error] interface value: nil, or a pointer to an object of the store. *)
Abbreviation addr := nat (only parsing).
Definition error : Type := option addr.
Definition nil : error := None.

Definition nil_dereference : string :=
  "runtime error: invalid memory address or nil pointer dereference".

(** The loop of [argsString] from index [i] on: one [" [key=value]"] per
    pair, for [i < len(args)-1]. *)
Fixpoint argsString_loop (args : list any) : string :=
  match args with
  | k :: v :: rest =>
      (" [" +:+ Sprint_v k +:+ "=" +:+
       match v with
       | AString value => "'" +:+ value +:+ "'"
       | value => Sprint_v value
       end +:+ "]" +:+ argsString_loop rest)%string
  | _ => ""
  end.

(** The loop of [Attrs] over [i], for the pairs left in [rest]: the key must
    be a string.  The message of the panic prints [se.args[i]], with [i] the
    index of the pair, not of the key. *)
Fixpoint Attrs_loop (args rest : list any) (i : nat) : result (list Attr) :=
  match rest with
  | k :: v :: rest' =>
      match k with
      | AString key =>
          match Attrs_loop args rest' (S i) with
          | Ok attrs => Ok (slog_Any key v :: attrs)
          | r => r
          end
      | _ => Panic ("Unexpected non-string error key: " +:+
                    match args !! i with Some a => Sprint_v a | None => "" end)
      end
  | _ => Ok []
  end.

(** The loop of [Attr]: the first attribute with the key. *)
Fixpoint Attr_loop (attrs : list Attr) (key : string) : Attr * bool :=
  match attrs with
  | [] => (slog_Any "" ANil, false)
  | try :: attrs' =>
      if String.eqb (Key try) key then (try, true) else Attr_loop attrs' key
  end.

(** The loop of [recursing]: [for i := len(recurs)-1; i >= 0; i--], with
    [n] the number of entries still to compare. *)
Fixpoint recursing_loop (se : addr) (recurs : list addr) (n : nat) : bool :=
  match n with
  | O => false
  | S i =>
      match recurs !! i with
      | Some x => if Nat.eqb se x then true else recursing_loop se recurs i
      | None => false
      end
  end.

(** ** [serr.go], first unit *)

Module serr.

(** [args] and [validArgs] are slices that are replaced, never written
    through.  [recurs] is kept as the list of its elements: [Clone] copies the
    slice header, so a clone made from an error that has already been rendered
    shares the array behind [recurs] with it; the model covers the errors
    whose [recurs] arrays are their own. *)
Record sError : Type := mk_sError {
  error_ : error;
  err : error;
  args : list any;
  validArgs : list string;
  recurs : list addr;
  sealed : bool;
  locked : bool;
  cloneWrapped : bool;
}.

(** The objects behind [error] values: the [*errorString] of [errors.New]
    (and any other error that is not an [SError], known by its message), and
    [*sError]. *)
Inductive object : Type :=
  | errorString (s : string)
  | sErrorObj (se : sError).

Abbreviation heap := (list object) (only parsing).

Definition alloc (o : object) : M heap addr :=
  fun h => Ok (length h, h ++ [o]).

(** [*se] for a method with receiver [se *sError] *)
Definition load (se : addr) : M heap sError :=
  fun h =>
    match h !! se with
    | Some (sErrorObj v) => Ok (v, h)
    | _ => Panic nil_dereference
    end.

Definition store (se : addr) (v : sError) : M heap unit :=
  fun h => Ok (tt, <[se := sErrorObj v]> h).

(** [errors.New(msg)] *)
Definition errors_New (msg : string) : M heap error :=
  do a <- alloc (errorString msg); ret (Some a).

Definition New (msg : string) : M heap addr :=
  do e <- errors_New msg;
  alloc (sErrorObj {| error_ := e; err := nil; args := []; validArgs := [];
                      recurs := []; sealed := false; locked := false;
                      cloneWrapped := false |}).

Definition IsNil (se : addr) : M heap bool :=
  do v <- load se; ret (bool_decide (error_ v = nil)).

(** [e.Error()] on an interface value [e]: the method of the object behind
    it, [sError_Error] for an [*sError]. *)
Definition error_Error (sError_Error : addr -> M heap string) (e : error)
  : M heap string :=
  fun h =>
    match e with
    | None => Panic nil_dereference
    | Some a =>
        match h !! a with
        | Some (errorString s) => Ok (s, h)
        | Some (sErrorObj _) => sError_Error a h
        | None => Panic nil_dereference
        end
    end.

Definition argsString (se : addr) : M heap string :=
  do v <- load se; ret (argsString_loop (args v)).

Definition recursing (se : addr) : M heap bool :=
  do v <- load se; ret (recursing_loop se (recurs v) (length (recurs v))).

Definition set_recurs (v : sError) (r : list addr) : sError :=
  {| error_ := error_ v; err := err v; args := args v; validArgs := validArgs v;
     recurs := r; sealed := sealed v; locked := locked v;
     cloneWrapped := cloneWrapped v |}.

Definition selfError (sError_Error : addr -> M heap string) (se : addr)
  : M heap string :=
  do yes <- recursing se;
  if negb yes then
    do v <- load se;
    store se (set_recurs v (recurs v ++ [se]));;
    do v <- load se;
    do s <- error_Error sError_Error (err v);
    do v <- load se;
    store se (set_recurs v (take (length (recurs v) - 1)%nat (recurs v)));;
    ret s
  else ret ""%string.

(** The body of the method [Error] of [sError], with the method itself for the calls
    that go through the [error] interface. *)
Definition Error_body (sError_Error : addr -> M heap string) (se : addr)
  : M heap string :=
  do v <- load se;
  if bool_decide (err v = nil) then
    do m <- error_Error sError_Error (error_ v);
    do a <- argsString se;
    ret (m +:+ a)
  else
    do self <- selfError sError_Error se;
    do _ <- (if negb (String.eqb self "") then
               do v <- load se;
               do m <- error_Error sError_Error (error_ v);
               do a <- argsString se;
               ret (m +:+ a +:+ "; " +:+ self)
             else ret ""%string);
    do v <- load se;
    do m <- error_Error sError_Error (error_ v);
    do a <- argsString se;
    ret (m +:+ a).

Fixpoint Error (fuel : nat) (se : addr) : M heap string :=
  match fuel with
  | O => out_of_fuel
  | S fuel' => Error_body (Error fuel') se
  end.

Definition String_ (fuel : nat) (se : addr) : M heap string :=
  do v <- load se; error_Error (Error fuel) (error_ v).

Definition panicf_chkArgs (msg : string) (count : Z) : string :=
  ("SError.Args() for '" +:+ msg +:+
   "' must receive key-value pairs for args; received " +:+ pretty count +:+
   " args instead")%string.

Definition chkArgs (fuel : nat) (se : addr) (count : Z) : M heap unit :=
  if negb (Z.rem count 2 =? 0) then
    do v <- load se;
    do m <- error_Error (Error fuel) (error_ v);
    panic (panicf_chkArgs m count)
  else ret tt.

Definition Clone (se : addr) : M heap addr :=
  do v <- load se;
  alloc (sErrorObj {| error_ := error_ v; err := err v; args := args v;
                      validArgs := validArgs v; recurs := recurs v;
                      sealed := sealed v; locked := false;
                      cloneWrapped := false |}).

Definition CloneWrap (se : addr) : M heap addr :=
  do wrapped <- Clone se;
  do v <- load wrapped;
  store wrapped {| error_ := error_ v; err := Some se; args := args v;
                   validArgs := validArgs v; recurs := recurs v;
                   sealed := sealed v; locked := locked v;
                   cloneWrapped := true |};;
  ret wrapped.

Definition Args (fuel : nat) (se : addr) (args' : list any) : M heap addr :=
  chkArgs fuel se (Z.of_nat (length args'));;
  do v <- load se;
  store se {| error_ := error_ v; err := err v; args := args';
              validArgs := validArgs v; recurs := recurs v;
              sealed := sealed v; locked := locked v;
              cloneWrapped := cloneWrapped v |};;
  CloneWrap se.

Definition GetArgs (se : addr) : M heap (list any) :=
  do v <- load se; ret (args v).

Definition Err (fuel : nat) (se : addr) (err' : error) (args' : list any)
  : M heap addr :=
  do v <- load se;
  store se {| error_ := error_ v; err := err'; args := args v;
              validArgs := validArgs v; recurs := recurs v;
              sealed := sealed v; locked := locked v;
              cloneWrapped := cloneWrapped v |};;
  do se <- (if (0 <? Z.of_nat (length args')) then Args fuel se args' else ret se);
  CloneWrap se.

Definition Unwrap (se : addr) : M heap error :=
  do v <- load se; ret (err v).

Definition ValidArgs (fuel : nat) (se : addr) (args' : list string) : M heap addr :=
  do v <- load se;
  (if sealed v then
     do m <- Error fuel se;
     panic ("SError.ValidArgs() can only be called on an error once: " +:+ m)
   else ret tt);;
  do v <- load se;
  store se {| error_ := error_ v; err := err v; args := args v;
              validArgs := args'; recurs := recurs v;
              sealed := true; locked := locked v;
              cloneWrapped := cloneWrapped v |};;
  ret se.

Definition NoArgs (se : addr) : M heap addr := ret se.

Definition Attrs (se : addr) : M heap (list Attr) :=
  do v <- load se; lift (Attrs_loop (args v) (args v) 0).

Definition Attr_ (se : addr) (key : string) : M heap (Attr * bool) :=
  do attrs <- Attrs se; ret (Attr_loop attrs key).

Definition Wrap (fuel : nat) (err' : error) (msg : string) (args' : list any)
  : M heap addr :=
  do se <- New msg;
  do sErr <- Err fuel se err' [];
  if (0 <? Z.of_nat (length args')) then Args fuel sErr args' else ret sErr.

(** The method [Is]: [se.error == err], a comparison of interface values. *)
Definition Is_ (se : addr) (err' : error) : M heap bool :=
  do v <- load se; ret (bool_decide (error_ v = err')).

(** The type assertion of [e] to [*sError], as [(sErr, ok)]: the pointer when the
    object behind [e] is an [*sError], nothing for nil and for other errors. *)
Definition as_sError (e : error) : M heap (option addr) :=
  fun h =>
    match e with
    | None => Ok (None, h)
    | Some a =>
        match h !! a with
        | Some (sErrorObj _) => Ok (Some a, h)
        | Some (errorString _) => Ok (None, h)
        | None => Panic nil_dereference
        end
    end.

Definition CloneUnwrap (fuel : nat) (se : addr) : M heap error :=
  do v <- load se;
  if negb (cloneWrapped v) then ret (err v)
  else
    do sErr <- as_sError (err v);
    match sErr with
    | None =>
        do m <- Error fuel se;
        panic ("Unexpected error: Clone-wrapped SError is not an SError: " +:+ m)
    | Some sErr =>
        do v1 <- load sErr;
        do sErr <- as_sError (err v1);
        match sErr with
        | None => ret (err v)
        | Some sErr =>
            do v2 <- load sErr;
            do sErr <- as_sError (err v2);
            match sErr with
            | None => ret (err v)
            | Some sErr => Unwrap sErr
            end
        end
    end.

(** [errors.As(err, &sErr)] for [sErr] of type [SError] and [err] not nil:
    an [*sError] is assignable to [SError] and is found at once; an
    [*errorString] is not, and has neither an [As] nor an [Unwrap] method. *)
Definition errors_As (err' : error) : M heap (option addr) := as_sError err'.

Definition Cast (fuel : nat) (err' : error) (args' : list any) : M heap error :=
  do sErr <- match err' with
             | None => ret nil
             | Some _ =>
                 do found <- errors_As err';
                 match found with
                 | Some s => ret (Some s)
                 | None =>
                     do a <- alloc (sErrorObj {| error_ := err'; err := nil; args := [];
                                                 validArgs := []; recurs := [];
                                                 sealed := false; locked := false;
                                                 cloneWrapped := false |});
                     ret (Some a)
                 end
             end;
  if negb (bool_decide (err' = nil)) && (0 <? Z.of_nat (length args')) then
    match sErr with
    | Some s => do r <- Args fuel s args'; ret (Some r)
    | None => panic nil_dereference
    end
  else ret sErr.

(** One turn of the loop of [errors.Is], for [err] not nil and a target
    that is a pointer: the identity test, the method [Is] when the error has
    one, then [Unwrap] when the error has one. *)
Definition errors_is_body (again : error -> M heap bool) (err' target : error)
  : M heap bool :=
  if bool_decide (err' = target) then ret true
  else
    match err' with
    | None => panic nil_dereference
    | Some a =>
        fun h =>
          match h !! a with
          | Some (sErrorObj _) =>
              (do yes <- Is_ a target;
               if yes then ret true
               else
                 do e <- Unwrap a;
                 if bool_decide (e = nil) then ret false else again e) h
          | Some (errorString _) => Ok (false, h)
          | None => Panic nil_dereference
          end
    end.

Fixpoint errors_is (fuel : nat) (target err' : error) : M heap bool :=
  match fuel with
  | O => out_of_fuel
  | S fuel' => errors_is_body (errors_is fuel' target) err' target
  end.

(** [errors.Is(err, target)] *)
Definition errors_Is (fuel : nat) (err' target : error) : M heap bool :=
  if bool_decide (err' = nil) || bool_decide (target = nil) then
    ret (bool_decide (err' = target))
  else errors_is fuel target err'.

(** The function [Is] of the package. *)
Definition Is (fuel : nat) (err' sErr : error) : M heap bool :=
  errors_Is fuel err' sErr.

(** *** Notions used to state the properties *)

(** Structured errors not yet on their own [recurs] list: each nested
    rendering marks one more, which bounds the depth of the recursion. *)
Definition marked (h : heap) (a : addr) : bool :=
  match h !! a with
  | Some (sErrorObj v) => bool_decide (a ∈ recurs v)
  | _ => true
  end.

Definition unmarked_count (h : heap) : nat :=
  length (filter (fun a => marked h a = false) (seq 0 (length h))).

(** The embedded error is a plain one, with message [m]. *)
Definition plain_base (h : heap) (v : sError) (m : string) : Prop :=
  exists e, error_ v = Some e /\ h !! e = Some (errorString m).

(** A store as the constructors build it: every structured error embeds a
    plain error, and every cause is an object of the store. *)
Definition wf (h : heap) : Prop :=
  forall a v, h !! a = Some (sErrorObj v) ->
    (exists m, plain_base h v m) /\ (forall c, err v = Some c -> is_Some (h !! c)).

(** The copy that [CloneWrap] makes of [v], found at [se]. *)
Definition clone_wrap_of (se : addr) (v : sError) : sError :=
  {| error_ := error_ v; err := Some se; args := args v; validArgs := validArgs v;
     recurs := recurs v; sealed := sealed v; locked := false; cloneWrapped := true |}.

Definition with_args (v : sError) (a : list any) : sError :=
  {| error_ := error_ v; err := err v; args := a; validArgs := validArgs v;
     recurs := recurs v; sealed := sealed v; locked := locked v;
     cloneWrapped := cloneWrapped v |}.

Definition with_err (v : sError) (c : error) : sError :=
  {| error_ := error_ v; err := c; args := args v; validArgs := validArgs v;
     recurs := recurs v; sealed := sealed v; locked := locked v;
     cloneWrapped := cloneWrapped v |}.

End serr.

(** ** [part_000]: the revision with the lock *)

Module part_000.

Record sError : Type := mk_sError {
  error_ : error;
  err : error;
  args : list any;
  validArgs : list string;
  recurs : list addr;
}.

Inductive object : Type :=
  | errorString (s : string)
  | sErrorObj (se : sError).

(** The package variable [mutex sync.RWMutex]: whether it is held for
    writing, and by how many readers. *)
Record RWMutex : Type := mk_RWMutex { writer : bool; readers : nat }.

(** The store: the objects and the package variable [mutex]. *)
Record state : Type := mk_state { objects : list object; mutex : RWMutex }.

Definition init : state := mk_state [] (mk_RWMutex false 0).

(** [mutex.RLock()]: waits while the lock is held for writing; the holder
    is the goroutine that runs the call, so the wait has no end. *)
Definition RLock : M state unit :=
  fun st =>
    if writer (mutex st) then Blocked
    else Ok (tt, mk_state (objects st) (mk_RWMutex false (S (readers (mutex st))))).

Definition RUnlock : M state unit :=
  fun st =>
    match readers (mutex st) with
    | O => Panic "fatal error: sync: RUnlock of unlocked RWMutex"
    | S n => Ok (tt, mk_state (objects st) (mk_RWMutex (writer (mutex st)) n))
    end.

(** [mutex.Lock()]: waits while the lock is held at all. *)
Definition Lock : M state unit :=
  fun st =>
    if writer (mutex st) || negb (Nat.eqb (readers (mutex st)) 0) then Blocked
    else Ok (tt, mk_state (objects st) (mk_RWMutex true 0)).

Definition Unlock : M state unit :=
  fun st =>
    if writer (mutex st) then
      Ok (tt, mk_state (objects st) (mk_RWMutex false (readers (mutex st))))
    else Panic "fatal error: sync: Unlock of unlocked RWMutex".

Definition alloc (o : object) : M state addr :=
  fun st => Ok (length (objects st), mk_state (objects st ++ [o]) (mutex st)).

Definition load (se : addr) : M state sError :=
  fun st =>
    match objects st !! se with
    | Some (sErrorObj v) => Ok (v, st)
    | _ => Panic nil_dereference
    end.

Definition store (se : addr) (v : sError) : M state unit :=
  fun st => Ok (tt, mk_state (<[se := sErrorObj v]> (objects st)) (mutex st)).

Definition errors_New (msg : string) : M state error :=
  do a <- alloc (errorString msg); ret (Some a).

Definition New (msg : string) : M state addr :=
  do e <- errors_New msg;
  alloc (sErrorObj {| error_ := e; err := nil; args := []; validArgs := [];
                      recurs := [] |}).

Definition error_Error (sError_Error : addr -> M state string) (e : error)
  : M state string :=
  fun st =>
    match e with
    | None => Panic nil_dereference
    | Some a =>
        match objects st !! a with
        | Some (errorString s) => Ok (s, st)
        | Some (sErrorObj _) => sError_Error a st
        | None => Panic nil_dereference
        end
    end.

Definition argsString (se : addr) : M state string :=
  do v <- load se; ret (argsString_loop (args v)).

Definition recursing (se : addr) : M state bool :=
  RLock;;
  do v <- load se;
  do yes <- ret (recursing_loop se (recurs v) (length (recurs v)));
  RUnlock;;
  ret yes.

Definition set_recurs (v : sError) (r : list addr) : sError :=
  {| error_ := error_ v; err := err v; args := args v; validArgs := validArgs v;
     recurs := r |}.

Definition selfError (sError_Error : addr -> M state string) (se : addr)
  : M state string :=
  do yes <- recursing se;
  if negb yes then
    Lock;;
    do v <- load se;
    store se (set_recurs v (recurs v ++ [se]));;
    do v <- load se;
    do s <- error_Error sError_Error (err v);
    do v <- load se;
    store se (set_recurs v (take (length (recurs v) - 1)%nat (recurs v)));;
    Unlock;;
    ret s
  else ret ""%string.

Definition Error_body (sError_Error : addr -> M state string) (se : addr)
  : M state string :=
  do v <- load se;
  if bool_decide (err v = nil) then
    do m <- error_Error sError_Error (error_ v);
    do a <- argsString se;
    ret (m +:+ a)
  else
    do self <- selfError sError_Error se;
    do _ <- (if negb (String.eqb self "") then
               do v <- load se;
               do m <- error_Error sError_Error (error_ v);
               do a <- argsString se;
               ret (m +:+ a +:+ "; " +:+ self)
             else ret ""%string);
    do v <- load se;
    do m <- error_Error sError_Error (error_ v);
    do a <- argsString se;
    ret (m +:+ a).

Fixpoint Error (fuel : nat) (se : addr) : M state string :=
  match fuel with
  | O => out_of_fuel
  | S fuel' => Error_body (Error fuel') se
  end.

Definition panicf_chkArgs (msg : string) (count : Z) : string :=
  ("SError.Args() for '" +:+ msg +:+
   "' must receive key-value pairs for args; received " +:+ pretty count +:+
   " args instead")%string.

Definition chkArgs (fuel : nat) (se : addr) (count : Z) : M state unit :=
  if negb (Z.rem count 2 =? 0) then
    do v <- load se;
    do m <- error_Error (Error fuel) (error_ v);
    panic (panicf_chkArgs m count)
  else ret tt.

Definition Args (fuel : nat) (se : addr) (args' : list any) : M state addr :=
  chkArgs fuel se (Z.of_nat (length args'));;
  do v <- load se;
  store se {| error_ := error_ v; err := err v; args := args';
              validArgs := validArgs v; recurs := recurs v |};;
  ret se.

Definition Err (fuel : nat) (se : addr) (err' : error) (args' : list any)
  : M state addr :=
  do v <- load se;
  store se {| error_ := error_ v; err := err'; args := args v;
              validArgs := validArgs v; recurs := recurs v |};;
  (if (0 <? Z.of_nat (length args')) then Args fuel se args' else ret se);;
  ret se.

Definition Unwrap (se : addr) : M state error :=
  do v <- load se; ret (err v).

Definition ValidArgs (se : addr) (args' : list string) : M state addr :=
  do v <- load se;
  store se {| error_ := error_ v; err := err v; args := args v;
              validArgs := args'; recurs := recurs v |};;
  ret se.

Definition Wrap (fuel : nat) (err' : error) (msg : string) (args' : list any)
  : M state addr :=
  do se <- New msg;
  do sErr <- Err fuel se err' [];
  if (0 <? Z.of_nat (length args')) then Args fuel sErr args' else ret sErr.

Definition GetArgs (se : addr) : M state (list any) :=
  do v <- load se; ret (args v).

Definition NoArgs (se : addr) : M state addr := ret se.

Definition IsNil (se : addr) : M state bool :=
  do v <- load se; ret (bool_decide (error_ v = nil)).

Definition Attrs (se : addr) : M state (list Attr) :=
  do v <- load se; lift (Attrs_loop (args v) (args v) 0).

Definition Attr_ (se : addr) (key : string) : M state (Attr * bool) :=
  do attrs <- Attrs se; ret (Attr_loop attrs key).

(** [errors.As(err, &sErr)] for [sErr] of type [SError] and [err] not nil. *)
Definition errors_As (err' : error) : M state (option addr) :=
  fun st =>
    match err' with
    | None => Ok (None, st)
    | Some a =>
        match objects st !! a with
        | Some (sErrorObj _) => Ok (Some a, st)
        | Some (errorString _) => Ok (None, st)
        | None => Panic nil_dereference
        end
    end.

Definition Cast (fuel : nat) (err' : error) (args' : list any) : M state error :=
  do sErr <- match err' with
             | None => ret nil
             | Some _ =>
                 do found <- errors_As err';
                 match found with
                 | Some s => ret (Some s)
                 | None =>
                     do a <- alloc (sErrorObj {| error_ := err'; err := nil; args := [];
                                                 validArgs := []; recurs := [] |});
                     ret (Some a)
                 end
             end;
  if negb (bool_decide (err' = nil)) && (0 <? Z.of_nat (length args')) then
    match sErr with
    | Some s => do r <- Args fuel s args'; ret (Some r)
    | None => panic nil_dereference
    end
  else ret sErr.


End part_000.

(** ** [serr.go], second unit: the oldest revision *)

Module serr_old.

(** [args] is tested against nil in [Err]: a slice is nil or holds a list. *)
Abbreviation slice := (option (list any)) (only parsing).

(** The elements of a slice; [len(s)] is their number. *)
Definition elems (s : slice) : list any :=
  match s with
  | None => []
  | Some l => l
  end.

(** [%v] of a [[]any]: the elements in brackets, a space between them. *)
Definition Sprint_slice (l : list any) : string :=
  ("[" +:+ String.concat " " (map Sprint_v l) +:+ "]")%string.

Record sError : Type := mk_sError {
  error_ : error;
  err : error;
  args : slice;
  validArgs : list string;
}.

Inductive object : Type :=
  | errorString (s : string)
  | sErrorObj (se : sError).

Abbreviation heap := (list object) (only parsing).

Definition alloc (o : object) : M heap addr :=
  fun h => Ok (length h, h ++ [o]).

Definition load (se : addr) : M heap sError :=
  fun h =>
    match h !! se with
    | Some (sErrorObj v) => Ok (v, h)
    | _ => Panic nil_dereference
    end.

Definition store (se : addr) (v : sError) : M heap unit :=
  fun h => Ok (tt, <[se := sErrorObj v]> h).

Definition errors_New (msg : string) : M heap error :=
  do a <- alloc (errorString msg); ret (Some a).

Definition New (msg : string) : M heap addr :=
  do e <- errors_New msg;
  alloc (sErrorObj {| error_ := e; err := nil; args := None; validArgs := [] |}).

(** [Cast] wraps whatever it is given, nil and structured errors included. *)
Definition Cast (err' : error) : M heap addr :=
  alloc (sErrorObj {| error_ := err'; err := nil; args := None; validArgs := [] |}).

Definition error_Error (sError_Error : addr -> M heap string) (e : error)
  : M heap string :=
  fun h =>
    match e with
    | None => Panic nil_dereference
    | Some a =>
        match h !! a with
        | Some (errorString s) => Ok (s, h)
        | Some (sErrorObj _) => sError_Error a h
        | None => Panic nil_dereference
        end
    end.

Definition argsString (se : addr) : M heap string :=
  do v <- load se; ret (argsString_loop (elems (args v))).

(** The body of the method [Error]: with a cause, the error's own text,
    ["; "], and the text of the cause. *)
Definition Error_body (sError_Error : addr -> M heap string) (se : addr)
  : M heap string :=
  do v <- load se;
  if negb (bool_decide (err v = nil)) then
    do m <- error_Error sError_Error (error_ v);
    do a <- argsString se;
    do v <- load se;
    do c <- error_Error sError_Error (err v);
    ret (m +:+ a +:+ "; " +:+ c)
  else
    do m <- error_Error sError_Error (error_ v);
    do a <- argsString se;
    ret (m +:+ a).

Fixpoint Error (fuel : nat) (se : addr) : M heap string :=
  match fuel with
  | O => out_of_fuel
  | S fuel' => Error_body (Error fuel') se
  end.

Definition String_ (fuel : nat) (se : addr) : M heap string :=
  do v <- load se; error_Error (Error fuel) (error_ v).

Definition ValidArgs (se : addr) (args' : list string) : M heap addr :=
  do v <- load se;
  store se {| error_ := error_ v; err := err v; args := args v; validArgs := args' |};;
  ret se.

Definition NoArgs (se : addr) : M heap addr := ret se.

Definition panicf_chkArgs (msg : string) (count : Z) : string :=
  ("SError.Args() for '" +:+ msg +:+
   "' must receive key-value pairs for args; received " +:+ pretty count +:+
   " args instead")%string.

Definition chkArgs (fuel : nat) (se : addr) (count : Z) : M heap unit :=
  if negb (Z.rem count 2 =? 0) then
    do v <- load se;
    do m <- error_Error (Error fuel) (error_ v);
    panic (panicf_chkArgs m count)
  else ret tt.

Definition Args (fuel : nat) (se : addr) (args' : slice) : M heap addr :=
  chkArgs fuel se (Z.of_nat (length (elems args')));;
  do v <- load se;
  store se {| error_ := error_ v; err := err v; args := args';
              validArgs := validArgs v |};;
  ret se.

(** [Err] appends the slice [args] itself, as one element, to attributes
    that are already there. *)
Definition Err (fuel : nat) (se : addr) (err' : error) (args' : slice) : M heap addr :=
  do v <- load se;
  store se {| error_ := error_ v; err := err'; args := args v;
              validArgs := validArgs v |};;
  (if 0 <? Z.of_nat (length (elems args')) then
     chkArgs fuel se (Z.of_nat (length (elems args')));;
     do v <- load se;
     match args v with
     | None =>
         store se {| error_ := error_ v; err := err v; args := args';
                     validArgs := validArgs v |}
     | Some l =>
         store se {| error_ := error_ v; err := err v;
                     args := Some (l ++ [AOther (Sprint_slice (elems args'))]);
                     validArgs := validArgs v |}
     end
   else ret tt);;
  ret se.

Definition Is_ (se : addr) (err' : error) : M heap bool :=
  do v <- load se; ret (bool_decide (error_ v = err')).

Definition Unwrap (se : addr) : M heap error :=
  do v <- load se; ret (err v).

Definition Wrap (fuel : nat) (err' : error) (msg : string) (args' : slice)
  : M heap addr :=
  do se <- New msg;
  do sErr <- Err fuel se err' None;
  if 0 <? Z.of_nat (length (elems args')) then Args fuel sErr args' else ret sErr.

(** The text of an error of the store, by the shape of the chain below it:
    a plain error has its message; a structured error has the text of the
    error it embeds and its attributes, followed, when it has a cause, by
    ["; "] and the text of the cause. *)
Inductive renders (h : heap) : error -> string -> Prop :=
  | renders_plain a s :
      h !! a = Some (errorString s) -> renders h (Some a) s
  | renders_leaf a v m :
      h !! a = Some (sErrorObj v) -> err v = nil ->
      renders h (error_ v) m ->
      renders h (Some a) (m +:+ argsString_loop (elems (args v)))
  | renders_cause a v m c :
      h !! a = Some (sErrorObj v) -> err v <> nil ->
      renders h (error_ v) m -> renders h (err v) c ->
      renders h (Some a) (m +:+ argsString_loop (elems (args v)) +:+ "; " +:+ c).

End serr_old.

Definition run {S A} (m : M S A) (h : S) : result A :=
  match m h with
  | Ok (a, _) => Ok a
  | Panic msg => Panic msg
  | Blocked => Blocked
  | OutOfFuel => OutOfFuel
  end.

(** *** The rendering of attributes, in the words of the specification

    One [" [key=value]"] segment per attribute pair; a string value in single
    quotes, any other value in its plain textual form. *)
Definition render_value (v : any) : string :=
  match v with
  | AString s => "'" +:+ s +:+ "'"
  | _ => Sprint_v v
  end.

Definition render_pair (kv : any * any) : string :=
  " [" +:+ Sprint_v (fst kv) +:+ "=" +:+ render_value (snd kv) +:+ "]".

Definition render_pairs (ps : list (any * any)) : string :=
  fold_right (fun kv acc => render_pair kv +:+ acc) ""%string ps.

(** The variadic arguments [k1, v1, k2, v2, ...] of a list of pairs. *)
Definition flatten_pairs (ps : list (any * any)) : list any :=
  flat_map (fun kv => [fst kv; snd kv]) ps.

(** *** Stores that differ only in the recorded [validArgs] *)

Definition erase_validArgs (v : serr.sError) : serr.sError :=
  {| serr.error_ := serr.error_ v; serr.err := serr.err v; serr.args := serr.args v;
     serr.validArgs := []; serr.recurs := serr.recurs v; serr.sealed := serr.sealed v;
     serr.locked := serr.locked v; serr.cloneWrapped := serr.cloneWrapped v |}.

Definition erase_object (o : serr.object) : serr.object :=
  match o with
  | serr.errorString s => serr.errorString s
  | serr.sErrorObj v => serr.sErrorObj (erase_validArgs v)
  end.

Definition same_but_validArgs (h1 h2 : list serr.object) : Prop :=
  erase_object <$> h1 = erase_object <$> h2.

(** Two calls end the same way: both return, with values related by [R] and
    stores that again differ only in [validArgs], or both panic with the same
    message, or neither returns. *)
Definition same_outcome {A B} (R : A -> B -> Prop)
    (r1 : result (A * list serr.object)) (r2 : result (B * list serr.object)) : Prop :=
  match r1, r2 with
  | Ok (a, h1), Ok (b, h2) => R a b /\ same_but_validArgs h1 h2
  | Panic m1, Panic m2 => m1 = m2
  | Blocked, Blocked => True
  | OutOfFuel, OutOfFuel => True
  | _, _ => False
  end.

(** Two computations that end the same way on stores that differ only in
    [validArgs]. *)
Definition sim {A B} (R : A -> B -> Prop)
    (m1 : M (list serr.object) A) (m2 : M (list serr.object) B) : Prop :=
  forall h1 h2, same_but_validArgs h1 h2 -> same_outcome R (m1 h1) (m2 h2).

(** ** Tactics *)

(** Boolean tests on integers found in the hypotheses, as propositions. *)
Ltac zbool :=
  repeat match goal with
         | H : (_ || _) = true |- _ => apply orb_true_iff in H
         | H : (_ || _) = false |- _ => apply orb_false_iff in H; destruct H
         | H : (_ && _) = true |- _ => apply andb_true_iff in H; destruct H
         | H : (_ && _) = false |- _ => apply andb_false_iff in H
         | H : negb _ = true |- _ => apply negb_true_iff in H
         | H : negb _ = false |- _ => apply negb_false_iff in H
         | H : (_ <? _) = true |- _ => apply Z.ltb_lt in H
         | H : (_ <? _) = false |- _ => apply Z.ltb_ge in H
         | H : (_ <=? _) = true |- _ => apply Z.leb_le in H
         | H : (_ <=? _) = false |- _ => apply Z.leb_gt in H
         | H : (_ =? _) = true |- _ => apply Z.eqb_eq in H
         | H : (_ =? _) = false |- _ => apply Z.eqb_neq in H
         end.

(** Case analysis on every test of the goal. *)
Ltac split_ifs :=
  repeat match goal with
         | |- context [if ?c then _ else _] => destruct c eqn:?
         end; zbool.

(** Linear arithmetic, also when the goal is not arithmetic. *)
Ltac zlia := first [lia | exfalso; lia].

(** Two records equal up to [validArgs] have their other fields equal. *)
Ltac same_fields H :=
  match type of H with
  | erase_validArgs ?v1 = erase_validArgs ?v2 =>
      destruct v1, v2; unfold erase_validArgs in H; simpl in H;
      injection H; clear H; intros; subst
  end.

(** ** Properties of the text functions *)

Section utf8_facts.
Import utf8.

(** *** Bytes and slices *)

Lemma byte_val_range c : 0 <= byte_val c < 256.
Proof.
  unfold byte_val. pose proof (N_ascii_bounded c). lia.
Qed.

Lemma RuneStart_spec c :
  RuneStart (byte_val c) = negb ((0x80 <=? byte_val c) && (byte_val c <=? 0xBF)).
Proof. destruct c as [[] [] [] [] [] [] [] []]; reflexivity. Qed.

Lemma len_nonneg p : 0 <= len p.
Proof. unfold len. lia. Qed.

Lemma at_range p i : 0 <= at_ p i < 256.
Proof. unfold at_. destruct (p !! Z.to_nat i); [apply byte_val_range|lia]. Qed.

Lemma at_app_l p q i : 0 <= i < len p -> at_ (p ++ q) i = at_ p i.
Proof. intros Hi. unfold at_, len in *. by rewrite lookup_app_l by lia. Qed.

Lemma len_app p q : len (p ++ q) = len p + len q.
Proof. unfold len. rewrite length_app. lia. Qed.


(** The classes of a first byte. *)
Lemma first_class b :
  0 <= b < 256 ->
  (first b = as_ /\ b < 0x80)
  \/ (first b = xx /\ 0x80 <= b)
  \/ (first b < as_ /\ 0xC2 <= b <= 0xF4
      /\ 2 <= Z.land (first b) 7 <= 4
      /\ 0x80 <= fst (acceptRanges (Z.shiftr (first b) 4))
      /\ snd (acceptRanges (Z.shiftr (first b) 4)) <= 0xBF).
Proof.
  intros Hb. unfold first. split_ifs.
  all: try (left; split; [reflexivity|lia]).
  all: try (right; left; split; [reflexivity|lia]).
  all: right; right; repeat split; try lia; try (vm_compute; congruence).
Qed.

Lemma as_xx_bit : Z.testbit as_ 0 = false /\ Z.testbit xx 0 = true.
Proof. split; reflexivity. Qed.

(** The outcome of [DecodeRune], by cases. *)
Lemma DecodeRune_cases p :
  p <> [] ->
  let p0 := at_ p 0 in
  let sz := Z.land (first p0) 7 in
  let lo := fst (acceptRanges (Z.shiftr (first p0) 4)) in
  let hi := snd (acceptRanges (Z.shiftr (first p0) 4)) in
  (p0 < 0x80 /\ DecodeRune p = (p0, 1))
  \/ (0x80 <= p0 /\ DecodeRune p = (RuneError, 1))
  \/ (0xC2 <= p0 <= 0xF4 /\ 2 <= sz <= 4 /\ sz <= len p
      /\ 0x80 <= lo <= at_ p 1 /\ at_ p 1 <= hi <= 0xBF
      /\ (3 <= sz -> 0x80 <= at_ p 2 <= 0xBF)
      /\ (4 <= sz -> 0x80 <= at_ p 3 <= 0xBF)
      /\ snd (DecodeRune p) = sz).
Proof.
  intros Hp p0 sz lo hi.
  assert (Hn : 1 <= len p) by (unfold len; destruct p; [done|simpl; lia]).
  pose proof (at_range p 0) as Hr. fold p0 in Hr.
  unfold DecodeRune. fold p0. cbv zeta.
  destruct (len p <? 1) eqn:E; [zbool; lia|].
  destruct (first_class p0 Hr) as [[Hx Hb]|[[Hx Hb]|(Hx & Hb & Hsz & Hlo & Hhi)]].
  - left. split; [done|]. rewrite Hx. change (as_ <=? as_) with true. cbv iota.
    rewrite (proj1 as_xx_bit). change (Z.lnot 0) with (-1).
    by rewrite Z.land_m1_r, Z.land_0_r, Z.lor_0_r.
  - right; left. split; [done|]. rewrite Hx. change (as_ <=? xx) with true. cbv iota.
    rewrite (proj2 as_xx_bit). change (Z.lnot (-1)) with 0.
    by rewrite Z.land_0_r, Z.land_m1_r, Z.lor_0_l.
  - fold sz lo hi in Hsz, Hlo, Hhi |- *.
    destruct (as_ <=? first p0) eqn:E0; [zbool; lia|].
    pose proof (at_range p 1). pose proof (at_range p 2). pose proof (at_range p 3).
    split_ifs.
    all: try (right; left; split; [lia|reflexivity]).
    all: right; right; simpl; unfold locb, hicb in *; repeat split; lia.
Qed.

(** The size of a decoded rune *)
Lemma DecodeRune_size p :
  p <> [] -> 1 <= snd (DecodeRune p) <= 4 /\ snd (DecodeRune p) <= len p.
Proof.
  intros Hp. assert (1 <= len p) by (unfold len; destruct p; [done|simpl; lia]).
  destruct (DecodeRune_cases p Hp) as [[_ ->]|[[_ ->]|H1]]; simpl; lia.
Qed.

(** A rune of more than one byte starts with a byte that is a rune start
    and goes on with continuation bytes. *)
Lemma DecodeRune_multi p r sz :
  DecodeRune p = (r, sz) -> 2 <= sz ->
  sz <= 4 /\ sz <= len p /\ 0xC2 <= at_ p 0
  /\ forall i, 1 <= i < sz -> 0x80 <= at_ p i <= 0xBF.
Proof.
  intros Hd Hsz. destruct (decide (p = [])) as [->|Hp]; [by inversion Hd; subst|].
  destruct (DecodeRune_cases p Hp) as [[_ E]|[[_ E]|H1]].
  1,2: rewrite E in Hd; injection Hd as <- <-; lia.
  destruct H1 as (Hb & H2 & Hl & Hlo & Hhi & H3 & H4 & E).
  rewrite Hd in E. simpl in E. subst sz. repeat split; try lia.
  all: assert (i = 1 \/ i = 2 \/ i = 3) as [->|[->| ->]] by lia; lia.
Qed.

(** [DecodeRune] reads no further than the rune it returns: a prefix that
    holds the rune decodes alike. *)
Lemma DecodeRune_prefix p q :
  p <> [] -> snd (DecodeRune (p ++ q)) <= len p ->
  DecodeRune p = DecodeRune (p ++ q).
Proof.
  intros Hp Hle.
  assert (Hn : 1 <= len p) by (unfold len; destruct p; [done|simpl; lia]).
  assert (Hpq : p ++ q <> []) by (by destruct p).
  pose proof (len_nonneg q) as Hq. pose proof (len_app p q) as Hlen.
  revert Hle. unfold DecodeRune. cbv zeta.
  rewrite (at_app_l p q 0) by lia.
  pose proof (at_range p 0) as Hr.
  destruct (first_class _ Hr) as [[Hx Hb]|[[Hx Hb]|(Hx & Hb & Hsz & Hlo & Hhi)]].
  - rewrite Hx. change (as_ <=? as_) with true. cbv iota.
    destruct (len p <? 1) eqn:?, (len (p ++ q) <? 1) eqn:?; zbool; try lia. done.
  - rewrite Hx. change (as_ <=? xx) with true. cbv iota.
    destruct (len p <? 1) eqn:?, (len (p ++ q) <? 1) eqn:?; zbool; try lia. done.
  - destruct (len p <? 1) eqn:?, (len (p ++ q) <? 1) eqn:?; zbool; try lia.
    destruct (as_ <=? first (at_ p 0)) eqn:?; zbool; [lia|].
    set (sz := Z.land (first (at_ p 0)) 7) in *.
    destruct (len (p ++ q) <? sz) eqn:E1; zbool.
    { intros _. destruct (len p <? sz) eqn:?; zbool; [done|lia]. }
    destruct (len p <? sz) eqn:E2; zbool.
    { split_ifs; simpl; intros; try done; lia. }
    rewrite (at_app_l p q 1) by lia.
    destruct (_ || _) eqn:E3; [done|].
    destruct (sz <=? 2) eqn:E4; [done|]. zbool.
    rewrite (at_app_l p q 2) by lia.
    destruct (_ || _) eqn:E5; [done|].
    destruct (sz <=? 3) eqn:E6; [done|]. zbool.
    rewrite (at_app_l p q 3) by lia. done.
Qed.

Lemma RuneStart_at p i :
  RuneStart (at_ p i) = negb ((0x80 <=? at_ p i) && (at_ p i <=? 0xBF)).
Proof.
  unfold at_. destruct (p !! Z.to_nat i); [apply RuneStart_spec|reflexivity].
Qed.

Lemma len_drop p k : 0 <= k <= len p -> len (slice_from p k) = len p - k.
Proof. intros Hk. unfold len, slice_from in *. rewrite length_drop. zlia. Qed.

Lemma len_take p k : 0 <= k <= len p -> len (slice_to p k) = k.
Proof. intros Hk. unfold len, slice_to in *. rewrite length_take. zlia. Qed.

Lemma at_drop p k i : 0 <= k -> 0 <= i -> at_ (slice_from p k) i = at_ p (k + i).
Proof.
  intros Hk Hi. unfold at_, slice_from. rewrite lookup_drop.
  by replace (Z.to_nat k + Z.to_nat i)%nat with (Z.to_nat (k + i)) by zlia.
Qed.

Lemma slice_to_all p k : len p <= k -> slice_to p k = p.
Proof. intros Hk. unfold slice_to, len in *. apply take_ge. zlia. Qed.

Lemma len_pos p : p <> [] -> 1 <= len p.
Proof. unfold len. destruct p; [done|simpl; zlia]. Qed.

Lemma len_0 p : len p = 0 -> p = [].
Proof. unfold len. destruct p; [done|simpl; zlia]. Qed.

(** *** Counting runes *)

Lemma decodeFrom_fuel fuel1 : forall fuel2 i j p,
  (length p <= fuel1)%nat -> (length p <= fuel2)%nat ->
  length (decodeFrom fuel1 i p) = length (decodeFrom fuel2 j p).
Proof.
  induction fuel1 as [|fuel1 IH]; intros fuel2 i j p H1 H2.
  - destruct p; [|simpl in H1; zlia]. by destruct fuel2.
  - destruct fuel2 as [|fuel2].
    { destruct p; [done|simpl in H2; zlia]. }
    destruct p as [|c p]; [done|]. cbn [decodeFrom].
    pose proof (DecodeRune_size (c :: p) ltac:(done)) as [Hs Hl].
    destruct (DecodeRune (c :: p)) as [r size]. cbn [snd] in *. cbn [length].
    f_equal. apply IH; unfold slice_from; rewrite length_drop; simpl in *; zlia.
Qed.

Lemma RuneCount_nil : RuneCount [] = 0.
Proof. reflexivity. Qed.

Lemma RuneCount_step p :
  p <> [] -> RuneCount p = 1 + RuneCount (slice_from p (snd (DecodeRune p))).
Proof.
  intros Hp. unfold RuneCount. destruct p as [|c p]; [done|].
  cbn [length decodeFrom].
  pose proof (DecodeRune_size (c :: p) ltac:(done)) as [Hs Hl].
  destruct (DecodeRune (c :: p)) as [r size]. cbn [snd] in *. cbn [length].
  rewrite (decodeFrom_fuel _ (length (slice_from (c :: p) size)) _ 0).
  - zlia.
  - unfold slice_from. rewrite length_drop. simpl in *. zlia.
  - done.
Qed.

Lemma RuneCount_nonneg p : 0 <= RuneCount p.
Proof. unfold RuneCount. zlia. Qed.

(** *** The last rune *)

Lemma lastRuneStart_spec fuel : forall p start lim,
  start - lim + 1 < Z.of_nat fuel -> lim - 1 <= start ->
  let s := lastRuneStart fuel p start lim in
  lim - 1 <= s <= start
  /\ (forall i, s < i <= start -> RuneStart (at_ p i) = false)
  /\ (lim <= s -> RuneStart (at_ p s) = true).
Proof.
  induction fuel as [|fuel IH]; intros p start lim Hf Hs; [zlia|].
  cbn [lastRuneStart]. destruct (start <? lim) eqn:E; zbool.
  { cbv zeta. repeat split; try zlia; intros; zlia. }
  destruct (RuneStart (at_ p start)) eqn:E1.
  { cbv zeta. repeat split; try zlia; try done; intros; zlia. }
  specialize (IH p (start - 1) lim ltac:(lia) ltac:(lia)). cbv zeta in *.
  destruct IH as (H1 & H2 & H3). repeat split; try zlia; try done.
  intros i Hi. destruct (decide (i = start)) as [->|]; [done|]. apply H2. zlia.
Qed.

Lemma DecodeLastRune_ascii p :
  p <> [] -> at_ p (len p - 1) < 0x80 ->
  DecodeLastRune p = (at_ p (len p - 1), 1).
Proof.
  intros Hp Hlast. pose proof (len_pos p Hp). unfold DecodeLastRune. cbv zeta.
  destruct (len p =? 0) eqn:?; zbool; [zlia|].
  unfold RuneSelf. destruct (_ <? 128) eqn:?; zbool; [done|zlia].
Qed.

Lemma DecodeLastRune_multi p r sz :
  2 <= sz <= len p -> DecodeRune (slice_from p (len p - sz)) = (r, sz) ->
  DecodeLastRune p = (r, sz).
Proof.
  intros Hsz Hd. pose proof (DecodeRune_multi _ _ _ Hd ltac:(lia)) as (H4 & _ & H0 & Hc).
  rewrite at_drop in H0 by zlia. rewrite Z.add_0_r in H0.
  assert (Hcont : forall i, len p - sz < i < len p -> 0x80 <= at_ p i <= 0xBF).
  { intros i Hi. specialize (Hc (i - (len p - sz)) ltac:(lia)).
    rewrite at_drop in Hc by zlia.
    by replace (len p - sz + (i - (len p - sz))) with i in Hc by zlia. }
  unfold DecodeLastRune. cbv zeta.
  destruct (len p =? 0) eqn:?; zbool; [zlia|].
  pose proof (Hcont (len p - 1) ltac:(lia)) as Hlast.
  unfold RuneSelf. destruct (_ <? 128) eqn:?; zbool; [zlia|].
  set (lim := if len p - UTFMax <? 0 then 0 else len p - UTFMax).
  assert (Hlim : 0 <= lim /\ len p - 4 <= lim /\ lim <= len p - sz).
  { unfold lim, UTFMax in *. destruct (_ <? 0) eqn:?; zbool; zlia. }
  pose proof (lastRuneStart_spec (S (length p)) p (len p - 1 - 1) lim) as Hloop.
  cbv zeta in Hloop. set (s := lastRuneStart _ _ _ _) in *.
  destruct Hloop as (Hs1 & Hs2 & Hs3); [unfold len; zlia|zlia|].
  assert (s = len p - sz) as Hseq.
  { destruct (Z.lt_trichotomy s (len p - sz)) as [Hlt|[?|Hgt]]; [|done|].
    - specialize (Hs2 (len p - sz) ltac:(lia)). rewrite RuneStart_at in Hs2.
      destruct (_ && _) eqn:?; zbool; [zlia|done].
    - specialize (Hs3 ltac:(lia)). specialize (Hcont s ltac:(lia)).
      rewrite RuneStart_at in Hs3.
      destruct (_ && _) eqn:?; zbool; [done|zlia]. }
  rewrite Hseq. destruct (len p - sz <? 0) eqn:?; zbool; [zlia|].
  rewrite slice_to_all by (rewrite len_drop; zlia). rewrite Hd.
  destruct (negb _) eqn:?; zbool; [zlia|done].
Qed.

Lemma DecodeLastRune_cases p r sz :
  p <> [] -> DecodeLastRune p = (r, sz) ->
  let last := at_ p (len p - 1) in
  (last < 0x80 /\ r = last /\ sz = 1)
  \/ (0x80 <= last /\ r = RuneError /\ sz = 1)
  \/ (0x80 <= last /\ 2 <= sz <= len p
      /\ DecodeRune (slice_from p (len p - sz)) = (r, sz)).
Proof.
  intros Hp Hd last. pose proof (len_pos p Hp).
  destruct (Z.lt_ge_cases last 0x80) as [Hlt|Hge].
  { left. rewrite DecodeLastRune_ascii in Hd by done. by injection Hd as <- <-. }
  right. revert Hd. unfold DecodeLastRune. cbv zeta.
  destruct (len p =? 0) eqn:?; zbool; [zlia|].
  fold last. unfold RuneSelf. destruct (_ <? 128) eqn:?; zbool; [zlia|].
  set (lim := if len p - UTFMax <? 0 then 0 else len p - UTFMax).
  assert (Hlim : 0 <= lim /\ len p - 4 <= lim /\ lim <= len p - 1).
  { unfold lim, UTFMax in *. destruct (_ <? 0) eqn:?; zbool; zlia. }
  pose proof (lastRuneStart_spec (S (length p)) p (len p - 1 - 1) lim) as Hloop.
  cbv zeta in Hloop. set (s0 := lastRuneStart _ _ _ _) in *.
  destruct Hloop as (Hs1 & _ & _); [unfold len; zlia|zlia|].
  set (s := if s0 <? 0 then 0 else s0).
  assert (Hs : 0 <= s <= len p - 1).
  { unfold s. destruct (s0 <? 0) eqn:?; zbool; zlia. }
  rewrite slice_to_all by (rewrite len_drop; zlia).
  assert (Hne : slice_from p s <> []).
  { intros E. apply (f_equal len) in E. rewrite len_drop in E by zlia.
    change (len []) with 0 in E. zlia. }
  pose proof (DecodeRune_size _ Hne) as [Hsz1 Hsz2].
  destruct (DecodeRune (slice_from p s)) as [r' size] eqn:Hdec. cbn [snd] in *.
  destruct (negb _) eqn:?; zbool; intros [= <- <-]; [by left|].
  destruct (decide (size = 1)) as [->|Hne1].
  - left. split; [done|]. split; [|done].
    destruct (DecodeRune_cases _ Hne) as [[Hb _]|[[_ E]|H1]].
    + rewrite at_drop, Z.add_0_r in Hb by zlia.
      replace s with (len p - 1) in Hb by zlia. fold last in Hb. zlia.
    + rewrite Hdec in E. by injection E.
    + rewrite Hdec in H1. cbn [snd] in H1. zlia.
  - right. split; [done|]. split; [zlia|].
    by replace (len p - size) with s by zlia.
Qed.

Lemma slice_from_0 p : slice_from p 0 = p.
Proof. reflexivity. Qed.

Lemma slice_from_all p k : len p <= k -> slice_from p k = [].
Proof. intros Hk. unfold slice_from, len in *. apply drop_ge. lia. Qed.

Lemma slice_from_from p j k :
  0 <= j -> 0 <= k -> slice_from (slice_from p j) k = slice_from p (j + k).
Proof.
  intros Hj Hk. unfold slice_from. rewrite drop_drop. f_equal. lia.
Qed.

Lemma slice_split p k : 0 <= k -> slice_to p k ++ slice_from p k = p.
Proof. intros Hk. unfold slice_to, slice_from. apply take_drop. Qed.

Lemma slice_to_app p q k :
  len p <= k -> slice_to (p ++ q) k = p ++ slice_to q (k - len p).
Proof.
  intros Hk. unfold slice_to, len in *. rewrite take_app.
  rewrite take_ge by lia. f_equal. f_equal. lia.
Qed.

Lemma slice_from_app p q : slice_from (p ++ q) (len p) = q.
Proof. unfold slice_from, len. rewrite Nat2Z.id. apply drop_app_length. Qed.

Lemma slice_from_app' p q k : len p = k -> slice_from (p ++ q) k = q.
Proof. intros <-. apply slice_from_app. Qed.

Lemma DecodeLastRune_size p :
  p <> [] -> 1 <= snd (DecodeLastRune p) <= len p.
Proof.
  intros Hp. pose proof (len_pos p Hp).
  destruct (DecodeLastRune p) as [r sz] eqn:E.
  destruct (DecodeLastRune_cases p r sz Hp E) as [H1|[H1|H1]]; simpl; lia.
Qed.

(** A slice that is one rune has this rune as its last. *)
Lemma DecodeLastRune_whole p :
  p <> [] -> snd (DecodeRune p) = len p -> DecodeLastRune p = DecodeRune p.
Proof.
  intros Hp Hsz. pose proof (len_pos p Hp).
  destruct (DecodeRune p) as [r0 sz0] eqn:E0. cbn [snd] in Hsz. subst sz0.
  destruct (decide (len p = 1)) as [H1|H1].
  - destruct (DecodeLastRune p) as [r sz] eqn:E.
    destruct (DecodeRune_cases p Hp) as [[Hb E1]|[[Hb E1]|H2]];
      destruct (DecodeLastRune_cases p r sz Hp E) as [H3|[H3|H3]];
      rewrite ?E0 in *; rewrite ?H1 in *; cbn [snd] in *;
      change (1 - 1) with 0 in *; try zlia.
    all: destruct H3 as (? & -> & ->); injection E1 as <-; try done; zlia.
  - apply DecodeLastRune_multi; [lia|].
    by rewrite Z.sub_diag, slice_from_0.
Qed.

(** The last rune of a slice that holds more than its first rune is the last
    rune of what follows the first rune. *)
Lemma DecodeLastRune_tail p :
  p <> [] -> snd (DecodeRune p) < len p ->
  DecodeLastRune p = DecodeLastRune (slice_from p (snd (DecodeRune p))).
Proof.
  intros Hp Hlt. pose proof (DecodeRune_size p Hp) as [Hsz0 _].
  destruct (DecodeRune p) as [r0 sz0] eqn:E0. cbn [snd] in *.
  set (t := slice_from p sz0).
  assert (Hlen : len t = len p - sz0) by (unfold t; rewrite len_drop; lia).
  assert (Ht : t <> []).
  { intros E. rewrite E in Hlen. change (len []) with 0 in Hlen. lia. }
  assert (Hlast : at_ t (len t - 1) = at_ p (len p - 1)).
  { rewrite Hlen. unfold t. rewrite at_drop by lia. f_equal. lia. }
  assert (Hsuf : forall k, 0 <= k <= len t ->
            slice_from t (len t - k) = slice_from p (len p - k)).
  { intros k Hk. rewrite Hlen. unfold t. rewrite slice_from_from by lia. f_equal. lia. }
  destruct (DecodeLastRune t) as [r sz] eqn:Et.
  destruct (DecodeLastRune_cases t r sz Ht Et) as [H1|[H1|H1]]; cbv zeta in H1.
  - destruct H1 as (Hb & -> & ->). rewrite Hlast in *.
    by apply DecodeLastRune_ascii.
  - destruct H1 as (Hb & -> & ->). rewrite Hlast in Hb.
    destruct (DecodeLastRune p) as [r' sz'] eqn:Ep.
    destruct (DecodeLastRune_cases p r' sz' Hp Ep) as [H2|[H2|H2]]; cbv zeta in H2.
    + zlia.
    + by destruct H2 as (_ & -> & ->).
    + destruct H2 as (_ & Hsz' & Hd). exfalso.
      destruct (Z.le_gt_cases sz' (len t)) as [Hle|Hgt].
      * rewrite <- Hsuf in Hd by lia.
        rewrite (DecodeLastRune_multi t r' sz') in Et by (done || lia).
        injection Et as _ ?. lia.
      * pose proof (DecodeRune_multi _ _ _ Hd ltac:(lia)) as (_ & _ & Hstart & _).
        rewrite at_drop, Z.add_0_r in Hstart by lia.
        destruct (decide (len p - sz' = 0)) as [E|Hne].
        -- rewrite E, slice_from_0, E0 in Hd. injection Hd as _ ?. lia.
        -- pose proof (DecodeRune_multi _ _ _ E0 ltac:(lia)) as (_ & _ & _ & Hcont).
           specialize (Hcont (len p - sz') ltac:(lia)). lia.
  - destruct H1 as (Hb & Hsz & Hd). rewrite Hsuf in Hd by lia.
    apply DecodeLastRune_multi; [lia|done].
Qed.

(** Taking the last rune off a slice takes one off its rune count. *)
Lemma RuneCount_last_aux (n : nat) : forall p,
  (length p <= n)%nat -> p <> [] ->
  RuneCount p = RuneCount (slice_to p (len p - snd (DecodeLastRune p))) + 1.
Proof.
  induction n as [|n IH]; intros p Hn Hp.
  { destruct p; [done|simpl in Hn; lia]. }
  pose proof (DecodeRune_size p Hp) as [Hsz0 Hsz0'].
  rewrite (RuneCount_step p Hp).
  destruct (decide (snd (DecodeRune p) = len p)) as [Heq|Hne].
  - rewrite (DecodeLastRune_whole p Hp Heq), Heq, Z.sub_diag.
    rewrite slice_from_all by lia. change (slice_to p 0) with (@Datatypes.nil ascii).
    rewrite RuneCount_nil. lia.
  - rewrite (DecodeLastRune_tail p Hp ltac:(lia)).
    set (sz0 := snd (DecodeRune p)) in *. set (t := slice_from p sz0).
    assert (Hlen : len t = len p - sz0) by (unfold t; rewrite len_drop; lia).
    assert (Ht : t <> []).
    { intros E. rewrite E in Hlen. change (len []) with 0 in Hlen. lia. }
    pose proof (DecodeLastRune_size t Ht) as Hsz.
    set (sz := snd (DecodeLastRune t)) in *.
    rewrite (IH t); [|unfold t, slice_from, len in *; rewrite length_drop; lia|done].
    fold sz.
    assert (Hp' : p = slice_to p sz0 ++ t) by (symmetry; apply slice_split; lia).
    assert (Hh : len (slice_to p sz0) = sz0) by (apply len_take; lia).
    set (h := slice_to p sz0) in *.
    assert (Hcut : slice_to p (len p - sz) = h ++ slice_to t (len t - sz)).
    { rewrite Hp' at 1. rewrite slice_to_app by lia. do 2 f_equal. lia. }
    rewrite Hcut.
    assert (Hh0 : h <> []).
    { intros E. rewrite E in Hh. change (len []) with 0 in Hh. lia. }
    assert (Hx : h ++ slice_to t (len t - sz) <> []) by (by destruct h).
    rewrite (RuneCount_step _ Hx).
    assert (Hdec : DecodeRune (h ++ slice_to t (len t - sz)) = DecodeRune p).
    { assert (Hp2 : (h ++ slice_to t (len t - sz)) ++ slice_from t (len t - sz) = p).
      { rewrite <- app_assoc, slice_split by lia. by symmetry. }
      rewrite <- Hp2 at 1. apply DecodeRune_prefix; [done|]. rewrite Hp2.
      fold sz0. rewrite len_app.
      pose proof (len_nonneg (slice_to t (len t - sz))). lia. }
    rewrite Hdec. fold sz0. rewrite slice_from_app' by done. lia.
Qed.

Lemma RuneCount_last p :
  p <> [] ->
  RuneCount p = RuneCount (slice_to p (len p - snd (DecodeLastRune p))) + 1.
Proof. intros Hp. by apply (RuneCount_last_aux (length p)). Qed.

End utf8_facts.

(** *** The two scans of [Diff] *)

Section Diff_facts.
Import utf8.

Lemma Diff_prefix_count fuel : forall b1 b2 start b1' b2' start',
  Diff_prefix fuel b1 b2 start = (b1', b2', start') ->
  start <= start'
  /\ RuneCount b1 = (start' - start) + RuneCount b1'
  /\ RuneCount b2 = (start' - start) + RuneCount b2'.
Proof.
  induction fuel as [|fuel IH]; intros b1 b2 start b1' b2' start' E;
    cbn [Diff_prefix] in E.
  { injection E as <- <- <-. lia. }
  destruct (_ && _) eqn:Hc; [|injection E as <- <- <-; lia]. zbool.
  assert (Hb1 : b1 <> []) by (intros ->; by cbn in *).
  assert (Hb2 : b2 <> []) by (intros ->; by cbn in *).
  destruct (DecodeRune b1) as [ch1 width1] eqn:E1,
           (DecodeRune b2) as [ch2 width2] eqn:E2.
  destruct (negb _); [injection E as <- <- <-; lia|].
  apply IH in E as (H1 & H2 & H3).
  rewrite (RuneCount_step b1 Hb1), (RuneCount_step b2 Hb2), E1, E2. cbn [snd]. lia.
Qed.

Lemma Diff_suffix_count fuel : forall b1 b2 end_ b1' b2' end',
  Diff_suffix fuel b1 b2 end_ = (b1', b2', end') ->
  end_ <= end'
  /\ RuneCount b1 = RuneCount b1' + (end' - end_)
  /\ RuneCount b2 = RuneCount b2' + (end' - end_).
Proof.
  induction fuel as [|fuel IH]; intros b1 b2 end_ b1' b2' end' E;
    cbn [Diff_suffix] in E.
  { injection E as <- <- <-. lia. }
  destruct (_ && _) eqn:Hc; [|injection E as <- <- <-; lia]. zbool.
  assert (Hb1 : b1 <> []) by (intros ->; by cbn in *).
  assert (Hb2 : b2 <> []) by (intros ->; by cbn in *).
  destruct (DecodeLastRune b1) as [ch1 width1] eqn:E1,
           (DecodeLastRune b2) as [ch2 width2] eqn:E2.
  destruct (negb _); [injection E as <- <- <-; lia|].
  apply IH in E as (H1 & H2 & H3).
  rewrite (RuneCount_last b1 Hb1), (RuneCount_last b2 Hb2), E1, E2. cbn [snd]. lia.
Qed.

(** On one and the same slice the first loop runs to the end. *)
Lemma Diff_prefix_same fuel : forall b start,
  (length b < fuel)%nat ->
  Diff_prefix fuel b b start = ([], [], start + RuneCount b).
Proof.
  induction fuel as [|fuel IH]; intros b start Hf; [lia|].
  cbn [Diff_prefix]. destruct b as [|c b].
  { cbn. by rewrite Z.add_0_r. }
  assert (Hb : c :: b <> []) by done.
  assert (Hl : (0 <? len (c :: b)) = true) by (apply Z.ltb_lt; unfold len; simpl; lia).
  rewrite Hl. cbn [andb].
  pose proof (DecodeRune_size _ Hb) as [Hs1 Hs2].
  rewrite (RuneCount_step _ Hb).
  destruct (DecodeRune (c :: b)) as [ch width] eqn:E. cbn [snd] in *.
  rewrite Z.eqb_refl. cbn [negb].
  rewrite IH; [f_equal; lia|].
  unfold slice_from. rewrite length_drop. simpl in *. lia.
Qed.

(** The counts of [Diff] are those of the scan, whatever [n] is. *)
Lemma Diff_counts s1 s2 n :
  snd (fst (Diff s1 s2 n)) = snd (fst (Diff_regions s1 s2))
  /\ snd (Diff s1 s2 n) = snd (Diff_regions s1 s2).
Proof.
  unfold Diff, Diff_regions.
  destruct (Diff_prefix _ _ _ _) as [[b1 b2] start].
  destruct (_ =? 0); [done|].
  by destruct (Diff_suffix _ _ _ _) as [[b1' b2'] end_].
Qed.

Lemma Diff_regions_count s1 s2 :
  let '(b1, b2, start, end_) := Diff_regions s1 s2 in
  start + RuneCount b1 + end_ = RuneCountInString s1
  /\ start + RuneCount b2 + end_ = RuneCountInString s2.
Proof.
  unfold Diff_regions, RuneCountInString.
  destruct (Diff_prefix _ _ _ _) as [[b1 b2] start] eqn:E1.
  apply Diff_prefix_count in E1 as (H0 & H1 & H2).
  destruct (_ =? 0) eqn:E0; zbool.
  - pose proof (len_nonneg b1). pose proof (len_nonneg b2).
    assert (b1 = []) as -> by (apply len_0; lia).
    assert (b2 = []) as -> by (apply len_0; lia).
    rewrite RuneCount_nil in *. lia.
  - destruct (Diff_suffix _ _ _ _) as [[b1' b2'] end_] eqn:E2.
    apply Diff_suffix_count in E2 as (H3 & H4 & H5). lia.
Qed.

Lemma Diff_same s n : Diff s s n = (EmptyString, EmptyString, RuneCountInString s, 0).
Proof.
  unfold Diff. rewrite Diff_prefix_same by lia. by cbn.
Qed.

End Diff_facts.

(** *** Excerpts of ASCII strings *)

Section ascii_facts.
Import utf8.

Lemma at_0_cons c p : at_ (c :: p) 0 = byte_val c.
Proof. reflexivity. Qed.

Lemma DecodeRune_ascii c p :
  byte_val c < RuneSelf -> DecodeRune (c :: p) = (byte_val c, 1).
Proof.
  intros Hc. unfold RuneSelf in Hc.
  destruct (DecodeRune_cases (c :: p) ltac:(done)) as [[_ E]|[[Hb _]|H1]];
    rewrite ?at_0_cons in *; [done|lia|lia].
Qed.

Lemma to_byte_val c : to_byte (byte_val c) = c.
Proof. destruct c as [[] [] [] [] [] [] [] []]; reflexivity. Qed.

Lemma EncodeRune_ascii c : byte_val c < RuneSelf -> EncodeRune (byte_val c) = [c].
Proof.
  intros Hc. unfold EncodeRune, RuneSelf, rune1Max in *.
  pose proof (byte_val_range c).
  destruct (_ && _) eqn:E; zbool; [by rewrite to_byte_val|]. destruct E; zbool; lia.
Qed.

Lemma string_of_runes_ascii p :
  ascii_only p -> string_of_runes (map byte_val p) = string_of_list_ascii p.
Proof.
  intros Hp. unfold string_of_runes. f_equal.
  induction Hp as [|c p Hc _ IH]; [done|]. cbn [map concat].
  by rewrite EncodeRune_ascii, IH.
Qed.

Lemma ascii_only_take p k : ascii_only p -> ascii_only (take k p).
Proof. apply Forall_take. Qed.

Lemma ascii_only_drop p k : ascii_only p -> ascii_only (drop k p).
Proof. apply Forall_drop. Qed.

Lemma decodeFrom_ascii p : ascii_only p -> forall fuel i n acc,
  (length p <= fuel)%nat ->
  prefixRunes_loop (decodeFrom fuel i p) n acc
  = acc ++ map byte_val (take (Z.to_nat (n - i)) p).
Proof.
  induction 1 as [|c p Hc Hp IH]; intros fuel i n acc Hf.
  { destruct fuel; cbn; by rewrite take_nil, app_nil_r. }
  destruct fuel as [|fuel]; [simpl in Hf; lia|]. cbn [decodeFrom].
  rewrite (DecodeRune_ascii c p Hc). cbn [prefixRunes_loop].
  destruct (n <=? i) eqn:E; zbool.
  - replace (Z.to_nat (n - i)) with 0%nat by lia. by rewrite take_0, app_nil_r.
  - change (slice_from (c :: p) 1) with p. rewrite IH by (simpl in Hf; lia).
    replace (Z.to_nat (n - i)) with (S (Z.to_nat (n - (i + 1)))) by lia.
    cbn [take map]. by rewrite <- app_assoc.
Qed.

Lemma prefixRunes_ascii s n :
  ascii_only (list_ascii_of_string s) ->
  prefixRunes s n = string_of_list_ascii (take (Z.to_nat n) (list_ascii_of_string s)).
Proof.
  intros Hs. unfold prefixRunes, range.
  rewrite (decodeFrom_ascii _ Hs) by done. rewrite Z.sub_0_r. cbn [app].
  by rewrite string_of_runes_ascii by (by apply ascii_only_take).
Qed.

Lemma RuneCount_ascii_app p q : ascii_only p -> RuneCount (p ++ q) = len p + RuneCount q.
Proof.
  induction 1 as [|c p Hc Hp IH]; [cbn [app]; change (len []) with 0; lia|].
  rewrite <- app_comm_cons, RuneCount_step by done.
  rewrite (DecodeRune_ascii c _ Hc). cbn [snd].
  change (slice_from (c :: p ++ q) 1) with (p ++ q). rewrite IH.
  unfold len. cbn [length]. lia.
Qed.

Lemma RuneCount_ascii p : ascii_only p -> RuneCount p = len p.
Proof.
  intros Hp. rewrite <- (app_nil_r p) at 1. rewrite RuneCount_ascii_app by done.
  rewrite RuneCount_nil. lia.
Qed.

Lemma rune_pieces_ascii p : ascii_only p -> forall fuel,
  (length p <= fuel)%nat -> rune_pieces fuel p = map (fun c => [c]) p.
Proof.
  induction 1 as [|c p Hc Hp IH]; intros fuel Hf; [by destruct fuel|].
  destruct fuel as [|fuel]; [simpl in Hf; lia|]. cbn [rune_pieces map].
  rewrite (DecodeRune_ascii c p Hc). cbn [snd].
  change (slice_to (c :: p) 1) with [c]. change (slice_from (c :: p) 1) with p.
  rewrite IH by (simpl in Hf; lia). done.
Qed.

Lemma concat_singletons (p : list ascii) : concat (map (fun c => [c]) p) = p.
Proof. induction p as [|c p IH]; [done|]. cbn. by rewrite IH. Qed.

Lemma len_snoc p c : len (p ++ [c]) = len p + 1.
Proof. unfold len. rewrite length_app. simpl. lia. Qed.

Lemma at_snoc p c : at_ (p ++ [c]) (len p) = byte_val c.
Proof.
  unfold at_, len. rewrite Nat2Z.id, lookup_app_r, Nat.sub_diag by lia. done.
Qed.

Lemma suffixRunes_loop_ascii fuel : forall b count n acc,
  ascii_only b -> (length b < fuel)%nat ->
  suffixRunes_loop fuel b count n acc
  = acc ++ map byte_val (rev (drop (length b - Z.to_nat (n - count)) b)).
Proof.
  induction fuel as [|fuel IH]; intros b count n acc Hb Hf; [lia|].
  cbn [suffixRunes_loop]. destruct (_ && _) eqn:E; zbool.
  - assert (Hne : b <> []) by (intros ->; by cbn in *).
    destruct (exists_last Hne) as (b' & c & ->).
    apply Forall_app in Hb as [Hb' Hc]. apply Forall_inv in Hc.
    rewrite DecodeLastRune_ascii; [|done|]; rewrite len_snoc, Z.add_simpl_r, at_snoc;
      [|exact Hc].
    assert (Hcut : slice_to (b' ++ [c]) (len b') = b').
    { unfold slice_to, len. rewrite Nat2Z.id. apply take_app_length. }
    rewrite Hcut, IH; [|done|rewrite length_app in Hf; simpl in Hf; lia].
    rewrite <- app_assoc. f_equal. rewrite length_app. cbn [length].
    rewrite drop_app_le by lia. rewrite rev_app_distr. cbn [rev app map].
    do 4 f_equal. lia.
  - rewrite drop_ge, app_nil_r; [done|].
    destruct E as [E|E]; zbool; [lia|].
    pose proof (len_nonneg b). assert (b = []) as -> by (apply len_0; lia). simpl. lia.
Qed.

Lemma suffixRunes_ascii s n :
  ascii_only (list_ascii_of_string s) ->
  suffixRunes s n
  = string_of_list_ascii
      (drop (length (list_ascii_of_string s) - Z.to_nat n) (list_ascii_of_string s)).
Proof.
  intros Hs. unfold suffixRunes. rewrite suffixRunes_loop_ascii by (done || lia).
  rewrite Z.sub_0_r. cbn [app]. rewrite <- map_rev, rev_involutive.
  by rewrite string_of_runes_ascii by (by apply ascii_only_drop).
Qed.

Lemma first_runes_ascii k s :
  ascii_only (list_ascii_of_string s) ->
  first_runes k s = string_of_list_ascii (take (Z.to_nat k) (list_ascii_of_string s)).
Proof.
  intros Hs. unfold first_runes, runes_of. rewrite rune_pieces_ascii by done.
  by rewrite firstn_map, concat_singletons.
Qed.

Lemma last_runes_ascii k s :
  ascii_only (list_ascii_of_string s) ->
  last_runes k s
  = string_of_list_ascii
      (drop (length (list_ascii_of_string s) - Z.to_nat k) (list_ascii_of_string s)).
Proof.
  intros Hs. unfold last_runes, runes_of. rewrite rune_pieces_ascii by done.
  by rewrite length_map, skipn_map, concat_singletons.
Qed.

Lemma rem2_odd_Z w : 0 <= w -> (Z.rem w 2 =? 0) = negb (Z.odd w).
Proof.
  intros Hw. rewrite Z.rem_mod_nonneg by lia. rewrite Zmod_odd.
  by destruct (Z.odd w).
Qed.

(** On a string of ASCII bytes longer than the width, [Excerpt] is what the
    specification describes. *)
Lemma Excerpt_ascii_spec s w :
  ascii_only (list_ascii_of_string s) -> 0 <= w < RuneCountInString s ->
  Excerpt s w = Excerpt_spec s w.
Proof.
  intros Hs Hw. unfold Excerpt, Excerpt_spec.
  destruct (_ <=? w) eqn:E; zbool; [lia|].
  assert ((w <=? RuneCountInString s) = true) as -> by (apply Z.leb_le; lia).
  cbn [andb]. rewrite rem2_odd_Z by lia.
  rewrite prefixRunes_ascii, suffixRunes_ascii, first_runes_ascii, last_runes_ascii by done.
  by destruct (Z.odd w).
Qed.

(** A rune of more than one byte is decoded alike when bytes follow it. *)
Lemma DecodeRune_extend p q :
  2 <= snd (DecodeRune p) -> DecodeRune (p ++ q) = DecodeRune p.
Proof.
  intros Hsz. assert (Hp : p <> [])
    by (intros ->; change (snd (DecodeRune [])) with 0 in Hsz; lia).
  assert (Hpq : p ++ q <> []) by (by destruct p).
  pose proof (len_pos p Hp) as Hl.
  symmetry. apply DecodeRune_prefix; [done|].
  destruct (DecodeRune_cases p Hp) as [[_ E]|[[_ E]|H1]];
    [rewrite E in Hsz; cbn in Hsz; lia..|].
  destruct (DecodeRune_cases (p ++ q) Hpq) as [[_ E]|[[_ E]|H2]];
    [rewrite E; cbn; lia..|].
  rewrite at_app_l in H2 by lia.
  destruct H1 as (_ & _ & Hle & _), H2 as (_ & _ & _ & _ & _ & _ & _ & ->). lia.
Qed.

Lemma list_ascii_of_string_app s1 s2 :
  list_ascii_of_string (s1 ++ s2)%string
  = list_ascii_of_string s1 ++ list_ascii_of_string s2.
Proof.
  induction s1 as [|c s1 IH]; [done|].
  change ((String c s1 ++ s2)%string) with (String c (s1 ++ s2)%string).
  cbn [list_ascii_of_string]. by rewrite IH.
Qed.

Lemma RuneCount_ellipsis q :
  RuneCount (list_ascii_of_string EllipsisRune ++ q) = 1 + RuneCount q.
Proof.
  assert (Hne : list_ascii_of_string EllipsisRune ++ q <> []) by done.
  rewrite (RuneCount_step _ Hne), DecodeRune_extend by (vm_compute; discriminate).
  change (snd (DecodeRune (list_ascii_of_string EllipsisRune))) with 3.
  by rewrite slice_from_app' by reflexivity.
Qed.

(** On a string of ASCII bytes an excerpt of width at least 1 has
    [min(w, runeCount(s))] runes. *)
Lemma Excerpt_ascii_rune_count s w :
  ascii_only (list_ascii_of_string s) -> 1 <= w ->
  RuneCountInString (Excerpt s w) = Z.min w (RuneCountInString s).
Proof.
  intros Hs Hw. unfold Excerpt.
  destruct (_ <=? w) eqn:E; zbool; [lia|].
  assert ((w <=? RuneCountInString s) = true) as -> by (apply Z.leb_le; lia).
  cbn [andb]. rewrite rem2_odd_Z by lia.
  rewrite prefixRunes_ascii, suffixRunes_ascii by done.
  unfold RuneCountInString in *. rewrite (RuneCount_ascii _ Hs) in E.
  set (p := list_ascii_of_string s) in *.
  rewrite !list_ascii_of_string_app, !list_ascii_of_string_of_list_ascii.
  rewrite RuneCount_ascii_app by (by apply ascii_only_take).
  rewrite RuneCount_ellipsis, RuneCount_ascii by (by apply ascii_only_drop).
  rewrite (RuneCount_ascii _ Hs).
  unfold len in *. rewrite length_take, length_drop.
  rewrite Z.quot_div_nonneg by lia.
  pose proof (Zmod_odd w) as Hodd.
  pose proof (Z_div_mod_eq_full w 2) as Hdiv.
  set (q := w / 2) in *. clearbody q.
  destruct (Z.odd w); cbn [negb]; lia.
Qed.

End ascii_facts.

(** *** Excerpts (C2, C5) *)

(** C2. The rune count of an excerpt is not always
    [min(w, runeCount(s))]: [prefixRunes] compares the byte index that
    [range] yields with the number of runes wanted, so on five two-byte runes
    and a width of 4 it keeps one rune, not two, and the excerpt has three
    runes; and at width 0 the excerpt of a non-empty string is the ellipsis,
    one rune. *)
Theorem Excerpt_rune_count_off :
  utf8.RuneCountInString (Excerpt "ééééé" 4) = 3
  /\ Z.min 4 (utf8.RuneCountInString "ééééé") = 4
  /\ utf8.RuneCountInString (Excerpt "A" 0) = 1
  /\ Z.min 0 (utf8.RuneCountInString "A") = 0.
Proof. repeat split; reflexivity. Qed.

(** C5. On the two examples of the specification [Excerpt] is the first
    [w/2] runes, the ellipsis and the last runes; on five two-byte runes and a
    width of 4 it is ["é…é"], where the description gives ["éé…é"]: the
    prefix holds the runes that start below byte index [w/2]. *)
Theorem Excerpt_prefix_counts_bytes :
  Excerpt "ABCDEFGHIJ" 7 = "ABC…HIJ"%string
  /\ Excerpt "ABCDEFGHIJ" 3 = "A…J"%string
  /\ Excerpt_spec "ABCDEFGHIJ" 7 = "ABC…HIJ"%string
  /\ Excerpt_spec "ABCDEFGHIJ" 3 = "A…J"%string
  /\ utf8.RuneCountInString "ééééé" = 5
  /\ Excerpt "ééééé" 4 = "é…é"%string
  /\ Excerpt_spec "ééééé" 4 = "éé…é"%string
  /\ prefixRunes "ééééé" 2 = "é"%string.
Proof. repeat split; reflexivity. Qed.

(** *** Diff (C6, C7) *)

(** C6. [Diff] returns each differing region through [Excerpt] exactly
    when the region has more than [n] bytes, and as it is otherwise; the
    regions of identical inputs are empty and, for [n >= 0], returned empty. *)
Theorem Diff_excerpts_by_byte_length (s1 s2 : string) (n : Z)
    (b1 b2 : list ascii) (start end_ : Z) :
  Diff_regions s1 s2 = (b1, b2, start, end_) ->
  0 <= n \/ utf8.len b1 + utf8.len b2 <> 0 ->
  Diff s1 s2 n = (excerpt_if_longer b1 n, excerpt_if_longer b2 n, start, end_).
Proof.
  unfold Diff_regions, Diff, excerpt_if_longer.
  destruct (Diff_prefix _ _ _ _) as [[p1 p2] st].
  destruct (_ =? 0) eqn:E0.
  - intros [= <- <- <- <-] [Hn|Hne]; [|by cbn in Hne].
    change (utf8.len []) with 0.
    destruct (n <? 0) eqn:?; zbool; [lia|done].
  - destruct (Diff_suffix _ _ _ _) as [[q1 q2] en].
    by intros [= <- <- <- <-] _.
Qed.

Lemma Diff_excerpts_by_byte_length_witness :
  let b1 := list_ascii_of_string "ABCDEFGHI" in
  let b2 := list_ascii_of_string "XYZ" in
  Diff_regions "--ABCDEFGHI--" "--XYZ--" = (b1, b2, 2, 2)
  /\ (0 <= 5 \/ utf8.len b1 + utf8.len b2 <> 0)
  /\ Diff "--ABCDEFGHI--" "--XYZ--" 5
     = (excerpt_if_longer b1 5, excerpt_if_longer b2 5, 2, 2).
Proof.
  intros b1 b2.
  assert (H1 : Diff_regions "--ABCDEFGHI--" "--XYZ--" = (b1, b2, 2, 2)) by reflexivity.
  assert (H2 : 0 <= 5 \/ utf8.len b1 + utf8.len b2 <> 0) by (left; lia).
  split; [exact H1|]. split; [exact H2|].
  exact (Diff_excerpts_by_byte_length _ _ 5 b1 b2 2 2 H1 H2).
Defined.

(** The threshold counts bytes and [Excerpt] counts runes: a region of one
    two-byte rune is sent through [Excerpt] at [n = 1], and comes back whole. *)
Example Diff_threshold_in_bytes :
  Diff "é" "x" 1 = ("é"%string, "x"%string, 0, 0)
  /\ (1 <? utf8.len (list_ascii_of_string "é")) = true
  /\ excerpt_if_longer (list_ascii_of_string "é") 1 = Excerpt "é" 1.
Proof. repeat split; reflexivity. Qed.

(** C7. The counts that [Diff] returns and the differing regions it found
    before excerpting add up, for each input, to the rune count of the input;
    and on identical inputs [Diff] returns two empty strings, the rune count
    of the input as the prefix count, and 0 as the suffix count. *)
Theorem Diff_rune_counts :
  (forall (s1 s2 : string) (n : Z),
      let '(_, _, start, end_) := Diff s1 s2 n in
      let '(b1, b2, _, _) := Diff_regions s1 s2 in
      start + utf8.RuneCount b1 + end_ = utf8.RuneCountInString s1
      /\ start + utf8.RuneCount b2 + end_ = utf8.RuneCountInString s2)
  /\ (forall (s : string) (n : Z),
        Diff s s n = (EmptyString, EmptyString, utf8.RuneCountInString s, 0)).
Proof.
  split; [|apply Diff_same].
  intros s1 s2 n. pose proof (Diff_counts s1 s2 n) as [H1 H2].
  pose proof (Diff_regions_count s1 s2) as H3.
  destruct (Diff s1 s2 n) as [[[x1 x2] start] end_].
  destruct (Diff_regions s1 s2) as [[[b1 b2] start'] end']. cbn in H1, H2.
  by subst.
Qed.

(** ** Properties of the structured errors *)

Section serr_facts.
Import serr.

(** Evaluation of the monadic primitives. *)
Lemma bind_Ok {S A B} (m : M S A) (k : A -> M S B) h a h' :
  m h = Ok (a, h') -> bind m k h = k a h'.
Proof. intros E. unfold bind. by rewrite E. Qed.

Lemma load_Ok (h : heap) se v :
  h !! se = Some (sErrorObj v) -> load se h = Ok (v, h).
Proof. intros E. unfold load. by rewrite E. Qed.

Lemma error_Error_errorString f (h : heap) e m :
  h !! e = Some (errorString m) -> error_Error f (Some e) h = Ok (m, h).
Proof. intros E. unfold error_Error. by rewrite E. Qed.

Lemma recursing_loop_spec se (l : list addr) n :
  (n <= length l)%nat ->
  recursing_loop se l n = true <-> se ∈ take n l.
Proof.
  induction n as [|n IH]; intros Hn; simpl.
  - rewrite take_0. split; [done | by intros ?%elem_of_nil].
  - destruct (l !! n) as [x|] eqn:E.
    2:{ apply lookup_ge_None in E. exfalso. lia. }
    rewrite (take_S_r _ _ _ E), elem_of_app, list_elem_of_singleton.
    destruct (Nat.eqb_spec se x) as [->|Hne].
    + split; auto.
    + rewrite IH by lia. split; [auto | intros [?|?]; done].
Qed.

Lemma recursing_spec se (l : list addr) :
  recursing_loop se l (length l) = true <-> se ∈ l.
Proof. rewrite recursing_loop_spec by lia. by rewrite firstn_all. Qed.

Lemma filter_length_lt (P Q : nat -> Prop) `{!forall x, Decision (P x)}
      `{!forall x, Decision (Q x)} (l : list nat) x :
  (forall y, Q y -> P y) -> x ∈ l -> P x -> ~ Q x ->
  (length (filter Q l) < length (filter P l))%nat.
Proof.
  intros Himp Hin HP HQ. induction l as [|y l IH]; [by apply elem_of_nil in Hin|].
  assert (Hle : forall l', (length (filter Q l') <= length (filter P l'))%nat).
  { clear -Himp. induction l' as [|z l' IH]; [done|].
    rewrite !filter_cons. destruct (decide (Q z)), (decide (P z)); simpl; try lia.
    exfalso; auto. }
  rewrite !filter_cons. apply elem_of_cons in Hin as [<-|Hin].
  - destruct (decide (Q x)); [done|]. destruct (decide (P x)); [|done].
    simpl. specialize (Hle l). lia.
  - specialize (IH Hin). destruct (decide (Q y)), (decide (P y)); simpl; try lia.
    exfalso; auto.
Qed.

Lemma store_marks (h : heap) se v :
  h !! se = Some (sErrorObj v) -> se ∉ recurs v ->
  (unmarked_count (<[se := sErrorObj (set_recurs v (recurs v ++ [se]))]> h)
   < unmarked_count h)%nat.
Proof.
  intros Hse Hnot. unfold unmarked_count. rewrite length_insert.
  assert (Hlt : (se < length h)%nat) by (by eapply lookup_lt_Some).
  apply (filter_length_lt _ _ _ se).
  - intros y. unfold marked. destruct (decide (y = se)) as [->|Hne].
    + rewrite list_lookup_insert_eq by done. simpl.
      rewrite bool_decide_eq_false. intros []. apply elem_of_app. right.
      by apply list_elem_of_singleton.
    + by rewrite list_lookup_insert_ne.
  - apply elem_of_seq. lia.
  - unfold marked. rewrite Hse. by apply bool_decide_eq_false.
  - unfold marked. rewrite list_lookup_insert_eq by done. simpl.
    rewrite bool_decide_eq_false. intros []. apply elem_of_app. right.
    by apply list_elem_of_singleton.
Qed.

Lemma wf_store_recurs (h : heap) se v r :
  wf h -> h !! se = Some (sErrorObj v) ->
  wf (<[se := sErrorObj (set_recurs v r)]> h).
Proof.
  intros Hwf Hse a w Ha.
  assert (Hkeep : forall e m, h !! e = Some (errorString m) ->
            <[se := sErrorObj (set_recurs v r)]> h !! e = Some (errorString m)).
  { intros e m He. rewrite list_lookup_insert_ne; [done|]. intros ->. congruence. }
  assert (Hsome : forall c, is_Some (h !! c) ->
            is_Some (<[se := sErrorObj (set_recurs v r)]> h !! c)).
  { intros c Hc. apply lookup_lt_is_Some. rewrite length_insert.
    by apply lookup_lt_is_Some. }
  destruct (decide (a = se)) as [->|Hne].
  - rewrite list_lookup_insert_eq in Ha by (by eapply lookup_lt_Some).
    injection Ha as <-. destruct (Hwf _ _ Hse) as [[m (e & He & Hm)] Hc]. split.
    + exists m, e. simpl. eauto.
    + simpl. eauto.
  - rewrite list_lookup_insert_ne in Ha by done.
    destruct (Hwf _ _ Ha) as [[m (e & He & Hm)] Hc]. split.
    + exists m, e. eauto.
    + eauto.
Qed.

Lemma argsString_Ok (h : heap) se v :
  h !! se = Some (sErrorObj v) -> argsString se h = Ok (argsString_loop (args v), h).
Proof. intros Hse. unfold argsString. by rewrite (bind_Ok _ _ _ _ _ (load_Ok _ _ _ Hse)). Qed.

Lemma own_text_Ok f (h : heap) se v m :
  h !! se = Some (sErrorObj v) -> plain_base h v m ->
  (do v0 <- load se;
   do m0 <- error_Error f (error_ v0);
   do a <- argsString se; ret (m0 +:+ a)) h
  = Ok ((m +:+ argsString_loop (args v))%string, h).
Proof.
  intros Hse (e & He & Hm).
  rewrite (bind_Ok _ _ _ _ _ (load_Ok _ _ _ Hse)), He.
  rewrite (bind_Ok _ _ _ _ _ (error_Error_errorString _ _ _ _ Hm)).
  by rewrite (bind_Ok _ _ _ _ _ (argsString_Ok _ _ _ Hse)).
Qed.

Lemma own_text_Ok' f (h : heap) se v m :
  h !! se = Some (sErrorObj v) -> plain_base h v m ->
  (do m0 <- error_Error f (error_ v);
   do a <- argsString se; ret (m0 +:+ a)) h
  = Ok ((m +:+ argsString_loop (args v))%string, h).
Proof.
  intros Hse (e & He & Hm). rewrite He.
  rewrite (bind_Ok _ _ _ _ _ (error_Error_errorString _ _ _ _ Hm)).
  by rewrite (bind_Ok _ _ _ _ _ (argsString_Ok _ _ _ Hse)).
Qed.

(** What follows the call of [selfError] in [Error]: whatever [self] is, the
    last assignment to [s] wins. *)
Lemma Error_tail_Ok f (h : heap) se v m (self : string) :
  h !! se = Some (sErrorObj v) -> plain_base h v m ->
  ((if negb (String.eqb self "") then
      do v <- load se;
      do m <- error_Error f (error_ v);
      do a <- argsString se;
      ret (m +:+ a +:+ "; " +:+ self)
    else ret ""%string);;
   do v0 <- load se;
   do m0 <- error_Error f (error_ v0);
   do a <- argsString se; ret (m0 +:+ a)) h
  = Ok ((m +:+ argsString_loop (args v))%string, h).
Proof.
  intros Hse Hbase. destruct (negb (String.eqb self "")).
  - destruct Hbase as (e & He & Hm).
    erewrite bind_Ok; [by apply own_text_Ok; [|exists e]|].
    rewrite (bind_Ok _ _ _ _ _ (load_Ok _ _ _ Hse)), He.
    rewrite (bind_Ok _ _ _ _ _ (error_Error_errorString _ _ _ _ Hm)).
    by rewrite (bind_Ok _ _ _ _ _ (argsString_Ok _ _ _ Hse)).
  - erewrite bind_Ok; [by apply own_text_Ok|done].
Qed.

(** [selfError] when the guard does not fire: the cause is rendered in the
    store with [se] pushed, and [se] is popped again. *)
Lemma selfError_Ok f (h : heap) se v c s :
  h !! se = Some (sErrorObj v) -> se ∉ recurs v -> err v = Some c ->
  let h1 := <[se := sErrorObj (set_recurs v (recurs v ++ [se]))]> h in
  error_Error f (Some c) h1 = Ok (s, h1) ->
  selfError f se h = Ok (s, h).
Proof.
  intros Hse Hnot Hc h1 Hcall.
  assert (Hlt : (se < length h)%nat) by (by eapply lookup_lt_Some).
  assert (Hse1 : h1 !! se = Some (sErrorObj (set_recurs v (recurs v ++ [se]))))
    by (by apply list_lookup_insert_eq).
  unfold selfError, recursing.
  rewrite (bind_Ok _ _ h false h).
  2:{ rewrite (bind_Ok _ _ _ _ _ (load_Ok _ _ _ Hse)). unfold ret. do 2 f_equal.
      apply not_true_is_false. by rewrite recursing_spec. }
  simpl. rewrite (bind_Ok _ _ _ _ _ (load_Ok _ _ _ Hse)).
  unfold store at 1. unfold bind at 1. fold h1.
  rewrite (bind_Ok _ _ _ _ _ (load_Ok _ _ _ Hse1)). simpl. rewrite Hc.
  rewrite (bind_Ok _ _ _ _ _ Hcall).
  rewrite (bind_Ok _ _ _ _ _ (load_Ok _ _ _ Hse1)).
  unfold store, bind, ret. do 2 f_equal. unfold h1. simpl.
  rewrite list_insert_insert_eq. rewrite length_app. simpl.
  replace (length (recurs v) + 1 - 1)%nat with (length (recurs v)) by lia.
  rewrite take_app_length. apply list_insert_id. rewrite Hse. by destruct v.
Qed.

(** [selfError] when [se] is already being rendered. *)
Lemma selfError_guard f (h : heap) se v :
  h !! se = Some (sErrorObj v) -> se ∈ recurs v ->
  selfError f se h = Ok (""%string, h).
Proof.
  intros Hse Hin. unfold selfError, recursing.
  rewrite (bind_Ok _ _ h true h); [done|].
  rewrite (bind_Ok _ _ _ _ _ (load_Ok _ _ _ Hse)). unfold ret. do 2 f_equal.
  by apply recursing_spec.
Qed.

(** In this revision [Error] returns for every structured error of every
    well-formed store, cyclic or not, leaves the store as it found it, and
    its result is the error's own message and attributes: the text of the
    cause is computed and then overwritten. *)
Lemma Error_total k : forall (h : heap),
  wf h -> (unmarked_count h <= k)%nat ->
  forall se v m, h !! se = Some (sErrorObj v) -> plain_base h v m ->
  forall fuel, (k < fuel)%nat ->
    Error fuel se h = Ok ((m +:+ argsString_loop (args v))%string, h).
Proof.
  induction k as [|k IH]; intros h Hwf Hcount se v m Hse Hbase fuel Hfuel.
  all: destruct fuel as [|fuel]; [lia|]; simpl; unfold Error_body.
  all: rewrite (bind_Ok _ _ _ _ _ (load_Ok _ _ _ Hse)).
  all: destruct (bool_decide (err v = nil)) eqn:Hnil;
         [by apply own_text_Ok'|].
  all: apply bool_decide_eq_false in Hnil.
  all: destruct (err v) as [c|] eqn:Hc; [|done].
  all: destruct (decide (se ∈ recurs v)) as [Hin|Hnot];
         [rewrite (bind_Ok _ _ _ _ _ (selfError_guard _ _ _ _ Hse Hin));
          by apply Error_tail_Ok|].
  all: pose proof (store_marks _ _ _ Hse Hnot) as Hdec.
  - lia.
  - set (h1 := <[se := sErrorObj (set_recurs v (recurs v ++ [se]))]> h) in *.
    assert (Hwf1 : wf h1) by (by apply wf_store_recurs).
    assert (exists s, error_Error (Error fuel) (Some c) h1 = Ok (s, h1)) as [s Hs].
    { destruct (Hwf _ _ Hse) as [_ Hcause]. destruct (Hcause _ Hc) as [o Ho].
      assert (is_Some (h1 !! c)) as [o1 Ho1].
      { apply lookup_lt_is_Some. unfold h1. rewrite length_insert.
        by eapply lookup_lt_Some. }
      unfold error_Error. rewrite Ho1. destruct o1 as [s|w]; [by eexists|].
      destruct (Hwf1 _ _ Ho1) as [[mw Hmw] _]. eexists.
      apply (IH h1 Hwf1 ltac:(lia) c w mw Ho1 Hmw fuel). lia. }
    rewrite (bind_Ok _ _ _ _ _ (selfError_Ok _ _ _ _ _ _ Hse Hnot Hc Hs)).
    by apply Error_tail_Ok.
Qed.

(** *** The builders *)

Lemma CloneWrap_Ok (h : heap) se v :
  h !! se = Some (sErrorObj v) ->
  CloneWrap se h = Ok (length h, h ++ [sErrorObj (clone_wrap_of se v)]).
Proof.
  intros Hse. unfold CloneWrap, Clone.
  unfold bind at 1. unfold bind at 1. rewrite (load_Ok _ _ _ Hse). unfold alloc.
  unfold bind at 1. unfold load at 1.
  rewrite lookup_app_r, Nat.sub_diag by lia. simpl.
  unfold store, bind, ret. do 2 f_equal.
  rewrite insert_app_r_alt, Nat.sub_diag by lia. done.
Qed.

Lemma rem2_even (n : nat) : Nat.Even n -> (Z.rem (Z.of_nat n) 2 =? 0) = true.
Proof.
  intros [k ->]. apply Z.eqb_eq. rewrite Z.rem_mod_nonneg by lia.
  rewrite Nat2Z.inj_mul. change (Z.of_nat 2) with 2. rewrite Z.mul_comm.
  apply Z_mod_mult.
Qed.

Lemma rem2_odd (n : nat) : Nat.Odd n -> (Z.rem (Z.of_nat n) 2 =? 0) = false.
Proof.
  intros [k ->]. apply Z.eqb_neq. rewrite Z.rem_mod_nonneg by lia.
  rewrite Nat2Z.inj_add, Nat2Z.inj_mul. change (Z.of_nat 2) with 2.
  change (Z.of_nat 1) with 1. rewrite Z.add_comm, Z.mul_comm, Z_mod_plus_full.
  done.
Qed.

Lemma Args_Ok fuel (h : heap) se v a :
  h !! se = Some (sErrorObj v) -> Nat.Even (length a) ->
  Args fuel se a h
  = Ok (length h, <[se := sErrorObj (with_args v a)]> h
                   ++ [sErrorObj (clone_wrap_of se (with_args v a))]).
Proof.
  intros Hse Heven. unfold Args, chkArgs. rewrite (rem2_even _ Heven). simpl.
  unfold bind at 1. unfold ret at 1.
  rewrite (bind_Ok _ _ _ _ _ (load_Ok _ _ _ Hse)).
  unfold store at 1. unfold bind at 1.
  assert (Hlt : (se < length h)%nat) by (by eapply lookup_lt_Some).
  rewrite (CloneWrap_Ok _ se (with_args v a)).
  - by rewrite length_insert.
  - by apply list_lookup_insert_eq.
Qed.

Lemma Args_Panic fuel (h : heap) se v m a :
  h !! se = Some (sErrorObj v) -> plain_base h v m -> Nat.Odd (length a) ->
  Args fuel se a h = Panic (panicf_chkArgs m (Z.of_nat (length a))).
Proof.
  intros Hse (e & He & Hm) Hodd. unfold Args, chkArgs. rewrite (rem2_odd _ Hodd).
  simpl. unfold bind at 1.
  rewrite (bind_Ok _ _ _ _ _ (load_Ok _ _ _ Hse)), He.
  by rewrite (bind_Ok _ _ _ _ _ (error_Error_errorString _ _ _ _ Hm)).
Qed.

Lemma Unwrap_Ok (h : heap) se v :
  h !! se = Some (sErrorObj v) -> Unwrap se h = Ok (err v, h).
Proof. intros Hse. unfold Unwrap. by rewrite (bind_Ok _ _ _ _ _ (load_Ok _ _ _ Hse)). Qed.

Lemma Unwrap_eq (h : heap) se v c :
  h !! se = Some (sErrorObj v) -> err v = c -> Unwrap se h = Ok (c, h).
Proof. intros Hse <-. by apply Unwrap_Ok. Qed.

Lemma GetArgs_Ok (h : heap) se v :
  h !! se = Some (sErrorObj v) -> GetArgs se h = Ok (args v, h).
Proof. intros Hse. unfold GetArgs. by rewrite (bind_Ok _ _ _ _ _ (load_Ok _ _ _ Hse)). Qed.

Lemma GetArgs_eq (h : heap) se v a :
  h !! se = Some (sErrorObj v) -> args v = a -> GetArgs se h = Ok (a, h).
Proof. intros Hse <-. by apply GetArgs_Ok. Qed.

Lemma Err_Ok_nil fuel (h : heap) se v c :
  h !! se = Some (sErrorObj v) ->
  Err fuel se c [] h
  = Ok (length h, <[se := sErrorObj (with_err v c)]> h
                   ++ [sErrorObj (clone_wrap_of se (with_err v c))]).
Proof.
  intros Hse. unfold Err.
  rewrite (bind_Ok _ _ _ _ _ (load_Ok _ _ _ Hse)).
  unfold store at 1. unfold bind at 1. simpl. unfold bind at 1. unfold ret at 1.
  assert (Hlt : (se < length h)%nat) by (by eapply lookup_lt_Some).
  rewrite (CloneWrap_Ok _ se (with_err v c)).
  - by rewrite length_insert.
  - by apply list_lookup_insert_eq.
Qed.

Lemma Err_Ok_args fuel (h : heap) se v c a :
  h !! se = Some (sErrorObj v) -> a <> [] -> Nat.Even (length a) ->
  let v1 := with_args (with_err v c) a in
  Err fuel se c a h
  = Ok (S (length h),
        <[se := sErrorObj v1]> h
        ++ [sErrorObj (clone_wrap_of se v1)]
        ++ [sErrorObj (clone_wrap_of (length h) (clone_wrap_of se v1))]).
Proof.
  intros Hse Hne Heven v1. unfold Err.
  rewrite (bind_Ok _ _ _ _ _ (load_Ok _ _ _ Hse)).
  unfold store at 1. unfold bind at 1.
  assert (Hlt : (se < length h)%nat) by (by eapply lookup_lt_Some).
  assert (Hpos : (0 <? Z.of_nat (length a)) = true).
  { apply Z.ltb_lt. destruct a; [done|simpl; lia]. }
  rewrite Hpos.
  erewrite bind_Ok.
  2:{ apply Args_Ok; [by apply list_lookup_insert_eq | done]. }
  rewrite list_insert_insert_eq, length_insert.
  erewrite CloneWrap_Ok.
  2:{ rewrite lookup_app_r; rewrite length_insert; [|lia].
      by rewrite Nat.sub_diag. }
  rewrite length_app, length_insert. simpl.
  replace (length h + 1)%nat with (S (length h)) by lia.
  by rewrite <- app_assoc.
Qed.

End serr_facts.

(** *** Rendering with a cause (C1) *)

(** C1. [Wrap(New("boom"), "context").Error()] is ["context"], not
    ["context; boom"], in the first unit of [serr.go] and in [part_000]: the text
    with the cause is built and then overwritten by the assignment that
    follows the [if].  [New("boom").Error()] is ["boom"]. *)
Theorem Wrap_Error_loses_cause (n : nat) :
  run (do boom <- serr.New "boom";
       do w <- serr.Wrap n (Some boom) "context" [];
       serr.Error (3 + n) w) [] = Ok "context"%string
  /\ run (do boom <- part_000.New "boom";
          do w <- part_000.Wrap n (Some boom) "context" [];
          part_000.Error (2 + n) w) part_000.init = Ok "context"%string
  /\ run (do boom <- serr.New "boom"; serr.Error (1 + n) boom) [] = Ok "boom"%string
  /\ run (do boom <- part_000.New "boom"; part_000.Error (1 + n) boom) part_000.init
     = Ok "boom"%string.
Proof. repeat split; reflexivity. Qed.

(** *** The cycle guard (C4) *)

Section part_000_facts.
Import part_000.

Lemma recursing_loop_In se (l : list nat) n :
  recursing_loop se l n = true -> se ∈ l.
Proof.
  induction n as [|n IH]; simpl; [done|].
  destruct (l !! n) as [x|] eqn:E; [|done].
  destruct (Nat.eqb_spec se x) as [->|]; [|done].
  intros _. by eapply list_elem_of_lookup_2.
Qed.

(** In [part_000] the builders work in place: [Unwrap] on what [se.Err(c)]
    returns, which is [se], is [c]. *)
Lemma part_000_Err_Unwrap (fuel : nat) (st : state) (se : addr) (v : sError) (c : error) :
  objects st !! se = Some (sErrorObj v) ->
  exists st', Err fuel se c [] st = Ok (se, st') /\ Unwrap se st' = Ok (c, st').
Proof.
  intros Hse. assert (Hlt : (se < length (objects st))%nat) by (by eapply lookup_lt_Some).
  eexists. split.
  - unfold Err, bind, load, store, ret. rewrite Hse. simpl. reflexivity.
  - unfold Unwrap, bind, load, ret. simpl.
    by rewrite list_lookup_insert_eq by done.
Qed.

(** C4. In [part_000] a structured error whose cause is a structured error
    that has a cause in turn is never rendered, and every error on a cause
    cycle is such an error, one that wraps itself included: [selfError] holds
    [mutex] for writing across the call of [se.err.Error()], and the
    [recursing] of that nested call waits in [mutex.RLock()] for the goroutine
    that runs it. *)
Theorem cyclic_render_blocks (st : part_000.state) (se c : addr)
    (v w : part_000.sError) (n : nat) :
  part_000.mutex st = part_000.mk_RWMutex false 0 ->
  part_000.objects st !! se = Some (part_000.sErrorObj v) ->
  part_000.err v = Some c ->
  part_000.objects st !! c = Some (part_000.sErrorObj w) ->
  part_000.err w <> nil ->
  se ∉ part_000.recurs v ->
  part_000.Error (2 + n) se st = Blocked.
Proof.
  intros Hm Hse Hc Hcw Hw Hnot. destruct st as [objs mx]. simpl in *. subst mx.
  assert (Hrec : recursing_loop se (recurs v) (length (recurs v)) = false).
  { apply not_true_is_false. intros H. by apply recursing_loop_In in H. }
  assert (Hlt : (se < length objs)%nat) by (by eapply lookup_lt_Some).
  unfold Error_body at 1. unfold bind at 1. unfold load at 1. simpl. rewrite Hse.
  rewrite Hc. rewrite bool_decide_eq_false_2 by done.
  unfold bind at 1. unfold selfError at 1. unfold bind at 1.
  unfold recursing at 1. unfold bind, RLock, load, RUnlock, ret. simpl. rewrite Hse.
  simpl. rewrite Hrec. simpl. unfold Lock, store. simpl. rewrite Hse. simpl.
  rewrite list_lookup_insert_eq by done. simpl. rewrite Hc.
  unfold error_Error. simpl.
  set (objs1 := <[se := _]> objs).
  assert (exists w', objs1 !! c = Some (sErrorObj w') /\ err w' <> nil) as (w' & Hw' & Hne').
  { unfold objs1. destruct (decide (c = se)) as [->|Hne].
    - rewrite list_lookup_insert_eq by done. eexists. split; [done|]. simpl. by rewrite Hc.
    - rewrite list_lookup_insert_ne by done. eauto. }
  rewrite Hw'. unfold Error_body. unfold bind at 1. unfold load at 1. simpl. rewrite Hw'.
  rewrite bool_decide_eq_false_2 by done.
  reflexivity.
Qed.

Lemma cyclic_render_blocks_witness :
  let v := part_000.mk_sError (Some 0%nat) (Some 1%nat) [] [] [] in
  let st := part_000.mk_state [part_000.errorString "a"; part_000.sErrorObj v]
                              (part_000.mk_RWMutex false 0) in
  part_000.mutex st = part_000.mk_RWMutex false 0
  /\ part_000.objects st !! 1%nat = Some (part_000.sErrorObj v)
  /\ part_000.err v = Some 1%nat
  /\ part_000.err v <> nil
  /\ (1%nat ∉ part_000.recurs v)
  /\ part_000.Error 2 1 st = Blocked.
Proof.
  intros v st.
  assert (H1 : part_000.err v <> nil) by discriminate.
  assert (H2 : 1%nat ∉ part_000.recurs v) by apply not_elem_of_nil.
  repeat (split; [done|]).
  exact (cyclic_render_blocks st 1%nat 1%nat v v 0%nat eq_refl eq_refl eq_refl eq_refl H1 H2).
Defined.

End part_000_facts.

(** The same on the errors as the package builds them: [e := New("a")],
    [e.Err(e)], [e.Error()]. *)
Example self_wrap_blocks (n : nat) :
  run (do a <- part_000.New "a";
       do _ <- part_000.Err n a (Some a) [];
       part_000.Error (2 + n) a) part_000.init = Blocked.
Proof. reflexivity. Qed.

(** In the first unit of [serr.go], where the guard takes no lock, the same
    error is rendered. *)
Example self_wrap_renders (n : nat) :
  run (do a <- serr.New "a";
       do _ <- serr.Err n a (Some a) [];
       serr.Error (2 + n) a) [] = Ok "a"%string.
Proof. reflexivity. Qed.

(** *** The cause of a built error (C3) *)

(** C3, as stated, fails in the first unit of [serr.go]: [Unwrap] on what
    [se.Err(c)] returns is [se], not [c]. *)
Lemma Err_Unwrap_is_not_the_cause :
  exists u c,
    run (do se <- serr.New "context";
         do c <- serr.New "boom";
         do r <- serr.Err 0 se (Some c) [];
         do u <- serr.Unwrap r;
         ret (u, Some c)) [] = Ok (u, c)
    /\ u <> c.
Proof. exists (Some 1%nat), (Some 3%nat). split; [reflexivity | discriminate]. Qed.

(** C3, amended.  After [se.Err(c, args...)] the receiver [se] has the cause
    [c]; the structured error returned is a fresh clone whose [Unwrap] is the
    structured error it was cloned from: [se] itself when no attributes are
    passed, and otherwise the clone that [Args] made of [se].  [Wrap(c, m)]
    returns such a clone of the error it builds with [New(m)], and [Unwrap]
    on a new error is nil. *)
Theorem Err_Unwrap_chain :
  (forall (fuel : nat) (h : list serr.object) (se : addr) (v : serr.sError)
          (c : error) (a : list any),
      h !! se = Some (serr.sErrorObj v) -> Nat.Even (length a) ->
      exists r h',
        serr.Err fuel se c a h = Ok (r, h')
        /\ r <> se
        /\ serr.Unwrap se h' = Ok (c, h')
        /\ (a = [] -> serr.Unwrap r h' = Ok (Some se, h'))
        /\ (a <> [] -> exists w, w <> se /\ w <> r
                        /\ serr.Unwrap r h' = Ok (Some w, h')
                        /\ serr.Unwrap w h' = Ok (Some se, h')))
  /\ (forall (fuel : nat) (h : list serr.object) (c : error) (msg : string),
        exists r se h',
          serr.Wrap fuel c msg [] h = Ok (r, h')
          /\ r <> se
          /\ serr.Unwrap r h' = Ok (Some se, h')
          /\ serr.Unwrap se h' = Ok (c, h'))
  /\ (forall (h : list serr.object) (msg : string),
        exists se h', serr.New msg h = Ok (se, h') /\ serr.Unwrap se h' = Ok (nil, h')).
Proof.
  split; [|split].
  - intros fuel h se v c a Hse Heven.
    assert (Hlt : (se < length h)%nat) by (by eapply lookup_lt_Some).
    destruct (decide (a = [])) as [->|Hne].
    + eexists _, _. split; [by apply Err_Ok_nil|].
      split; [lia|]. split; [|split; [intros _|intros Hx; by destruct Hx]].
      * eapply Unwrap_eq;
        [ rewrite lookup_app_l by (rewrite length_insert; lia); by apply list_lookup_insert_eq
        | done ].
      * eapply Unwrap_eq;
        [ rewrite lookup_app_r; rewrite length_insert; [|lia]; by rewrite Nat.sub_diag
        | done ].
    + eexists _, _. split; [by apply Err_Ok_args|].
      split; [lia|]. split; [|split; [intros Hx; by destruct Hne|intros _]].
      * eapply Unwrap_eq;
        [ rewrite lookup_app_l by (rewrite length_insert; lia); by apply list_lookup_insert_eq
        | done ].
      * exists (length h). split; [lia|]. split; [lia|]. split.
        -- eapply Unwrap_eq;
          [ rewrite lookup_app_r; rewrite length_insert; [|lia];
            by replace (S (length h) - length h)%nat with 1%nat by lia
          | done ].
        -- eapply Unwrap_eq;
          [ rewrite lookup_app_r; rewrite length_insert; [|lia]; by rewrite Nat.sub_diag
          | done ].
  - intros fuel h c msg. eexists _, (S (length h)), _. unfold serr.Wrap.
    split; [|split; [|split]].
    + unfold serr.New, serr.errors_New, serr.alloc.
      unfold bind at 1. unfold bind at 1. unfold bind at 1. unfold ret at 1.
      rewrite length_app. simpl. replace (length h + 1)%nat with (S (length h)) by lia.
      erewrite bind_Ok.
      2:{ apply Err_Ok_nil. rewrite lookup_app_r; rewrite length_app; simpl; [|lia].
          by replace (S (length h) - (length h + 1))%nat with 0%nat by lia. }
      simpl. reflexivity.
    + rewrite length_app, length_app. simpl. lia.
    + eapply Unwrap_eq;
      [ rewrite lookup_app_r; rewrite length_insert; [|lia]; by rewrite Nat.sub_diag
      | done ].
    + eapply Unwrap_eq;
      [ rewrite lookup_app_l by (rewrite length_insert, !length_app; simpl; lia);
        rewrite list_lookup_insert_eq by (rewrite !length_app; simpl; lia); done
      | done ].
  - intros h msg. eexists _, _. split; [reflexivity|].
    eapply Unwrap_eq;
      [ rewrite lookup_app_r; rewrite length_app; simpl; [|lia];
        by replace (length h + 1 - (length h + 1))%nat with 0%nat by lia
      | done ].
Qed.

Lemma Err_Unwrap_chain_witness :
  let h := [serr.errorString "context";
            serr.sErrorObj (serr.mk_sError (Some 0%nat) None [] [] [] false false false);
            serr.errorString "boom"] in
  h !! 1%nat = Some (serr.sErrorObj (serr.mk_sError (Some 0%nat) None [] [] [] false false false))
  /\ Nat.Even (length (A := any) [])
  /\ exists r h',
      serr.Err 0 1 (Some 2%nat) [] h = Ok (r, h')
      /\ r <> 1%nat
      /\ serr.Unwrap 1 h' = Ok (Some 2%nat, h')
      /\ (@Datatypes.nil any = [] -> serr.Unwrap r h' = Ok (Some 1%nat, h'))
      /\ (@Datatypes.nil any <> [] -> exists w, w <> 1%nat /\ w <> r
                      /\ serr.Unwrap r h' = Ok (Some w, h')
                      /\ serr.Unwrap w h' = Ok (Some 1%nat, h')).
Proof.
  intros h. split; [reflexivity|]. split; [by exists 0%nat|].
  apply (proj1 Err_Unwrap_chain 0%nat h 1%nat
           (serr.mk_sError (Some 0%nat) None [] [] [] false false false) (Some 2%nat) []).
  - reflexivity.
  - by exists 0%nat.
Defined.

(** *** Attributes (C8, C9) *)

Lemma string_app_assoc (s1 s2 s3 : string) :
  ((s1 +:+ s2) +:+ s3 = s1 +:+ (s2 +:+ s3))%string.
Proof.
  induction s1 as [|c s1 IH]; [done|].
  change (String c ((s1 +:+ s2) +:+ s3) = String c (s1 +:+ (s2 +:+ s3))).
  by rewrite IH.
Qed.

Lemma argsString_loop_flatten (ps : list (any * any)) :
  argsString_loop (flatten_pairs ps) = render_pairs ps.
Proof.
  induction ps as [|[k v] ps IH]; [done|]. cbn [flatten_pairs flat_map app].
  cbn [argsString_loop render_pairs fold_right].
  fold (flatten_pairs ps). rewrite IH. unfold render_pair, render_value. cbn [fst snd].
  rewrite !string_app_assoc. by destruct v.
Qed.

(** C8. [Args] panics exactly when it is given an odd number of arguments,
    with the message of [chkArgs]; otherwise it returns, and the attributes of
    the receiver and of the error it returns are the arguments given. *)
Theorem Args_replaces_or_panics (fuel : nat) (h : list serr.object) (se : addr)
    (v : serr.sError) (m : string) (a : list any) :
  h !! se = Some (serr.sErrorObj v) -> serr.plain_base h v m ->
  ((exists msg, serr.Args fuel se a h = Panic msg) <-> Nat.Odd (length a))
  /\ (Nat.Odd (length a) ->
      serr.Args fuel se a h = Panic (serr.panicf_chkArgs m (Z.of_nat (length a))))
  /\ (Nat.Even (length a) ->
      exists r h', serr.Args fuel se a h = Ok (r, h')
                   /\ serr.GetArgs se h' = Ok (a, h')
                   /\ serr.GetArgs r h' = Ok (a, h')).
Proof.
  intros Hse Hbase.
  assert (Hlt : (se < length h)%nat) by (by eapply lookup_lt_Some).
  assert (Hodd : Nat.Odd (length a) ->
            serr.Args fuel se a h = Panic (serr.panicf_chkArgs m (Z.of_nat (length a))))
    by exact (Args_Panic fuel h se v m a Hse Hbase).
  assert (Heven : Nat.Even (length a) ->
            exists r h', serr.Args fuel se a h = Ok (r, h')
                         /\ serr.GetArgs se h' = Ok (a, h')
                         /\ serr.GetArgs r h' = Ok (a, h')).
  { intros He. eexists _, _. split; [exact (Args_Ok fuel h se v a Hse He)|]. split.
    - eapply GetArgs_eq;
        [ rewrite lookup_app_l by (rewrite length_insert; lia);
          by apply list_lookup_insert_eq
        | done ].
    - eapply GetArgs_eq;
        [ rewrite lookup_app_r; rewrite length_insert; [|lia];
          by rewrite Nat.sub_diag
        | done ]. }
  split; [|done]. split.
  - intros [msg Hp]. destruct (Nat.Even_or_Odd (length a)) as [He|Ho]; [|done].
    destruct (Heven He) as (r & h' & Hok & _). congruence.
  - intros Ho. eexists. by apply Hodd.
Qed.

Lemma Args_replaces_or_panics_witness :
  let v := serr.mk_sError (Some 0%nat) None [] [] [] false false false in
  let h := [serr.errorString "m"; serr.sErrorObj v] in
  let a := [AString "a"; AInt 1; AString "b"] in
  h !! 1%nat = Some (serr.sErrorObj v) /\ serr.plain_base h v "m"
  /\ ((exists msg, serr.Args 0 1 a h = Panic msg) <-> Nat.Odd (length a))
  /\ (Nat.Odd (length a) ->
      serr.Args 0 1 a h = Panic (serr.panicf_chkArgs "m" (Z.of_nat (length a))))
  /\ (Nat.Even (length a) ->
      exists r h', serr.Args 0 1 a h = Ok (r, h')
                   /\ serr.GetArgs 1 h' = Ok (a, h')
                   /\ serr.GetArgs r h' = Ok (a, h')).
Proof.
  intros v h a.
  assert (H1 : h !! 1%nat = Some (serr.sErrorObj v)) by reflexivity.
  assert (H2 : serr.plain_base h v "m") by (exists 0%nat; split; reflexivity).
  split; [exact H1|]. split; [exact H2|].
  exact (Args_replaces_or_panics 0 h 1%nat v "m"%string a H1 H2).
Defined.

(** C9. A structured error without a cause renders as its message followed
    by one [" [key=value]"] segment per attribute pair, string values in single
    quotes and other values in their plain textual form; and
    [New("m").Args("a", 1, "b", 2).Error()] is ["m [a=1] [b=2]"]. *)
Theorem Error_without_cause :
  (forall (fuel : nat) (h : list serr.object) (se : addr) (v : serr.sError)
          (m : string) (ps : list (any * any)),
      h !! se = Some (serr.sErrorObj v) -> serr.plain_base h v m ->
      serr.err v = nil -> serr.args v = flatten_pairs ps ->
      serr.Error (S fuel) se h = Ok ((m +:+ render_pairs ps)%string, h))
  /\ (forall n : nat,
        run (do se <- serr.New "m";
             do r <- serr.Args n se [AString "a"; AInt 1; AString "b"; AInt 2];
             serr.Error (2 + n) r) [] = Ok "m [a=1] [b=2]"%string)
  /\ (forall n : nat,
        run (do se <- serr.New "m";
             do _ <- serr.Args n se [AString "a"; AInt 1; AString "b"; AInt 2];
             serr.Error (1 + n) se) [] = Ok "m [a=1] [b=2]"%string).
Proof.
  split; [|split; intros n; reflexivity].
  intros fuel h se v m ps Hse Hbase Hnil Hargs. simpl. unfold serr.Error_body.
  rewrite (bind_Ok _ _ _ _ _ (load_Ok _ _ _ Hse)), Hnil.
  rewrite bool_decide_eq_true_2 by done.
  rewrite (own_text_Ok' _ _ _ _ _ Hse Hbase), Hargs.
  by rewrite argsString_loop_flatten.
Qed.

Lemma Error_without_cause_witness :
  let v := serr.mk_sError (Some 0%nat) None [AString "k"; AString "v"; AString "n"; AInt 7]
                          [] [] false false false in
  let h := [serr.errorString "m"; serr.sErrorObj v] in
  let ps := [(AString "k", AString "v"); (AString "n", AInt 7)] in
  h !! 1%nat = Some (serr.sErrorObj v) /\ serr.plain_base h v "m"
  /\ serr.err v = nil /\ serr.args v = flatten_pairs ps
  /\ serr.Error 1 1 h = Ok ("m [k='v'] [n=7]"%string, h).
Proof.
  intros v h ps.
  assert (H1 : h !! 1%nat = Some (serr.sErrorObj v)) by reflexivity.
  assert (H2 : serr.plain_base h v "m") by (exists 0%nat; split; reflexivity).
  repeat (split; [done|]).
  exact (proj1 Error_without_cause 0%nat h 1%nat v "m"%string ps H1 H2 eq_refl eq_refl).
Defined.

(** *** The allow-list is never read (C10) *)

Section validArgs_unused.
Import serr.

Lemma sim_ret {A B} (R : A -> B -> Prop) a b : R a b -> sim R (ret a) (ret b).
Proof. intros HR h1 h2 Hh. by split. Qed.

Lemma sim_bind {A B A' B'} (R : A -> B -> Prop) (Q : A' -> B' -> Prop) m1 m2 k1 k2 :
  sim R m1 m2 -> (forall a b, R a b -> sim Q (k1 a) (k2 b)) ->
  sim Q (bind m1 k1) (bind m2 k2).
Proof.
  intros Hm Hk h1 h2 Hh. specialize (Hm h1 h2 Hh). unfold bind.
  destruct (m1 h1) as [[a h1']| | |], (m2 h2) as [[b h2']| | |]; try done.
  destruct Hm as [HR Hh']. by apply Hk.
Qed.

Lemma sim_panic {A B} (R : A -> B -> Prop) msg : sim R (panic msg) (panic msg).
Proof. by intros h1 h2 Hh. Qed.

Lemma sim_out_of_fuel {A B} (R : A -> B -> Prop) : sim R out_of_fuel out_of_fuel.
Proof. by intros h1 h2 Hh. Qed.

Lemma sim_lift {A} (r : result A) : sim eq (lift r) (lift r).
Proof. intros h1 h2 Hh. unfold lift. by destruct r. Qed.

Lemma same_lookup (h1 h2 : list object) i :
  same_but_validArgs h1 h2 -> erase_object <$> (h1 !! i) = erase_object <$> (h2 !! i).
Proof. intros Hh. rewrite <- !list_lookup_fmap. by rewrite Hh. Qed.

Lemma same_length (h1 h2 : list object) :
  same_but_validArgs h1 h2 -> length h1 = length h2.
Proof. intros Hh. by rewrite <- (length_fmap erase_object h1), Hh, length_fmap. Qed.

Lemma sim_load se :
  sim (fun v1 v2 => erase_validArgs v1 = erase_validArgs v2) (load se) (load se).
Proof.
  intros h1 h2 Hh. pose proof (same_lookup _ _ se Hh) as Hl. unfold load.
  destruct (h1 !! se) as [[?|v1]|], (h2 !! se) as [[?|v2]|]; simplify_eq/=; try done.
  split; [unfold erase_validArgs; congruence|done].
Qed.

Lemma sim_store se v1 v2 :
  erase_validArgs v1 = erase_validArgs v2 -> sim eq (store se v1) (store se v2).
Proof.
  intros Hv h1 h2 Hh. split; [done|]. unfold same_but_validArgs in *.
  rewrite !list_fmap_insert. simpl. rewrite Hv. by rewrite Hh.
Qed.

Lemma sim_alloc o1 o2 :
  erase_object o1 = erase_object o2 -> sim eq (alloc o1) (alloc o2).
Proof.
  intros Ho h1 h2 Hh. split; [by apply same_length|]. unfold same_but_validArgs in *.
  rewrite !fmap_app. simpl. by rewrite Ho, Hh.
Qed.

Ltac sim_load_step v1 v2 H :=
  eapply sim_bind; [apply sim_load | intros v1 v2 H; cbv beta in H; same_fields H].

Lemma sim_error_Error (f : addr -> M (list object) string) e :
  (forall a, sim eq (f a) (f a)) -> sim eq (error_Error f e) (error_Error f e).
Proof.
  intros Hf h1 h2 Hh. unfold error_Error. destruct e as [a|]; [|done].
  pose proof (same_lookup _ _ a Hh) as Hl.
  destruct (h1 !! a) as [[?|v1]|], (h2 !! a) as [[?|v2]|]; simplify_eq/=; try done.
  by apply Hf.
Qed.

Lemma sim_argsString se : sim eq (argsString se) (argsString se).
Proof. unfold argsString. sim_load_step v1 v2 Hv. by apply sim_ret. Qed.

Lemma sim_recursing se : sim eq (recursing se) (recursing se).
Proof. unfold recursing. sim_load_step v1 v2 Hv. by apply sim_ret. Qed.

Lemma sim_own_text (f : addr -> M (list object) string) se
    (k : string -> string -> string) :
  (forall a, sim eq (f a) (f a)) ->
  sim eq (do v <- load se; do m <- error_Error f (error_ v);
          do a <- argsString se; ret (k m a))
         (do v <- load se; do m <- error_Error f (error_ v);
          do a <- argsString se; ret (k m a)).
Proof.
  intros Hf. sim_load_step v1 v2 Hv.
  eapply sim_bind; [by apply sim_error_Error|]. intros m ? <-.
  eapply sim_bind; [apply sim_argsString|]. intros a ? <-. by apply sim_ret.
Qed.

Lemma sim_selfError (f : addr -> M (list object) string) se :
  (forall a, sim eq (f a) (f a)) -> sim eq (selfError f se) (selfError f se).
Proof.
  intros Hf. unfold selfError.
  eapply sim_bind; [apply sim_recursing|]. intros yes ? <-.
  destruct yes; simpl; [by apply sim_ret|].
  sim_load_step v1 v2 Hv.
  eapply sim_bind; [by apply sim_store|]. intros _ _ _.
  sim_load_step v1 v2 Hv.
  eapply sim_bind; [by apply sim_error_Error|]. intros s0 ? <-.
  sim_load_step v1 v2 Hv.
  eapply sim_bind; [by apply sim_store|]. intros _ _ _.
  by apply sim_ret.
Qed.

Lemma sim_Error_body (f : addr -> M (list object) string) se :
  (forall a, sim eq (f a) (f a)) -> sim eq (Error_body f se) (Error_body f se).
Proof.
  intros Hf. unfold Error_body. sim_load_step v1 v2 Hv.
  destruct (bool_decide _).
  - eapply sim_bind; [by apply sim_error_Error|]. intros m ? <-.
    eapply sim_bind; [apply sim_argsString|]. intros a ? <-. by apply sim_ret.
  - eapply sim_bind; [by apply sim_selfError|]. intros self ? <-.
    eapply sim_bind with (R := eq).
    + destruct (negb _); [|by apply sim_ret].
      by apply (sim_own_text f se (fun m a => (m +:+ a +:+ "; " +:+ self)%string)).
    + intros _ _ _. by apply (sim_own_text f se (fun m a => (m +:+ a)%string)).
Qed.

Lemma sim_Error fuel : forall se, sim eq (Error fuel se) (Error fuel se).
Proof.
  induction fuel as [|fuel IH]; intros se; simpl.
  - apply sim_out_of_fuel.
  - by apply sim_Error_body.
Qed.

Lemma sim_chkArgs fuel se count : sim eq (chkArgs fuel se count) (chkArgs fuel se count).
Proof.
  unfold chkArgs. destruct (negb _); [|by apply sim_ret].
  sim_load_step v1 v2 Hv.
  eapply sim_bind; [apply sim_error_Error, sim_Error|]. intros m ? <-.
  apply sim_panic.
Qed.

Lemma sim_CloneWrap se : sim eq (CloneWrap se) (CloneWrap se).
Proof.
  unfold CloneWrap, Clone.
  eapply sim_bind with (R := eq).
  { sim_load_step v1 v2 Hv. by apply sim_alloc. }
  intros wrapped ? <-. sim_load_step v1 v2 Hv.
  eapply sim_bind; [by apply sim_store|]. intros _ _ _. by apply sim_ret.
Qed.

Lemma sim_Args fuel se a : sim eq (Args fuel se a) (Args fuel se a).
Proof.
  unfold Args. eapply sim_bind; [apply sim_chkArgs|]. intros _ _ _.
  sim_load_step v1 v2 Hv.
  eapply sim_bind; [by apply sim_store|]. intros _ _ _. apply sim_CloneWrap.
Qed.

Lemma sim_Attrs se : sim eq (Attrs se) (Attrs se).
Proof. unfold Attrs. sim_load_step v1 v2 Hv. apply sim_lift. Qed.

Lemma sim_Attr se key : sim eq (Attr_ se key) (Attr_ se key).
Proof.
  unfold Attr_. eapply sim_bind; [apply sim_Attrs|]. intros attrs ? <-.
  by apply sim_ret.
Qed.

End validArgs_unused.

(** C10. Nothing reads the allow-list: on two stores that differ only in
    the [validArgs] recorded in their structured errors, [Error], [Args],
    [Attrs] and [Attr] end the same way, with the same result, and leave
    stores that again differ only in [validArgs]. *)
Theorem validArgs_never_consulted (h1 h2 : list serr.object) :
  same_but_validArgs h1 h2 ->
  forall (fuel : nat) (se : addr) (a : list any) (key : string),
    same_outcome eq (serr.Error fuel se h1) (serr.Error fuel se h2)
    /\ same_outcome eq (serr.Args fuel se a h1) (serr.Args fuel se a h2)
    /\ same_outcome eq (serr.Attrs se h1) (serr.Attrs se h2)
    /\ same_outcome eq (serr.Attr_ se key h1) (serr.Attr_ se key h2).
Proof.
  intros Hh fuel se a key. repeat split.
  - by apply sim_Error.
  - by apply sim_Args.
  - by apply sim_Attrs.
  - by apply sim_Attr.
Qed.

Lemma validArgs_never_consulted_witness :
  let v1 := serr.mk_sError (Some 0%nat) None [AString "a"; AInt 1] ["a"%string]
                           [] true false false in
  let v2 := serr.mk_sError (Some 0%nat) None [AString "a"; AInt 1] ["b"%string; "c"%string]
                           [] true false false in
  let h1 := [serr.errorString "m"; serr.sErrorObj v1] in
  let h2 := [serr.errorString "m"; serr.sErrorObj v2] in
  same_but_validArgs h1 h2
  /\ same_outcome eq (serr.Error 1 1 h1) (serr.Error 1 1 h2)
  /\ same_outcome eq (serr.Args 1 1 [AString "k"; ABool true] h1)
                     (serr.Args 1 1 [AString "k"; ABool true] h2)
  /\ same_outcome eq (serr.Attrs 1 h1) (serr.Attrs 1 h2)
  /\ same_outcome eq (serr.Attr_ 1 "a" h1) (serr.Attr_ 1 "a" h2).
Proof.
  intros v1 v2 h1 h2.
  assert (H : same_but_validArgs h1 h2) by reflexivity.
  split; [exact H|].
  exact (validArgs_never_consulted h1 h2 H 1%nat 1%nat [AString "k"; ABool true] "a"%string).
Defined.

(** * Further properties of the code *)

(** ** More of the text functions *)

Section Diff_more.
Import utf8.

(** *** The scans do not depend on the fuel, nor on the order of the inputs *)

Lemma Diff_prefix_fuel fuel1 : forall fuel2 b1 b2 start,
  (length b1 `min` length b2 < fuel1)%nat -> (length b1 `min` length b2 < fuel2)%nat ->
  Diff_prefix fuel1 b1 b2 start = Diff_prefix fuel2 b1 b2 start.
Proof.
  induction fuel1 as [|fuel1 IH]; intros fuel2 b1 b2 start H1 H2; [lia|].
  destruct fuel2 as [|fuel2]; [lia|]. cbn [Diff_prefix].
  destruct (_ && _) eqn:Hc; [|done]. zbool.
  assert (Hb1 : b1 <> []) by (intros ->; by cbn in *).
  assert (Hb2 : b2 <> []) by (intros ->; by cbn in *).
  pose proof (DecodeRune_size b1 Hb1) as [Hs1 Hl1].
  pose proof (DecodeRune_size b2 Hb2) as [Hs2 Hl2].
  destruct (DecodeRune b1) as [ch1 width1], (DecodeRune b2) as [ch2 width2].
  cbn [snd] in *. destruct (negb _); [done|].
  apply IH; unfold slice_from, len in *; rewrite !length_drop; lia.
Qed.

Lemma Diff_suffix_fuel fuel1 : forall fuel2 b1 b2 end_,
  (length b1 `min` length b2 < fuel1)%nat -> (length b1 `min` length b2 < fuel2)%nat ->
  Diff_suffix fuel1 b1 b2 end_ = Diff_suffix fuel2 b1 b2 end_.
Proof.
  induction fuel1 as [|fuel1 IH]; intros fuel2 b1 b2 end_ H1 H2; [lia|].
  destruct fuel2 as [|fuel2]; [lia|]. cbn [Diff_suffix].
  destruct (_ && _) eqn:Hc; [|done]. zbool.
  assert (Hb1 : b1 <> []) by (intros ->; by cbn in *).
  assert (Hb2 : b2 <> []) by (intros ->; by cbn in *).
  pose proof (DecodeLastRune_size b1 Hb1) as Hs1.
  pose proof (DecodeLastRune_size b2 Hb2) as Hs2.
  destruct (DecodeLastRune b1) as [ch1 width1], (DecodeLastRune b2) as [ch2 width2].
  cbn [snd] in *. destruct (negb _); [done|].
  apply IH; unfold slice_to, len in *; rewrite !length_take; lia.
Qed.

Lemma Diff_prefix_swap fuel : forall b1 b2 start,
  Diff_prefix fuel b2 b1 start = swap3 (Diff_prefix fuel b1 b2 start).
Proof.
  induction fuel as [|fuel IH]; intros b1 b2 start; [done|]. cbn [Diff_prefix].
  rewrite (andb_comm (0 <? len b2)). destruct (_ && _); [|done].
  destruct (DecodeRune b1) as [ch1 width1], (DecodeRune b2) as [ch2 width2].
  rewrite (Z.eqb_sym ch2 ch1). destruct (negb _); [done|]. apply IH.
Qed.

Lemma Diff_suffix_swap fuel : forall b1 b2 end_,
  Diff_suffix fuel b2 b1 end_ = swap3 (Diff_suffix fuel b1 b2 end_).
Proof.
  induction fuel as [|fuel IH]; intros b1 b2 end_; [done|]. cbn [Diff_suffix].
  rewrite (andb_comm (0 <? len b2)). destruct (_ && _); [|done].
  destruct (DecodeLastRune b1) as [ch1 width1], (DecodeLastRune b2) as [ch2 width2].
  rewrite (Z.eqb_sym ch2 ch1). destruct (negb _); [done|]. apply IH.
Qed.

Lemma Diff_regions_swap s1 s2 :
  Diff_regions s2 s1
  = let '(b1, b2, start, end_) := Diff_regions s1 s2 in (b2, b1, start, end_).
Proof.
  unfold Diff_regions.
  rewrite (Diff_prefix_fuel _ (S (length (list_ascii_of_string s1)))) by lia.
  rewrite Diff_prefix_swap.
  destruct (Diff_prefix _ _ _ _) as [[b1 b2] start]. cbn [swap3].
  rewrite (Z.add_comm (len b2)). destruct (_ =? 0); [done|].
  rewrite (Diff_suffix_fuel _ (S (length b1))) by lia.
  rewrite Diff_suffix_swap.
  by destruct (Diff_suffix _ _ _ _) as [[b1' b2'] end_].
Qed.

Lemma Diff_swap s1 s2 n :
  Diff s2 s1 n = let '(x1, x2, start, end_) := Diff s1 s2 n in (x2, x1, start, end_).
Proof.
  unfold Diff.
  rewrite (Diff_prefix_fuel _ (S (length (list_ascii_of_string s1)))) by lia.
  rewrite Diff_prefix_swap.
  destruct (Diff_prefix _ _ _ _) as [[b1 b2] start]. cbn [swap3].
  rewrite (Z.add_comm (len b2)). destruct (_ =? 0); [done|].
  rewrite (Diff_suffix_fuel _ (S (length b1))) by lia.
  rewrite Diff_suffix_swap.
  by destruct (Diff_suffix _ _ _ _) as [[b1' b2'] end_].
Qed.

(** *** The runes of a slice *)

Lemma decodeFrom_runes_fuel fuel1 : forall fuel2 i j p,
  (length p <= fuel1)%nat -> (length p <= fuel2)%nat ->
  map snd (decodeFrom fuel1 i p) = map snd (decodeFrom fuel2 j p).
Proof.
  induction fuel1 as [|fuel1 IH]; intros fuel2 i j p H1 H2.
  - destruct p; [|simpl in H1; lia]. by destruct fuel2.
  - destruct fuel2 as [|fuel2].
    { destruct p; [done|simpl in H2; lia]. }
    destruct p as [|c p]; [done|]. cbn [decodeFrom].
    pose proof (DecodeRune_size (c :: p) ltac:(done)) as [Hs Hl].
    destruct (DecodeRune (c :: p)) as [r size]. cbn [snd] in *. cbn [map snd].
    f_equal. apply IH; unfold slice_from; rewrite length_drop; simpl in *; lia.
Qed.

Lemma runes_nil : runes [] = [].
Proof. reflexivity. Qed.

Lemma runes_step p :
  p <> [] ->
  runes p = fst (DecodeRune p) :: runes (slice_from p (snd (DecodeRune p))).
Proof.
  intros Hp. unfold runes. destruct p as [|c p]; [done|].
  cbn [length decodeFrom].
  pose proof (DecodeRune_size (c :: p) ltac:(done)) as [Hs Hl].
  destruct (DecodeRune (c :: p)) as [r size]. cbn [fst snd] in *. cbn [map snd].
  f_equal. apply decodeFrom_runes_fuel; [|done].
  unfold slice_from. rewrite length_drop. simpl in *. lia.
Qed.

Lemma RuneCount_runes p : RuneCount p = Z.of_nat (length (runes p)).
Proof. unfold RuneCount, runes. by rewrite length_map. Qed.

Lemma runes_last_aux (n : nat) : forall p,
  (length p <= n)%nat -> p <> [] ->
  runes p = runes (slice_to p (len p - snd (DecodeLastRune p)))
            ++ [fst (DecodeLastRune p)].
Proof.
  induction n as [|n IH]; intros p Hn Hp.
  { destruct p; [done|simpl in Hn; lia]. }
  pose proof (DecodeRune_size p Hp) as [Hsz0 Hsz0'].
  rewrite (runes_step p Hp).
  destruct (decide (snd (DecodeRune p) = len p)) as [Heq|Hne].
  - rewrite (DecodeLastRune_whole p Hp Heq), Heq, Z.sub_diag.
    rewrite slice_from_all by lia. by change (slice_to p 0) with (@Datatypes.nil ascii).
  - rewrite (DecodeLastRune_tail p Hp ltac:(lia)).
    set (sz0 := snd (DecodeRune p)) in *. set (t := slice_from p sz0).
    assert (Hlen : len t = len p - sz0) by (unfold t; rewrite len_drop; lia).
    assert (Ht : t <> []).
    { intros E. rewrite E in Hlen. change (len []) with 0 in Hlen. lia. }
    pose proof (DecodeLastRune_size t Ht) as Hsz.
    set (sz := snd (DecodeLastRune t)) in *.
    rewrite (IH t); [|unfold t, slice_from, len in *; rewrite length_drop; lia|done].
    fold sz.
    assert (Hp' : p = slice_to p sz0 ++ t) by (symmetry; apply slice_split; lia).
    assert (Hh : len (slice_to p sz0) = sz0) by (apply len_take; lia).
    set (h := slice_to p sz0) in *.
    assert (Hcut : slice_to p (len p - sz) = h ++ slice_to t (len t - sz)).
    { rewrite Hp' at 1. rewrite slice_to_app by lia. do 2 f_equal. lia. }
    rewrite Hcut.
    assert (Hh0 : h <> []).
    { intros E. rewrite E in Hh. change (len []) with 0 in Hh. lia. }
    assert (Hx : h ++ slice_to t (len t - sz) <> []) by (by destruct h).
    rewrite (runes_step _ Hx).
    assert (Hdec : DecodeRune (h ++ slice_to t (len t - sz)) = DecodeRune p).
    { assert (Hp2 : (h ++ slice_to t (len t - sz)) ++ slice_from t (len t - sz) = p).
      { rewrite <- app_assoc, slice_split by lia. by symmetry. }
      rewrite <- Hp2 at 1. apply DecodeRune_prefix; [done|]. rewrite Hp2.
      fold sz0. rewrite len_app.
      pose proof (len_nonneg (slice_to t (len t - sz))). lia. }
    rewrite Hdec. fold sz0. by rewrite slice_from_app' by done.
Qed.

Lemma runes_last p :
  p <> [] ->
  runes p = runes (slice_to p (len p - snd (DecodeLastRune p)))
            ++ [fst (DecodeLastRune p)].
Proof. intros Hp. by apply (runes_last_aux (length p)). Qed.

(** Cutting the last rune off a slice that holds more than one rune leaves
    its first rune as it is. *)
Lemma DecodeRune_without_last p :
  p <> [] -> slice_to p (len p - snd (DecodeLastRune p)) <> [] ->
  DecodeRune (slice_to p (len p - snd (DecodeLastRune p))) = DecodeRune p.
Proof.
  intros Hp Hne. pose proof (DecodeRune_size p Hp) as [Hsz0 Hsz0'].
  pose proof (DecodeLastRune_size p Hp) as Hsz.
  destruct (decide (snd (DecodeRune p) = len p)) as [Heq|Hlt].
  - rewrite (DecodeLastRune_whole p Hp Heq), Heq, Z.sub_diag in Hne. done.
  - rewrite (DecodeLastRune_tail p Hp ltac:(lia)) in *.
    set (sz0 := snd (DecodeRune p)) in *. set (t := slice_from p sz0) in *.
    assert (Hlen : len t = len p - sz0) by (unfold t; rewrite len_drop; lia).
    assert (Ht : t <> []).
    { intros E. rewrite E in Hlen. change (len []) with 0 in Hlen. lia. }
    pose proof (DecodeLastRune_size t Ht) as Hszt.
    set (sz := snd (DecodeLastRune t)) in *.
    pose proof (slice_split p (len p - sz) ltac:(lia)) as Hsplit.
    rewrite <- Hsplit at 3. apply DecodeRune_prefix; [done|].
    rewrite Hsplit. fold sz0. rewrite len_take by lia. lia.
Qed.

(** *** What the two scans take off *)

Lemma Diff_prefix_runes fuel : forall b1 b2 start b1' b2' start',
  Diff_prefix fuel b1 b2 start = (b1', b2', start') ->
  exists pre p1 p2,
    Z.of_nat (length pre) = start' - start
    /\ runes b1 = pre ++ runes b1' /\ runes b2 = pre ++ runes b2'
    /\ b1 = p1 ++ b1' /\ b2 = p2 ++ b2'.
Proof.
  induction fuel as [|fuel IH]; intros b1 b2 start b1' b2' start' E;
    cbn [Diff_prefix] in E.
  { injection E as <- <- <-. exists [], [], []. cbn. split; [lia|done]. }
  destruct (_ && _) eqn:Hc;
    [|injection E as <- <- <-; exists [], [], []; cbn; split; [lia|done]]. zbool.
  assert (Hb1 : b1 <> []) by (intros ->; by cbn in *).
  assert (Hb2 : b2 <> []) by (intros ->; by cbn in *).
  pose proof (DecodeRune_size b1 Hb1) as [Hs1 Hl1].
  pose proof (DecodeRune_size b2 Hb2) as [Hs2 Hl2].
  destruct (DecodeRune b1) as [ch1 width1] eqn:E1,
           (DecodeRune b2) as [ch2 width2] eqn:E2. cbn [snd] in *.
  destruct (negb _) eqn:Hneq;
    [injection E as <- <- <-; exists [], [], []; cbn; split; [lia|done]|]. zbool.
  apply IH in E as (pre & p1 & p2 & Hlen & Hr1 & Hr2 & Hp1 & Hp2).
  exists (ch1 :: pre), (slice_to b1 width1 ++ p1), (slice_to b2 width2 ++ p2).
  split; [cbn [length]; lia|].
  rewrite (runes_step b1 Hb1), (runes_step b2 Hb2), E1, E2. cbn [fst snd].
  rewrite Hr1, Hr2. subst ch2. repeat split; try done.
  - rewrite <- app_assoc, <- Hp1. symmetry. apply slice_split. lia.
  - rewrite <- app_assoc, <- Hp2. symmetry. apply slice_split. lia.
Qed.

Lemma Diff_suffix_runes fuel : forall b1 b2 end_ b1' b2' end',
  Diff_suffix fuel b1 b2 end_ = (b1', b2', end') ->
  exists post q1 q2,
    Z.of_nat (length post) = end' - end_
    /\ runes b1 = runes b1' ++ post /\ runes b2 = runes b2' ++ post
    /\ b1 = b1' ++ q1 /\ b2 = b2' ++ q2.
Proof.
  induction fuel as [|fuel IH]; intros b1 b2 end_ b1' b2' end' E;
    cbn [Diff_suffix] in E.
  { injection E as <- <- <-. exists [], [], []. rewrite !app_nil_r. cbn. split; [lia|done]. }
  destruct (_ && _) eqn:Hc;
    [|injection E as <- <- <-; exists [], [], []; rewrite !app_nil_r; cbn;
      split; [lia|done]]. zbool.
  assert (Hb1 : b1 <> []) by (intros ->; by cbn in *).
  assert (Hb2 : b2 <> []) by (intros ->; by cbn in *).
  pose proof (DecodeLastRune_size b1 Hb1) as Hs1.
  pose proof (DecodeLastRune_size b2 Hb2) as Hs2.
  pose proof (runes_last b1 Hb1) as Hl1. pose proof (runes_last b2 Hb2) as Hl2.
  destruct (DecodeLastRune b1) as [ch1 width1] eqn:E1,
           (DecodeLastRune b2) as [ch2 width2] eqn:E2. cbn [fst snd] in *.
  destruct (negb _) eqn:Hneq;
    [injection E as <- <- <-; exists [], [], []; rewrite !app_nil_r; cbn;
     split; [lia|done]|]. zbool.
  apply IH in E as (post & q1 & q2 & Hlen & Hr1 & Hr2 & Hq1 & Hq2).
  exists (post ++ [ch1]), (q1 ++ slice_from b1 (len b1 - width1)),
         (q2 ++ slice_from b2 (len b2 - width2)).
  split; [rewrite length_app; cbn [length]; lia|].
  rewrite Hl1, Hl2, Hr1, Hr2. subst ch2. rewrite <- !app_assoc. repeat split; try done.
  - rewrite app_assoc, <- Hq1. symmetry. apply slice_split. lia.
  - rewrite app_assoc, <- Hq2. symmetry. apply slice_split. lia.
Qed.

(** When the first scan stops with fuel left, one slice is empty or the
    first runes differ. *)
Lemma Diff_prefix_stops fuel : forall b1 b2 start b1' b2' start',
  (length b1 `min` length b2 < fuel)%nat ->
  Diff_prefix fuel b1 b2 start = (b1', b2', start') ->
  b1' = [] \/ b2' = [] \/ fst (DecodeRune b1') <> fst (DecodeRune b2').
Proof.
  induction fuel as [|fuel IH]; intros b1 b2 start b1' b2' start' Hf E; [lia|].
  cbn [Diff_prefix] in E.
  destruct (_ && _) eqn:Hc.
  2:{ injection E as <- <- <-. apply andb_false_iff in Hc as [Hc|Hc]; zbool.
      - left. apply len_0. pose proof (len_nonneg b1). lia.
      - right; left. apply len_0. pose proof (len_nonneg b2). lia. }
  zbool.
  assert (Hb1 : b1 <> []) by (intros ->; by cbn in *).
  assert (Hb2 : b2 <> []) by (intros ->; by cbn in *).
  pose proof (DecodeRune_size b1 Hb1) as [Hs1 Hl1].
  pose proof (DecodeRune_size b2 Hb2) as [Hs2 Hl2].
  destruct (DecodeRune b1) as [ch1 width1] eqn:E1,
           (DecodeRune b2) as [ch2 width2] eqn:E2. cbn [snd] in *.
  destruct (negb _) eqn:Hneq; zbool.
  - injection E as <- <- <-. right; right. by rewrite E1, E2.
  - eapply IH; [|done]. unfold slice_from, len in *. rewrite !length_drop. lia.
Qed.

(** The second scan leaves the first runes alone, and when it stops with fuel
    left, one slice is empty or the last runes differ. *)
Lemma Diff_suffix_stops fuel : forall b1 b2 end_ b1' b2' end',
  (length b1 `min` length b2 < fuel)%nat ->
  Diff_suffix fuel b1 b2 end_ = (b1', b2', end') ->
  (b1' = [] \/ b2' = [] \/ fst (DecodeLastRune b1') <> fst (DecodeLastRune b2'))
  /\ (b1' <> [] -> DecodeRune b1' = DecodeRune b1)
  /\ (b2' <> [] -> DecodeRune b2' = DecodeRune b2).
Proof.
  induction fuel as [|fuel IH]; intros b1 b2 end_ b1' b2' end' Hf E; [lia|].
  cbn [Diff_suffix] in E.
  destruct (_ && _) eqn:Hc.
  2:{ injection E as <- <- <-. split; [|done].
      apply andb_false_iff in Hc as [Hc|Hc]; zbool.
      - left. apply len_0. pose proof (len_nonneg b1). lia.
      - right; left. apply len_0. pose proof (len_nonneg b2). lia. }
  zbool.
  assert (Hb1 : b1 <> []) by (intros ->; by cbn in *).
  assert (Hb2 : b2 <> []) by (intros ->; by cbn in *).
  pose proof (DecodeLastRune_size b1 Hb1) as Hs1.
  pose proof (DecodeLastRune_size b2 Hb2) as Hs2.
  pose proof (DecodeRune_without_last b1 Hb1) as Hk1.
  pose proof (DecodeRune_without_last b2 Hb2) as Hk2.
  destruct (DecodeLastRune b1) as [ch1 width1] eqn:E1,
           (DecodeLastRune b2) as [ch2 width2] eqn:E2. cbn [snd] in *.
  destruct (negb _) eqn:Hneq; zbool.
  - injection E as <- <- <-. split; [|done]. right; right. by rewrite E1, E2.
  - pose proof (Diff_suffix_runes _ _ _ _ _ _ _ E) as (_ & q1 & q2 & _ & _ & _ & Hq1 & Hq2).
    eapply IH in E as (H1 & H2 & H3);
      [|unfold slice_to, len in *; rewrite !length_take; lia].
    split; [done|]. split.
    + intros Hne. rewrite (H2 Hne). apply Hk1. rewrite Hq1. by destruct b1'.
    + intros Hne. rewrite (H3 Hne). apply Hk2. rewrite Hq2. by destruct b2'.
Qed.

End Diff_more.

Section text_extras.
Import utf8.

Lemma Z_quot2_le0 w : w <= 1 -> Z.quot w 2 <= 0.
Proof.
  intros Hw. destruct (Z.le_gt_cases 0 w) as [H0|H0].
  - rewrite Z.quot_div_nonneg by lia.
    assert (w = 0 \/ w = 1) as [-> | ->] by lia; vm_compute; discriminate.
  - replace w with (- (- w)) by lia. rewrite Z.quot_opp_l by lia.
    pose proof (Z.quot_pos (- w) 2 ltac:(lia) ltac:(lia)). lia.
Qed.

Lemma prefixRunes_none s n : n <= 0 -> prefixRunes s n = EmptyString.
Proof.
  intros Hn. unfold prefixRunes, range.
  destruct (list_ascii_of_string s) as [|c p]; [done|]. cbn [length decodeFrom].
  destruct (DecodeRune (c :: p)) as [r size]. cbn [prefixRunes_loop].
  destruct (n <=? 0) eqn:E; zbool; [done|lia].
Qed.

Lemma suffixRunes_none s n : n <= 0 -> suffixRunes s n = EmptyString.
Proof.
  intros Hn. unfold suffixRunes. cbn [suffixRunes_loop].
  destruct (0 <? n) eqn:E; zbool; [lia|done].
Qed.

Lemma string_app_nil_r (s : string) : (s ++ "")%string = s.
Proof.
  induction s as [|c s IH]; [done|].
  change ((String c s ++ "")%string) with (String c (s ++ "")%string). by rewrite IH.
Qed.

Lemma Excerpt_narrow_aux s w :
  w <= 1 -> w < RuneCountInString s -> Excerpt s w = EllipsisRune.
Proof.
  intros Hw Hlt. unfold Excerpt.
  destruct (_ <=? w) eqn:E; zbool; [lia|].
  pose proof (Z_quot2_le0 w Hw) as Hq.
  rewrite prefixRunes_none by done.
  rewrite suffixRunes_none by (destruct (_ && _); lia).
  change (("" ++ EllipsisRune ++ "")%string) with ((EllipsisRune ++ "")%string).
  apply string_app_nil_r.
Qed.

Lemma string_length_app (s1 s2 : string) :
  String.length (s1 ++ s2)%string = (String.length s1 + String.length s2)%nat.
Proof.
  induction s1 as [|c s1 IH]; [done|].
  change ((String c s1 ++ s2)%string) with (String c (s1 ++ s2)%string).
  cbn [String.length]. by rewrite IH.
Qed.

Lemma string_length_of_list (l : list ascii) :
  String.length (string_of_list_ascii l) = length l.
Proof. induction l as [|c l IH]; [done|]. cbn. by rewrite IH. Qed.

Lemma string_of_list_ascii_app (l1 l2 : list ascii) :
  string_of_list_ascii (l1 ++ l2)
  = (string_of_list_ascii l1 ++ string_of_list_ascii l2)%string.
Proof.
  induction l1 as [|c l1 IH]; [done|]. cbn [app string_of_list_ascii].
  by rewrite IH.
Qed.

End text_extras.

(** X1. [Diff] treats its two inputs alike: with the inputs exchanged it
    returns the two strings exchanged and the same two counts. *)
Theorem Diff_is_symmetric (s1 s2 : string) (n : Z) :
  Diff s2 s1 n = let '(x1, x2, start, end_) := Diff s1 s2 n in (x2, x1, start, end_).
Proof. apply Diff_swap. Qed.

(** X2. The differing regions are pieces of the inputs, between runes the
    inputs share: each input is some bytes, its region, and some bytes, and
    the runes of each input are one sequence of [start] runes, the runes of
    its region, and one sequence of [end] runes, the two sequences being the
    same for both inputs. *)
Theorem Diff_regions_between_common_runes (s1 s2 : string) :
  let '(b1, b2, start, end_) := Diff_regions s1 s2 in
  exists (pre post : list Z) (p1 q1 p2 q2 : list ascii),
    list_ascii_of_string s1 = p1 ++ b1 ++ q1
    /\ list_ascii_of_string s2 = p2 ++ b2 ++ q2
    /\ runes (list_ascii_of_string s1) = pre ++ runes b1 ++ post
    /\ runes (list_ascii_of_string s2) = pre ++ runes b2 ++ post
    /\ Z.of_nat (length pre) = start
    /\ Z.of_nat (length post) = end_.
Proof.
  unfold Diff_regions.
  destruct (Diff_prefix _ _ _ _) as [[b1 b2] start] eqn:E1.
  apply Diff_prefix_runes in E1 as (pre & p1 & p2 & Hlen & Hr1 & Hr2 & Hp1 & Hp2).
  destruct (_ =? 0) eqn:E0; zbool.
  - pose proof (len_nonneg b1). pose proof (len_nonneg b2).
    assert (b1 = []) as -> by (apply len_0; lia).
    assert (b2 = []) as -> by (apply len_0; lia).
    exists pre, [], p1, [], p2, []. rewrite Hr1, Hr2, Hp1, Hp2.
    repeat split; try done. lia.
  - destruct (Diff_suffix _ _ _ _) as [[b1' b2'] end_] eqn:E2.
    apply Diff_suffix_runes in E2 as (post & q1 & q2 & Hlen' & Hr1' & Hr2' & Hq1 & Hq2).
    exists pre, post, p1, q1, p2, q2. rewrite Hr1, Hr2, Hp1, Hp2, Hr1', Hr2'.
    rewrite <- Hq1, <- Hq2. repeat split; try done; lia.
Qed.

(** X3. The regions cannot be made smaller from either end: one of them is
    empty, or their first runes differ and their last runes differ. *)
Theorem Diff_regions_are_minimal (s1 s2 : string) :
  let '(b1, b2, _, _) := Diff_regions s1 s2 in
  b1 = [] \/ b2 = []
  \/ (fst (utf8.DecodeRune b1) <> fst (utf8.DecodeRune b2)
      /\ fst (utf8.DecodeLastRune b1) <> fst (utf8.DecodeLastRune b2)).
Proof.
  unfold Diff_regions.
  destruct (Diff_prefix _ _ _ _) as [[b1 b2] start] eqn:E1.
  apply Diff_prefix_stops in E1; [|lia].
  destruct (_ =? 0) eqn:E0; [by left|].
  destruct (Diff_suffix _ _ _ _) as [[b1' b2'] end_] eqn:E2.
  pose proof (Diff_suffix_runes _ _ _ _ _ _ _ E2) as (_ & q1 & q2 & _ & _ & _ & Hq1 & Hq2).
  apply Diff_suffix_stops in E2 as (H1 & H2 & H3); [|lia].
  destruct (decide (b1' = [])) as [?|Hn1]; [by left|].
  destruct (decide (b2' = [])) as [?|Hn2]; [by right; left|].
  right; right. rewrite (H2 Hn1), (H3 Hn2).
  destruct H1 as [?|[?|H1]]; [done..|]. split; [|done].
  destruct E1 as [->|[->|?]]; [| |done].
  - by destruct b1'.
  - by destruct b2'.
Qed.

(** X4. At a width of 1 or less, the excerpt of a string of more runes than
    the width is the ellipsis alone. *)
Theorem Excerpt_narrow_width (s : string) (w : Z) :
  w <= 1 -> w < utf8.RuneCountInString s -> Excerpt s w = EllipsisRune.
Proof. apply Excerpt_narrow_aux. Qed.

Lemma Excerpt_narrow_width_witness :
  1 <= 1 /\ 1 < utf8.RuneCountInString "héllo" /\ Excerpt "héllo" 1 = EllipsisRune.
Proof.
  assert (H1 : 1 <= 1) by lia.
  assert (H2 : 1 < utf8.RuneCountInString "héllo") by (vm_compute; reflexivity).
  split; [exact H1|]. split; [exact H2|].
  exact (Excerpt_narrow_width "héllo" 1 H1 H2).
Defined.

(** X5. On a string of ASCII bytes that is longer than the width [w >= 0],
    [Excerpt] is the first [w/2] bytes, the ellipsis and the last [w/2]
    bytes ([w/2 - 1] for an even [w]); for [w >= 1] it has [w] runes and
    [w + 2] bytes, the ellipsis taking three. *)
Theorem Excerpt_of_ascii (s : string) (w : Z) :
  ascii_only (list_ascii_of_string s) -> 0 <= w < len_string s ->
  Excerpt s w = Excerpt_spec s w
  /\ (1 <= w -> utf8.RuneCountInString (Excerpt s w) = w
               /\ len_string (Excerpt s w) = w + 2).
Proof.
  intros Hs Hw.
  assert (Hcnt : utf8.RuneCountInString s = len_string s).
  { unfold utf8.RuneCountInString, len_string. rewrite RuneCount_ascii by done.
    unfold utf8.len. by rewrite <- string_length_of_list, string_of_list_ascii_of_string. }
  split; [apply Excerpt_ascii_spec; [done|lia]|]. intros H1. split.
  { rewrite Excerpt_ascii_rune_count by done. lia. }
  unfold Excerpt. rewrite Hcnt.
  destruct (_ <=? w) eqn:E; zbool; [lia|].
  assert ((w <=? len_string s) = true) as -> by (apply Z.leb_le; lia).
  cbn [andb]. rewrite rem2_odd_Z by lia.
  rewrite prefixRunes_ascii, suffixRunes_ascii by done.
  unfold len_string in *. rewrite !string_length_app, !string_length_of_list.
  rewrite <- (string_of_list_ascii_of_string s), string_length_of_list in Hw, E.
  rewrite length_take, length_drop.
  change (String.length EllipsisRune) with 3%nat.
  rewrite Z.quot_div_nonneg by lia.
  pose proof (Zmod_odd w) as Hodd. pose proof (Z_div_mod_eq_full w 2) as Hdiv.
  set (q := w / 2) in *. clearbody q.
  destruct (Z.odd w); cbn [negb]; lia.
Qed.

Lemma Excerpt_of_ascii_witness :
  ascii_only (list_ascii_of_string "ABCDEFGHIJ") /\ 0 <= 6 < len_string "ABCDEFGHIJ"
  /\ Excerpt "ABCDEFGHIJ" 6 = Excerpt_spec "ABCDEFGHIJ" 6
  /\ (1 <= 6 -> utf8.RuneCountInString (Excerpt "ABCDEFGHIJ" 6) = 6
               /\ len_string (Excerpt "ABCDEFGHIJ" 6) = 6 + 2).
Proof.
  assert (H1 : ascii_only (list_ascii_of_string "ABCDEFGHIJ")).
  { repeat constructor. }
  assert (H2 : 0 <= 6 < len_string "ABCDEFGHIJ")
    by (change (len_string "ABCDEFGHIJ") with 10; lia).
  split; [exact H1|]. split; [exact H2|].
  exact (Excerpt_of_ascii "ABCDEFGHIJ" 6 H1 H2).
Defined.

(** X6. On a string of ASCII bytes and a width of at least 1, excerpting
    twice is excerpting once. *)
Theorem Excerpt_idempotent_on_ascii (s : string) (w : Z) :
  ascii_only (list_ascii_of_string s) -> 1 <= w ->
  Excerpt (Excerpt s w) w = Excerpt s w.
Proof.
  intros Hs Hw. pose proof (Excerpt_ascii_rune_count s w Hs Hw) as Hc.
  unfold Excerpt at 1. rewrite Hc.
  destruct (_ <=? w) eqn:E; zbool; [done|lia].
Qed.

Lemma Excerpt_idempotent_on_ascii_witness :
  ascii_only (list_ascii_of_string "ABCDEFGHIJ") /\ 1 <= 7
  /\ Excerpt (Excerpt "ABCDEFGHIJ" 7) 7 = Excerpt "ABCDEFGHIJ" 7.
Proof.
  assert (H1 : ascii_only (list_ascii_of_string "ABCDEFGHIJ")).
  { repeat constructor. }
  assert (H2 : 1 <= 7) by lia.
  split; [exact H1|]. split; [exact H2|].
  exact (Excerpt_idempotent_on_ascii "ABCDEFGHIJ" 7 H1 H2).
Defined.

(** X7. On a string of ASCII bytes, [prefixRunes] gives the first [n] bytes
    and [suffixRunes] the last [n]; a prefix and the suffix of what is left
    make the string again. *)
Theorem prefix_suffix_of_ascii (s : string) (n : Z) :
  ascii_only (list_ascii_of_string s) ->
  prefixRunes s n = string_of_list_ascii (take (Z.to_nat n) (list_ascii_of_string s))
  /\ suffixRunes s n
     = string_of_list_ascii
         (drop (length (list_ascii_of_string s) - Z.to_nat n) (list_ascii_of_string s))
  /\ (0 <= n <= len_string s ->
      (prefixRunes s n ++ suffixRunes s (len_string s - n))%string = s).
Proof.
  intros Hs. rewrite !prefixRunes_ascii, !suffixRunes_ascii by done.
  split; [done|]. split; [done|]. intros Hn.
  rewrite <- string_of_list_ascii_app. unfold len_string in *.
  rewrite <- (string_of_list_ascii_of_string s), string_length_of_list in Hn |- *.
  rewrite list_ascii_of_string_of_list_ascii.
  set (p := list_ascii_of_string s) in *.
  replace (length p - Z.to_nat (Z.of_nat (length p) - n))%nat with (Z.to_nat n) by lia.
  by rewrite take_drop.
Qed.

Lemma prefix_suffix_of_ascii_witness :
  ascii_only (list_ascii_of_string "ABCDEFGHIJ")
  /\ prefixRunes "ABCDEFGHIJ" 3 = "ABC"%string
  /\ suffixRunes "ABCDEFGHIJ" 3 = "HIJ"%string
  /\ (0 <= 3 <= len_string "ABCDEFGHIJ" ->
      (prefixRunes "ABCDEFGHIJ" 3 ++ suffixRunes "ABCDEFGHIJ" (len_string "ABCDEFGHIJ" - 3))%string
      = "ABCDEFGHIJ"%string).
Proof.
  assert (H1 : ascii_only (list_ascii_of_string "ABCDEFGHIJ")).
  { repeat constructor. }
  split; [exact H1|].
  exact (prefix_suffix_of_ascii "ABCDEFGHIJ" 3 H1).
Defined.

(** ** The text functions on every input *)

Section text_general.
Import utf8.

(** *** The width of an encoded rune *)

Lemma byte_val_to_byte v : byte_val (to_byte v) = Z.land v 0xFF.
Proof.
  unfold byte_val, to_byte.
  assert (H : 0 <= Z.land v 0xFF < 256).
  { change 0xFF with (Z.ones 8). rewrite Z.land_ones by lia.
    apply Z.mod_pos_bound. lia. }
  rewrite N_ascii_embedding by lia. lia.
Qed.

(** A property of the integers from [lo] on, checked one by one. *)
Lemma range_check (f : Z -> bool) (lo : Z) (n : nat) :
  forallb f (map (fun k => lo + Z.of_nat k) (seq 0 n)) = true ->
  forall a, lo <= a < lo + Z.of_nat n -> f a = true.
Proof.
  intros H a Ha. rewrite forallb_forall in H. apply H.
  apply in_map_iff. exists (Z.to_nat (a - lo)). split; [lia|].
  apply in_seq. lia.
Qed.

Lemma land_maskx_range x : 0 <= Z.land x maskx <= 63.
Proof.
  assert (E : Z.land x maskx = x mod 64) by (apply (Z.land_ones x 6); lia).
  rewrite E. pose proof (Z.mod_pos_bound x 64 ltac:(lia)). lia.
Qed.

(** A continuation byte, as [EncodeRune] writes it. *)
Lemma continuation_byte x :
  0x80 <= byte_val (to_byte (Z.lor tx (Z.land x maskx))) <= 0xBF.
Proof.
  rewrite byte_val_to_byte. pose proof (land_maskx_range x) as Hr.
  set (b := Z.land x maskx) in *. clearbody b.
  assert (H : ((0x80 <=? Z.land (Z.lor tx b) 0xFF)
               && (Z.land (Z.lor tx b) 0xFF <=? 0xBF)) = true).
  { apply (range_check (fun b => (0x80 <=? Z.land (Z.lor tx b) 0xFF)
                                 && (Z.land (Z.lor tx b) 0xFF <=? 0xBF)) 0 64);
      [by vm_compute|lia]. }
  zbool. lia.
Qed.

(** [DecodeRune] accepts an encoding whose bytes are in the ranges of its
    first byte. *)
Lemma DecodeRune_accepts p :
  let p0 := at_ p 0 in
  let sz := Z.land (first p0) 7 in
  let lo := fst (acceptRanges (Z.shiftr (first p0) 4)) in
  let hi := snd (acceptRanges (Z.shiftr (first p0) 4)) in
  0xC2 <= p0 <= 0xF4 -> sz <= len p ->
  lo <= at_ p 1 <= hi ->
  (3 <= sz -> 0x80 <= at_ p 2 <= 0xBF) ->
  (4 <= sz -> 0x80 <= at_ p 3 <= 0xBF) ->
  snd (DecodeRune p) = sz.
Proof.
  intros p0 sz lo hi Hp0 Hlen H1 H2 H3.
  pose proof (at_range p 0) as Hr. fold p0 in Hr.
  destruct (first_class p0 Hr) as [[Hx Hb]|[[Hx Hb]|(Hx & Hb & Hsz & Hlo & Hhi)]].
  - exfalso. lia.
  - exfalso. unfold sz in Hlen. revert Hlen H1. unfold lo, hi. rewrite Hx.
    change (fst (acceptRanges (Z.shiftr xx 4))) with 0.
    change (snd (acceptRanges (Z.shiftr xx 4))) with 0.
    intros _ H1. unfold first in Hx. revert Hx.
    split_ifs; intros Hx; first [lia | vm_compute in Hx; congruence].
  - fold sz lo hi in Hsz, Hlo, Hhi.
    assert (Hn : 1 <= len p) by lia.
    unfold DecodeRune. fold p0. cbv zeta.
    destruct (len p <? 1) eqn:E; [zbool; lia|].
    destruct (as_ <=? first p0) eqn:E0; [zbool; lia|].
    fold sz lo hi. unfold locb, hicb.
    split_ifs; simpl; lia.
Qed.

Lemma DecodeRune_lead sz p :
  lead_ok sz (at_ p 0) (at_ p 1) = true -> sz <= len p ->
  (3 <= sz -> 0x80 <= at_ p 2 <= 0xBF) ->
  (4 <= sz -> 0x80 <= at_ p 3 <= 0xBF) ->
  snd (DecodeRune p) = sz.
Proof.
  unfold lead_ok. intros H Hlen H2 H3. zbool. subst sz.
  apply DecodeRune_accepts; try done; lia.
Qed.

Lemma shiftr_div r k : 0 <= k -> Z.shiftr r k = r / 2 ^ k.
Proof. intros Hk. by apply Z.shiftr_div_pow2. Qed.

(** The leading bytes of the encodings of two, three and four bytes. *)
Lemma lead2 r :
  0x80 <= r <= rune2Max ->
  lead_ok 2 (Z.land (Z.lor t2 (Z.shiftr r 6)) 0xFF)
            (Z.land (Z.lor tx (Z.land r maskx)) 0xFF) = true.
Proof.
  intros Hr. unfold rune2Max in Hr.
  apply (range_check
           (fun r => lead_ok 2 (Z.land (Z.lor t2 (Z.shiftr r 6)) 0xFF)
                               (Z.land (Z.lor tx (Z.land r maskx)) 0xFF))
           0x80 1920); [by vm_compute|lia].
Qed.

Lemma lead3 r :
  rune2Max < r <= rune3Max -> ~ (surrogateMin <= r <= surrogateMax) ->
  lead_ok 3 (Z.land (Z.lor t3 (Z.shiftr r 12)) 0xFF)
            (Z.land (Z.lor tx (Z.land (Z.shiftr r 6) maskx)) 0xFF) = true.
Proof.
  intros Hr Hs. unfold rune2Max, rune3Max, surrogateMin, surrogateMax in *.
  assert (E : Z.shiftr r 12 = Z.shiftr (Z.shiftr r 6) 6)
    by (by rewrite Z.shiftr_shiftr by lia).
  rewrite E. rewrite (shiftr_div r 6) by lia. change (2 ^ 6) with 64.
  pose proof (Z_div_mod_eq_full r 64) as Hd. pose proof (Z.mod_pos_bound r 64) as Hm.
  set (m := r / 64) in *. clearbody m.
  set (f := fun m => lead_ok 3 (Z.land (Z.lor t3 (Z.shiftr m 6)) 0xFF)
                               (Z.land (Z.lor tx (Z.land m maskx)) 0xFF)).
  change (f m = true).
  destruct (Z_lt_le_dec m 0x360) as [Hlo|Hhi].
  - apply (range_check f 0x20 832); [by vm_compute|lia].
  - apply (range_check f 0x380 128); [by vm_compute|lia].
Qed.

Lemma lead4 r :
  rune3Max < r <= MaxRune ->
  lead_ok 4 (Z.land (Z.lor t4 (Z.shiftr r 18)) 0xFF)
            (Z.land (Z.lor tx (Z.land (Z.shiftr r 12) maskx)) 0xFF) = true.
Proof.
  intros Hr. unfold rune3Max, MaxRune in *.
  assert (E : Z.shiftr r 18 = Z.shiftr (Z.shiftr r 12) 6)
    by (by rewrite Z.shiftr_shiftr by lia).
  rewrite E. rewrite (shiftr_div r 12) by lia. change (2 ^ 12) with 4096.
  pose proof (Z_div_mod_eq_full r 4096) as Hd.
  pose proof (Z.mod_pos_bound r 4096) as Hm.
  set (m := r / 4096) in *. clearbody m.
  set (f := fun m => lead_ok 4 (Z.land (Z.lor t4 (Z.shiftr m 6)) 0xFF)
                               (Z.land (Z.lor tx (Z.land m maskx)) 0xFF)).
  change (f m = true).
  apply (range_check f 0x10 256); [by vm_compute|lia].
Qed.

Lemma encode3_size r :
  rune2Max < r <= rune3Max -> ~ (surrogateMin <= r <= surrogateMax) ->
  snd (DecodeRune (encode3 r)) = 3.
Proof.
  intros Hr Hs. apply DecodeRune_lead.
  - unfold encode3, at_. simpl. rewrite !byte_val_to_byte. by apply lead3.
  - unfold encode3, len. simpl. lia.
  - intros _. unfold encode3, at_. simpl. apply continuation_byte.
  - intros H. lia.
Qed.

(** [DecodeRune] reads back the whole of what [EncodeRune] writes, for
    every integer: the width of the rune decoded is the length of the
    encoding. *)
Lemma EncodeRune_size r :
  1 <= len (EncodeRune r) /\ snd (DecodeRune (EncodeRune r)) = len (EncodeRune r).
Proof.
  unfold EncodeRune.
  destruct ((0 <=? r) && (r <=? rune1Max)) eqn:E1.
  { zbool. unfold rune1Max in *. split; [unfold len; simpl; lia|].
    assert (Hb : byte_val (to_byte r) = r).
    { rewrite byte_val_to_byte. change 0xFF with (Z.ones 8).
      rewrite Z.land_ones by lia. change (2 ^ 8) with 256.
      apply Z.mod_small. lia. }
    rewrite DecodeRune_ascii; [done|]. rewrite Hb. unfold RuneSelf. lia. }
  destruct ((0 <=? r) && (r <=? rune2Max)) eqn:E2.
  { assert (Hr : 0x80 <= r <= rune2Max).
    { unfold rune1Max, rune2Max in *. zbool. destruct E1; zbool; lia. }
    split; [unfold len; simpl; lia|]. transitivity 2; [|reflexivity].
    apply DecodeRune_lead.
    - unfold at_. simpl. rewrite !byte_val_to_byte. by apply lead2.
    - unfold len. simpl. lia.
    - intros H. lia.
    - intros H. lia. }
  destruct ((r <? 0) || (MaxRune <? r) || ((surrogateMin <=? r) && (r <=? surrogateMax)))
    eqn:E3.
  { split; [unfold len; simpl; lia|]. reflexivity. }
  assert (Hr : rune2Max < r <= MaxRune /\ ~ (surrogateMin <= r <= surrogateMax)).
  { unfold rune1Max, rune2Max, MaxRune, surrogateMin, surrogateMax in *. zbool.
    split; [destruct E2; zbool; lia|]. destruct H0; zbool; lia. }
  destruct Hr as [Hr Hs].
  destruct (r <=? rune3Max) eqn:E4; zbool.
  { split; [unfold encode3, len; simpl; lia|].
    rewrite encode3_size by (done || lia). reflexivity. }
  split; [unfold len; simpl; lia|]. transitivity 4; [|reflexivity].
  apply DecodeRune_lead.
  - unfold at_. simpl. rewrite !byte_val_to_byte. apply lead4. lia.
  - unfold len. simpl. lia.
  - intros _. unfold at_. simpl. apply continuation_byte.
  - intros _. unfold at_. simpl. apply continuation_byte.
Qed.

Lemma DecodeRune_EncodeRune_app r q :
  snd (DecodeRune (EncodeRune r ++ q)) = len (EncodeRune r).
Proof.
  destruct (EncodeRune_size r) as [Hlen Hsize].
  destruct (Z.eq_dec (len (EncodeRune r)) 1) as [E|E].
  - destruct (EncodeRune r) as [|c [|c' l]] eqn:Hr; unfold len in E; simpl in E; try lia.
    destruct (DecodeRune_cases [c] ltac:(done)) as [[Hc _]|[[Hc Hd]|H]].
    + rewrite at_0_cons in Hc. simpl. rewrite DecodeRune_ascii; [done|].
      unfold RuneSelf. lia.
    + exfalso. revert Hr. unfold EncodeRune. rewrite at_0_cons in Hc.
      split_ifs; try discriminate. intros [= <-].
      unfold rune1Max in *. rewrite byte_val_to_byte in Hc.
      change 0xFF with (Z.ones 8) in Hc. rewrite Z.land_ones in Hc by lia.
      change (2 ^ 8) with 256 in Hc. rewrite Z.mod_small in Hc by lia. lia.
    + exfalso. destruct H as (_ & Hsz & Hl & _). unfold len in Hl. simpl in Hl. lia.
  - rewrite DecodeRune_extend; [done|]. lia.
Qed.

(** Each rune written by [string(rs)] counts as one rune. *)
Lemma RuneCount_encoded (l : list Z) (q : list ascii) :
  RuneCount (concat (map EncodeRune l) ++ q) = Z.of_nat (length l) + RuneCount q.
Proof.
  induction l as [|r l IH]; [simpl; lia|].
  cbn [map concat length]. rewrite <- app_assoc.
  destruct (EncodeRune_size r) as [Hlen _].
  rewrite RuneCount_step.
  - rewrite DecodeRune_EncodeRune_app. unfold slice_from, len.
    rewrite Nat2Z.id, drop_app_length, IH. lia.
  - intros E. apply (f_equal (@length ascii)) in E. rewrite length_app in E.
    unfold len in Hlen. simpl in E. lia.
Qed.

Lemma RuneCount_string_of_runes (l : list Z) :
  RuneCountInString (string_of_runes l) = Z.of_nat (length l).
Proof.
  unfold RuneCountInString, string_of_runes. rewrite list_ascii_of_string_of_list_ascii.
  rewrite <- (app_nil_r (concat _)), RuneCount_encoded, RuneCount_nil. lia.
Qed.

(** *** [prefixRunes]: the runes that start below a byte index *)

Lemma decodeFrom_ge fuel : forall i p,
  Forall (fun ir => i <= fst ir) (decodeFrom fuel i p).
Proof.
  induction fuel as [|fuel IH]; intros i p; [by constructor|].
  destruct p as [|c p]; [by constructor|]. cbn [decodeFrom].
  pose proof (DecodeRune_size (c :: p) ltac:(done)) as [Hs _].
  destruct (DecodeRune (c :: p)) as [r size]. cbn [snd] in Hs.
  constructor; [simpl; lia|].
  eapply Forall_impl; [apply IH|]. intros ir Hir. simpl in Hir. lia.
Qed.

Lemma filter_below_nil (n : Z) (l : list (Z * Z)) :
  Forall (fun ir => n <= fst ir) l -> filter (fun ir => fst ir < n) l = [].
Proof.
  induction 1 as [|ir l Hir _ IH]; [done|].
  rewrite filter_cons_False by lia. done.
Qed.

Lemma prefixRunes_loop_filter fuel : forall i p n acc,
  prefixRunes_loop (decodeFrom fuel i p) n acc
  = acc ++ map snd (filter (fun ir => fst ir < n) (decodeFrom fuel i p)).
Proof.
  induction fuel as [|fuel IH]; intros i p n acc; [by rewrite app_nil_r|].
  destruct p as [|c p]; [by rewrite app_nil_r|].
  pose proof (decodeFrom_ge (S fuel) i (c :: p)) as Hge. revert Hge.
  cbn [decodeFrom]. destruct (DecodeRune (c :: p)) as [r size]. intros Hge.
  cbn [prefixRunes_loop]. destruct (n <=? i) eqn:E; zbool.
  - rewrite filter_below_nil; [by rewrite app_nil_r|].
    eapply Forall_impl; [exact Hge|]. intros ir Hir. simpl in Hir. lia.
  - rewrite filter_cons_True by (simpl; lia). rewrite IH.
    cbn [map snd]. by rewrite <- app_assoc.
Qed.

(** The runes kept are the first ones of the string. *)
Lemma filter_below_take fuel : forall i p n,
  filter (fun ir => fst ir < n) (decodeFrom fuel i p)
  = take (length (filter (fun ir => fst ir < n) (decodeFrom fuel i p)))
         (decodeFrom fuel i p).
Proof.
  induction fuel as [|fuel IH]; intros i p n; [done|].
  destruct p as [|c p]; [done|].
  pose proof (decodeFrom_ge (S fuel) i (c :: p)) as Hge. revert Hge.
  cbn [decodeFrom]. destruct (DecodeRune (c :: p)) as [r size]. intros Hge.
  destruct (Z_lt_le_dec i n) as [Hlt|Hle].
  - rewrite filter_cons_True by (simpl; lia). cbn [length take]. f_equal. apply IH.
  - rewrite filter_below_nil; [done|].
    eapply Forall_impl; [exact Hge|]. intros ir Hir. simpl in Hir. lia.
Qed.

(** Between [n/4] and [n] runes start below byte [n]. *)
Lemma filter_below_count fuel : forall i p n,
  (length p <= fuel)%nat -> i <= n <= i + len p ->
  let k := Z.of_nat (length (filter (fun ir => fst ir < n) (decodeFrom fuel i p))) in
  k <= n - i <= 4 * k.
Proof.
  induction fuel as [|fuel IH]; intros i p n Hf Hn.
  - destruct p; [|simpl in Hf; lia]. unfold len in Hn. simpl in *. lia.
  - destruct p as [|c p]; [unfold len in Hn; simpl in *; lia|].
    pose proof (DecodeRune_size (c :: p) ltac:(done)) as [Hs Hs'].
    cbn [decodeFrom]. destruct (DecodeRune (c :: p)) as [r size]. cbn [snd] in Hs, Hs'.
    pose proof (decodeFrom_ge fuel (i + size) (slice_from (c :: p) size)) as Hge.
    assert (Hl : len (slice_from (c :: p) size) = len (c :: p) - size)
      by (apply len_drop; lia).
    destruct (Z_lt_le_dec i n) as [Hlt|Hle].
    + rewrite filter_cons_True by (simpl; lia). cbn [length].
      destruct (Z_lt_le_dec (i + size) n) as [Hin|Hout].
      * specialize (IH (i + size) (slice_from (c :: p) size) n).
        cbv zeta in IH.
        assert (Hf' : (length (slice_from (c :: p) size) <= fuel)%nat)
          by (unfold len in *; lia).
        specialize (IH Hf' ltac:(lia)). lia.
      * rewrite filter_below_nil; [simpl; lia|].
        eapply Forall_impl; [exact Hge|]. intros ir Hir. simpl in Hir. lia.
    + rewrite filter_below_nil; [simpl; lia|].
      constructor; [simpl; lia|].
      eapply Forall_impl; [exact Hge|]. intros ir Hir. simpl in Hir. lia.
Qed.

Lemma decodeFrom_length_le fuel : forall i p,
  (length (decodeFrom fuel i p) <= length p)%nat.
Proof.
  induction fuel as [|fuel IH]; intros i p; [simpl; lia|].
  destruct p as [|c p]; [done|].
  pose proof (DecodeRune_size (c :: p) ltac:(done)) as [Hs Hs'].
  cbn [decodeFrom]. destruct (DecodeRune (c :: p)) as [r size]. cbn [snd] in Hs, Hs'.
  cbn [length]. specialize (IH (i + size) (slice_from (c :: p) size)).
  assert (Hl : len (slice_from (c :: p) size) = len (c :: p) - size)
    by (apply len_drop; lia).
  unfold len in Hl. simpl in *. lia.
Qed.

(** *** [suffixRunes]: the last runes *)

Lemma suffixRunes_loop_last fuel : forall b count n acc,
  (length b < fuel)%nat ->
  suffixRunes_loop fuel b count n acc
  = acc ++ rev (drop (length (runes b) - Z.to_nat (n - count)) (runes b)).
Proof.
  induction fuel as [|fuel IH]; intros b count n acc Hf; [lia|].
  cbn [suffixRunes_loop].
  destruct ((count <? n) && (0 <? len b)) eqn:E; zbool.
  - assert (Hb : b <> []) by (intros ->; unfold len in *; simpl in *; lia).
    pose proof (runes_last b Hb) as Hr.
    pose proof (DecodeLastRune_size b Hb) as Hs.
    destruct (DecodeLastRune b) as [r size]. cbn [fst snd] in Hr, Hs.
    rewrite IH.
    + rewrite Hr, length_app. simpl length.
      set (R := runes (slice_to b (len b - size))).
      replace (length R + 1 - Z.to_nat (n - count))%nat
        with (length R - Z.to_nat (n - (count + 1)))%nat by lia.
      rewrite drop_app_le by lia. rewrite rev_app_distr. simpl.
      by rewrite <- app_assoc.
    + unfold slice_to. rewrite length_take. unfold len in *. lia.
  - destruct E as [E|E]; zbool.
    + replace (Z.to_nat (n - count)) with 0%nat by lia.
      rewrite Nat.sub_0_r, drop_all. by rewrite app_nil_r.
    + assert (b = []) as -> by (apply len_0; pose proof (len_nonneg b); lia).
      rewrite runes_nil, drop_nil. by rewrite app_nil_r.
Qed.

Lemma length_bytes (s : string) : length (list_ascii_of_string s) = String.length s.
Proof. induction s as [|c s IH]; [done|]. simpl. by rewrite IH. Qed.

Lemma prefixRunes_runes (s : string) (n : Z) :
  let k := length (filter (fun ir => fst ir < n) (range s)) in
  prefixRunes s n = string_of_runes (take k (runes (list_ascii_of_string s)))
  /\ length (take k (runes (list_ascii_of_string s))) = k.
Proof.
  intros k. unfold prefixRunes. unfold k, range, runes.
  set (b := list_ascii_of_string s).
  rewrite prefixRunes_loop_filter. cbn [app].
  rewrite filter_below_take at 1. rewrite <- firstn_map. split; [done|].
  rewrite length_take, length_map.
  pose proof (length_filter (fun ir : Z * Z => fst ir < n) (decodeFrom (length b) 0 b)).
  lia.
Qed.

Lemma suffixRunes_runes (s : string) (n : Z) :
  let rs := runes (list_ascii_of_string s) in
  suffixRunes s n = string_of_runes (drop (length rs - Z.to_nat n) rs).
Proof.
  intros rs. unfold suffixRunes.
  rewrite suffixRunes_loop_last by lia. cbn [app]. rewrite rev_involutive.
  by rewrite Z.sub_0_r.
Qed.

End text_general.

(** X27. [prefixRunes(s, n)] holds the runes of [s] that start at a byte
    index below [n], which are the first [k] runes of [s] for some [k]; it
    has [k] runes itself, and for [0 <= n <= len(s)] between [n/4] and [n]
    of them: the limit counts bytes of the input, not runes. *)
Theorem prefixRunes_by_byte_index (s : string) (n : Z) :
  let k := length (filter (fun ir => fst ir < n) (utf8.range s)) in
  prefixRunes s n = utf8.string_of_runes (take k (runes (list_ascii_of_string s)))
  /\ utf8.RuneCountInString (prefixRunes s n) = Z.of_nat k
  /\ (0 <= n <= len_string s -> Z.of_nat k <= n <= 4 * Z.of_nat k).
Proof.
  intros k. destruct (prefixRunes_runes s n) as [Hp Hk]. fold k in Hp, Hk.
  split; [done|]. split.
  - rewrite Hp, RuneCount_string_of_runes. by rewrite Hk.
  - intros Hn. unfold len_string in Hn. rewrite <- length_bytes in Hn.
    pose proof (filter_below_count (length (list_ascii_of_string s)) 0
                  (list_ascii_of_string s) n ltac:(lia)) as H.
    cbv zeta in H. unfold utf8.len in H. specialize (H ltac:(lia)).
    unfold k, utf8.range. lia.
Qed.

Lemma prefixRunes_by_byte_index_witness :
  let s := "ééééé"%string in
  let k := length (filter (fun ir => fst ir < 2) (utf8.range s)) in
  0 <= 2 <= len_string s
  /\ prefixRunes s 2 = utf8.string_of_runes (take k (runes (list_ascii_of_string s)))
  /\ utf8.RuneCountInString (prefixRunes s 2) = Z.of_nat k
  /\ Z.of_nat k <= 2 <= 4 * Z.of_nat k.
Proof.
  intros s k.
  assert (H : 0 <= 2 <= len_string s) by (by vm_compute).
  split; [exact H|].
  destruct (prefixRunes_by_byte_index s 2) as (H1 & H2 & H3).
  split; [exact H1|]. split; [exact H2|]. exact (H3 H).
Defined.

(** X28. [suffixRunes(s, n)] is the last [n] runes of [s], all of them
    when [s] has fewer and none for [n <= 0]: the limit counts runes. *)
Theorem suffixRunes_takes_last_runes (s : string) (n : Z) :
  let rs := runes (list_ascii_of_string s) in
  suffixRunes s n = utf8.string_of_runes (drop (length rs - Z.to_nat n) rs)
  /\ utf8.RuneCountInString (suffixRunes s n)
     = Z.max 0 (Z.min n (utf8.RuneCountInString s)).
Proof.
  intros rs. pose proof (suffixRunes_runes s n) as Hs. fold rs in Hs.
  split; [done|]. rewrite Hs, RuneCount_string_of_runes, length_drop.
  unfold utf8.RuneCountInString. rewrite RuneCount_runes. fold rs. lia.
Qed.

(** X29. An excerpt never has more runes than the width, for a width of
    at least 1, and at most one rune for a smaller width; when the string has
    more runes than the width [w >= 1], the excerpt has [k + (w - w/2)]
    runes, the ellipsis included, for a number [k] of prefix runes with
    [k <= w/2 <= 4k]. *)
Theorem Excerpt_rune_count (s : string) (w : Z) :
  utf8.RuneCountInString (Excerpt s w) <= Z.max 1 w
  /\ (1 <= w < utf8.RuneCountInString s ->
      exists k, k <= w / 2 <= 4 * k
                /\ utf8.RuneCountInString (Excerpt s w) = k + (w - w / 2)).
Proof.
  set (b := list_ascii_of_string s).
  assert (Hcnt : utf8.RuneCountInString s <= utf8.len b).
  { unfold utf8.RuneCountInString, utf8.RuneCount, utf8.len. fold b.
    pose proof (decodeFrom_length_le (length b) 0 b). lia. }
  unfold Excerpt.
  destruct (utf8.RuneCountInString s <=? w) eqn:E; zbool; [split; lia|].
  set (p := Z.quot w 2).
  set (q := if (w <=? utf8.RuneCountInString s) && (Z.rem w 2 =? 0) then p - 1 else p).
  destruct (prefixRunes_runes s p) as [HP Hk].
  set (k := length (filter (fun ir => fst ir < p) (utf8.range s))) in *.
  pose proof (suffixRunes_runes s q) as HS. cbv zeta in HS. fold b in HS, HP, Hk.
  set (rs := runes b) in *.
  assert (Hrs : utf8.RuneCountInString s = Z.of_nat (length rs)).
  { unfold utf8.RuneCountInString. by rewrite RuneCount_runes. }
  assert (Hcount : utf8.RuneCountInString
                     (prefixRunes s p ++ EllipsisRune ++ suffixRunes s q)
                   = Z.of_nat k + 1 + Z.max 0 (Z.min q (Z.of_nat (length rs)))).
  { unfold utf8.RuneCountInString. rewrite !list_ascii_of_string_app.
    rewrite HP. unfold utf8.string_of_runes at 1.
    rewrite list_ascii_of_string_of_list_ascii, RuneCount_encoded, Hk.
    rewrite RuneCount_ellipsis.
    change (utf8.RuneCount (list_ascii_of_string (suffixRunes s q)))
      with (utf8.RuneCountInString (suffixRunes s q)).
    rewrite HS, RuneCount_string_of_runes, length_drop. lia. }
  rewrite Hcount.
  destruct (Z_lt_le_dec w 1) as [Hw|Hw].
  - split; [|lia].
    assert (Hp : p <= 0).
    { unfold p. apply Z_quot2_le0. lia. }
    assert (Hq : q <= 0) by (unfold q; destruct (_ && _); lia).
    assert (Hk0 : k = 0%nat).
    { unfold k, utf8.range. rewrite filter_below_nil; [done|].
      eapply Forall_impl; [apply decodeFrom_ge|]. intros ir Hir. simpl in Hir. lia. }
    lia.
  - assert (Hpd : p = w / 2) by (unfold p; apply Z.quot_div_nonneg; lia).
    assert (Hrem : Z.rem w 2 = w mod 2) by (apply Z.rem_mod_nonneg; lia).
    pose proof (Z_div_mod_eq_full w 2) as Hd. pose proof (Z.mod_pos_bound w 2) as Hm.
    assert (Hq : q + 1 = w - p /\ 0 <= q).
    { unfold q. rewrite Hrem.
      destruct (w <=? utf8.RuneCountInString s) eqn:E1; zbool; [|lia].
      destruct (w mod 2 =? 0) eqn:E2; zbool; simpl; lia. }
    pose proof (filter_below_count (length b) 0 b p ltac:(lia)) as Hb.
    cbv zeta in Hb. specialize (Hb ltac:(lia)).
    change (utf8.decodeFrom (length b) 0 b) with (utf8.range s) in Hb. fold k in Hb.
    split; [lia|]. intros _. exists (Z.of_nat k). rewrite <- Hpd. lia.
Qed.

Lemma Excerpt_rune_count_witness :
  let s := "ééééé"%string in
  1 <= 4 < utf8.RuneCountInString s
  /\ exists k, k <= 4 / 2 <= 4 * k
               /\ utf8.RuneCountInString (Excerpt s 4) = k + (4 - 4 / 2).
Proof.
  intros s.
  assert (H : 1 <= 4 < utf8.RuneCountInString s) by (by vm_compute).
  split; [exact H|]. exact (proj2 (Excerpt_rune_count s 4) H).
Defined.

(** ** More of the structured errors of [serr.go] *)

Section serr_more.
Import serr.

(** *** Stores stay well formed *)

Lemma wf_alloc_errorString (h : heap) m :
  wf h -> wf (h ++ [errorString m]).
Proof.
  intros Hwf a v Ha.
  apply lookup_app_Some in Ha as [Ha|[_ Ha]].
  - destruct (Hwf _ _ Ha) as [[m' (e & He & Hm)] Hc]. split.
    + exists m', e. split; [done|]. by apply lookup_app_l_Some.
    + intros c Hcv. destruct (Hc c Hcv) as [o Ho]. exists o. by apply lookup_app_l_Some.
  - apply list_lookup_singleton_Some in Ha as [_ Ha]. discriminate.
Qed.

Lemma wf_alloc_sError (h : heap) v :
  wf h -> (exists m, plain_base h v m) -> (forall c, err v = Some c -> (c <= length h)%nat) ->
  wf (h ++ [sErrorObj v]).
Proof.
  intros Hwf [m (e & He & Hm)] Hcv a w Ha.
  assert (Hsome : forall c, (c <= length h)%nat -> is_Some ((h ++ [sErrorObj v]) !! c)).
  { intros c Hc. apply lookup_lt_is_Some. rewrite length_app. simpl. lia. }
  apply lookup_app_Some in Ha as [Ha|[_ Ha]].
  - destruct (Hwf _ _ Ha) as [[m' (e' & He' & Hm')] Hc]. split.
    + exists m', e'. split; [done|]. by apply lookup_app_l_Some.
    + intros c Hcw. apply Hsome. destruct (Hc c Hcw) as [o Ho].
      apply lookup_lt_Some in Ho. lia.
  - apply list_lookup_singleton_Some in Ha as [_ Ha]. injection Ha as <-. split.
    + exists m, e. split; [done|]. by apply lookup_app_l_Some.
    + intros c Hc. apply Hsome. by apply Hcv.
Qed.

Lemma wf_store (h : heap) se v v' :
  wf h -> h !! se = Some (sErrorObj v) -> error_ v' = error_ v ->
  (forall c, err v' = Some c -> is_Some (h !! c)) ->
  wf (<[se := sErrorObj v']> h).
Proof.
  intros Hwf Hse Hb Hcv a w Ha.
  assert (Hkeep : forall e m, h !! e = Some (errorString m) ->
            <[se := sErrorObj v']> h !! e = Some (errorString m)).
  { intros e m He. rewrite list_lookup_insert_ne; [done|]. intros ->. congruence. }
  assert (Hsome : forall c, is_Some (h !! c) -> is_Some (<[se := sErrorObj v']> h !! c)).
  { intros c Hc. apply lookup_lt_is_Some. rewrite length_insert.
    by apply lookup_lt_is_Some. }
  destruct (decide (a = se)) as [->|Hne].
  - rewrite list_lookup_insert_eq in Ha by (by eapply lookup_lt_Some).
    injection Ha as <-. destruct (Hwf _ _ Hse) as [[m (e & He & Hm)] Hc]. split.
    + exists m, e. split; [congruence|eauto].
    + eauto.
  - rewrite list_lookup_insert_ne in Ha by done.
    destruct (Hwf _ _ Ha) as [[m (e & He & Hm)] Hc]. split.
    + exists m, e. eauto.
    + eauto.
Qed.

Lemma plain_base_store (h : heap) se w v m :
  h !! se = Some (sErrorObj w) -> plain_base h v m ->
  forall w', plain_base (<[se := sErrorObj w']> h) v m.
Proof.
  intros Hse (e & He & Hm) w'. exists e. split; [done|].
  rewrite list_lookup_insert_ne; [done|]. intros ->. congruence.
Qed.

(** The store after [se] has been given the fields [v'] and has been
    clone-wrapped. *)
Lemma wf_store_clone (h : heap) se v v' :
  wf h -> h !! se = Some (sErrorObj v) -> error_ v' = error_ v ->
  (forall c, err v' = Some c -> is_Some (h !! c)) ->
  wf (<[se := sErrorObj v']> h ++ [sErrorObj (clone_wrap_of se v')]).
Proof.
  intros Hwf Hse Hb Hcv.
  assert (Hlt : (se < length h)%nat) by (by eapply lookup_lt_Some).
  apply wf_alloc_sError.
  - by eapply wf_store.
  - destruct (Hwf _ _ Hse) as [[m Hm] _]. exists m.
    eapply plain_base_store; [done|]. destruct Hm as (e & He & Hm). exists e.
    split; [simpl; congruence|done].
  - simpl. intros c [= <-]. rewrite length_insert. lia.
Qed.

Lemma New_Ok (h : heap) msg :
  New msg h
  = Ok (S (length h),
        (h ++ [errorString msg])
          ++ [sErrorObj {| error_ := Some (length h); err := nil; args := [];
                           validArgs := []; recurs := []; sealed := false;
                           locked := false; cloneWrapped := false |}]).
Proof.
  unfold New, errors_New, alloc, bind, ret. rewrite length_app. simpl.
  by rewrite Nat.add_1_r.
Qed.

Lemma wf_New (h : heap) msg r h' :
  wf h -> New msg h = Ok (r, h') -> wf h'.
Proof.
  intros Hwf. rewrite New_Ok. intros [= <- <-].
  apply wf_alloc_sError.
  - by apply wf_alloc_errorString.
  - exists msg, (length h). split; [done|]. by rewrite lookup_app_r, Nat.sub_diag.
  - simpl. discriminate.
Qed.

(** *** What a builder that returns has done *)

Lemma bind_inv {S A B} (m : M S A) (k : A -> M S B) h b h' :
  bind m k h = Ok (b, h') -> exists a h1, m h = Ok (a, h1) /\ k a h1 = Ok (b, h').
Proof. unfold bind. destruct (m h) as [[a h1]| | |]; [eauto|done..]. Qed.

Lemma load_inv (h : heap) se v h' :
  load se h = Ok (v, h') -> h' = h /\ h !! se = Some (sErrorObj v).
Proof.
  unfold load. destruct (h !! se) as [[|w]|]; [done| |done]. by intros [= -> ->].
Qed.

Lemma Even_of_rem2 (n : nat) : (Z.rem (Z.of_nat n) 2 =? 0) = true -> Nat.Even n.
Proof.
  intros E. destruct (Nat.Even_or_Odd n) as [|Ho]; [done|].
  rewrite (rem2_odd _ Ho) in E. discriminate.
Qed.

Lemma chkArgs_inv fuel (h : heap) se (n : nat) u h' :
  chkArgs fuel se (Z.of_nat n) h = Ok (u, h') -> h' = h /\ Nat.Even n.
Proof.
  unfold chkArgs. destruct (Z.rem (Z.of_nat n) 2 =? 0) eqn:E; simpl.
  - intros [= _ ->]. split; [done|]. by apply Even_of_rem2.
  - intros H. apply bind_inv in H as (v & h1 & _ & H).
    apply bind_inv in H as (m & h2 & _ & H). discriminate.
Qed.

Lemma Args_inv fuel (h : heap) se a r h' :
  Args fuel se a h = Ok (r, h') ->
  exists v, h !! se = Some (sErrorObj v) /\ Nat.Even (length a)
    /\ r = length h
    /\ h' = <[se := sErrorObj (with_args v a)]> h
            ++ [sErrorObj (clone_wrap_of se (with_args v a))].
Proof.
  intros H. pose proof H as H0. unfold Args in H0.
  apply bind_inv in H0 as (u & h1 & Hc & H0). apply chkArgs_inv in Hc as [-> Hev].
  apply bind_inv in H0 as (v & h1 & Hl & _). apply load_inv in Hl as [-> Hse].
  exists v. rewrite (Args_Ok fuel h se v a Hse Hev) in H. injection H as <- <-. eauto.
Qed.

Lemma Err_inv fuel (h : heap) se c a r h' :
  Err fuel se c a h = Ok (r, h') ->
  exists v, h !! se = Some (sErrorObj v) /\ Nat.Even (length a)
    /\ let v1 := with_args (with_err v c) a in
       (a = [] /\ r = length h
        /\ h' = <[se := sErrorObj (with_err v c)]> h
                ++ [sErrorObj (clone_wrap_of se (with_err v c))])
       \/ (a <> [] /\ r = S (length h)
           /\ h' = <[se := sErrorObj v1]> h
                   ++ [sErrorObj (clone_wrap_of se v1)]
                   ++ [sErrorObj (clone_wrap_of (length h) (clone_wrap_of se v1))]).
Proof.
  intros H. pose proof H as H0. unfold Err in H0.
  apply bind_inv in H0 as (v & h1 & Hl & H0). apply load_inv in Hl as [-> Hse].
  exists v. split; [done|]. destruct a as [|x a].
  - split; [by exists 0%nat|]. left.
    rewrite (Err_Ok_nil fuel h se v c Hse) in H. injection H as <- <-. eauto.
  - apply bind_inv in H0 as (u & h1 & _ & H0).
    apply bind_inv in H0 as (s & h2 & Ha & _).
    change (0 <? Z.of_nat (length (x :: a))) with true in Ha.
    apply Args_inv in Ha as (_ & _ & Hev & _). split; [done|]. right.
    rewrite (Err_Ok_args fuel h se v c (x :: a) Hse) in H by done.
    injection H as <- <-. eauto.
Qed.

Lemma ValidArgs_inv fuel (h : heap) se ks r h' :
  ValidArgs fuel se ks h = Ok (r, h') ->
  exists v, h !! se = Some (sErrorObj v) /\ sealed v = false /\ r = se
    /\ h' = <[se := sErrorObj {| error_ := error_ v; err := err v; args := args v;
                                validArgs := ks; recurs := recurs v; sealed := true;
                                locked := locked v; cloneWrapped := cloneWrapped v |}]> h.
Proof.
  unfold ValidArgs. intros H.
  apply bind_inv in H as (v & h1 & Hl & H). apply load_inv in Hl as [-> Hse].
  exists v. split; [done|]. destruct (sealed v) eqn:Hs.
  - apply bind_inv in H as (u & h1 & H & _).
    apply bind_inv in H as (m & h2 & _ & H). discriminate.
  - apply bind_inv in H as (u & h1 & [= _ <-] & H).
    rewrite (bind_Ok _ _ _ _ _ (load_Ok _ _ _ Hse)) in H.
    injection H as <- <-. eauto.
Qed.

Lemma Cast_inv fuel (h : heap) e a r h' :
  Cast fuel e a h = Ok (r, h') ->
  (e = nil /\ r = nil /\ h' = h)
  \/ (exists s v, e = Some s /\ h !! s = Some (sErrorObj v)
        /\ ((a = [] /\ r = e /\ h' = h)
            \/ (a <> [] /\ exists x, r = Some x /\ Args fuel s a h = Ok (x, h'))))
  \/ (exists s m, e = Some s /\ h !! s = Some (errorString m)
        /\ let w := {| error_ := e; err := nil; args := []; validArgs := [];
                       recurs := []; sealed := false; locked := false;
                       cloneWrapped := false |} in
           (a = [] /\ r = Some (length h) /\ h' = h ++ [sErrorObj w])
           \/ (a <> [] /\ exists x, r = Some x
                 /\ Args fuel (length h) a (h ++ [sErrorObj w]) = Ok (x, h'))).
Proof.
  unfold Cast. destruct e as [s|].
  - unfold errors_As, as_sError. intros H. apply bind_inv in H as (sErr & h1 & H1 & H).
    apply bind_inv in H1 as (found & h2 & Hf & H1).
    destruct (h !! s) as [[m|v]|] eqn:Hs; [| |done]; injection Hf as <- <-.
    + right; right. exists s, m. do 2 (split; [done|]).
      injection H1 as <- <-. destruct a as [|x a]; [left|right].
      * by injection H as <- <-.
      * split; [done|]. change (negb _ && _) with true in H. cbv iota in H.
        apply bind_inv in H as (x' & h3 & Ha & [= <- <-]). eauto.
    + right; left. exists s, v. do 2 (split; [done|]).
      injection H1 as <- <-. destruct a as [|x a]; [left|right].
      * by injection H as <- <-.
      * split; [done|]. change (negb _ && _) with true in H. cbv iota in H.
        apply bind_inv in H as (x' & h3 & Ha & [= <- <-]). eauto.
  - intros H. left. by injection H as <- <-.
Qed.

Lemma plain_base_app (h t : heap) v m :
  plain_base h v m -> plain_base (h ++ t) v m.
Proof. intros (e & He & Hm). exists e. split; [done|]. by apply lookup_app_l_Some. Qed.

Lemma wf_Args fuel (h : heap) se a r h' :
  wf h -> Args fuel se a h = Ok (r, h') -> wf h'.
Proof.
  intros Hwf H. apply Args_inv in H as (v & Hse & _ & _ & ->).
  eapply wf_store_clone; [done..|]. simpl. by apply (Hwf _ _ Hse).
Qed.

Lemma wf_ValidArgs fuel (h : heap) se ks r h' :
  wf h -> ValidArgs fuel se ks h = Ok (r, h') -> wf h'.
Proof.
  intros Hwf H. apply ValidArgs_inv in H as (v & Hse & _ & _ & ->).
  eapply wf_store; [done..|]. simpl. by apply (Hwf _ _ Hse).
Qed.

Lemma wf_Err fuel (h : heap) se c a r h' :
  wf h -> (forall x, c = Some x -> is_Some (h !! x)) ->
  Err fuel se c a h = Ok (r, h') -> wf h'.
Proof.
  intros Hwf Hc H. apply Err_inv in H as (v & Hse & _ & [(_ & _ & ->)|(_ & _ & ->)]).
  - by eapply wf_store_clone.
  - rewrite app_assoc. apply wf_alloc_sError.
    + by eapply wf_store_clone.
    + destruct (Hwf _ _ Hse) as [[m Hm] _]. exists m. apply plain_base_app.
      eapply plain_base_store; [done|]. destruct Hm as (e & He & Hm). by exists e.
    + simpl. intros ? [= <-]. rewrite length_app, length_insert. lia.
Qed.

Lemma wf_Cast fuel (h : heap) e a r h' :
  wf h -> Cast fuel e a h = Ok (r, h') -> wf h'.
Proof.
  intros Hwf H.
  apply Cast_inv in H as [(_ & _ & ->)|[(s & v & _ & Hs & H)|(s & m & -> & Hs & H)]];
    [done| |].
  - destruct H as [(_ & _ & ->)|(_ & x & _ & H)]; [done|]. by eapply wf_Args.
  - assert (Hw : wf (h ++ [sErrorObj {| error_ := Some s; err := nil; args := [];
                      validArgs := []; recurs := []; sealed := false;
                      locked := false; cloneWrapped := false |}])).
    { apply wf_alloc_sError; [done| |done]. by exists m, s. }
    destruct H as [(_ & _ & ->)|(_ & x & _ & H)]; [done|]. by eapply wf_Args.
Qed.

Lemma New_length (h : heap) msg r h' :
  New msg h = Ok (r, h') -> r = S (length h) /\ h `prefix_of` h'.
Proof.
  rewrite New_Ok. intros [= <- <-]. split; [done|]. rewrite <- app_assoc.
  by apply prefix_app_r.
Qed.

Lemma wf_Wrap fuel (h : heap) c msg a r h' :
  wf h -> (forall x, c = Some x -> is_Some (h !! x)) ->
  Wrap fuel c msg a h = Ok (r, h') -> wf h'.
Proof.
  intros Hwf Hc H. unfold Wrap in H.
  apply bind_inv in H as (se & h1 & HN & H).
  apply bind_inv in H as (sErr & h2 & HE & H).
  assert (Hwf1 : wf h1) by (by eapply wf_New).
  assert (Hwf2 : wf h2).
  { eapply wf_Err; [exact Hwf1| |exact HE]. intros x Hx.
    apply New_length in HN as [_ Hp]. destruct (Hc x Hx) as [o Ho].
    exists o. by eapply prefix_lookup_Some. }
  destruct (0 <? Z.of_nat (length a)).
  - by eapply wf_Args.
  - by injection H as <- <-.
Qed.

(** X9. Every builder of the first unit of [serr.go] that returns leaves a
    well-formed store well formed ([New], [Args], [ValidArgs], [Cast], and
    [Err] and [Wrap] for a cause that exists): each structured error still
    embeds a plain error and each cause is still an object. *)
Theorem builders_keep_store_well_formed (fuel : nat) (h : heap) :
  wf h ->
  (forall msg r h', New msg h = Ok (r, h') -> wf h')
  /\ (forall se a r h', Args fuel se a h = Ok (r, h') -> wf h')
  /\ (forall se ks r h', ValidArgs fuel se ks h = Ok (r, h') -> wf h')
  /\ (forall e a r h', Cast fuel e a h = Ok (r, h') -> wf h')
  /\ (forall se c a r h', (forall x, c = Some x -> is_Some (h !! x)) ->
        Err fuel se c a h = Ok (r, h') -> wf h')
  /\ (forall c msg a r h', (forall x, c = Some x -> is_Some (h !! x)) ->
        Wrap fuel c msg a h = Ok (r, h') -> wf h').
Proof.
  intros Hwf. repeat apply conj; intros.
  - by eapply wf_New.
  - by eapply wf_Args.
  - by eapply wf_ValidArgs.
  - by eapply wf_Cast.
  - by eapply wf_Err.
  - by eapply wf_Wrap.
Qed.

Lemma builders_keep_store_well_formed_witness :
  let h := [errorString "boom";
            sErrorObj (mk_sError (Some 0%nat) None [] [] [] false false false)] in
  wf h
  /\ (forall se c a r h', (forall x, c = Some x -> is_Some (h !! x)) ->
        Err 0 se c a h = Ok (r, h') -> wf h').
Proof.
  intros h.
  assert (Hwf : wf h).
  { intros a v Ha. destruct a as [|[|a]]; simpl in Ha; try discriminate.
    injection Ha as <-. split; [by exists "boom"%string, 0%nat|]. simpl. discriminate. }
  split; [exact Hwf|].
  exact (proj1 (proj2 (proj2 (proj2 (proj2
           (builders_keep_store_well_formed 0 h Hwf)))))).
Defined.

(** *** Rendering *)

(** X8. On every well-formed store, cyclic or not, [Error()] of the first
    unit returns once the fuel exceeds the number of errors that are not being
    rendered already; it leaves the store, the [recurs] lists included, as it
    found it; and the text is the error's own message and attributes, whatever
    its cause is.  [String()] is the message alone, and [IsNil()] is false. *)
Theorem Error_returns_own_text (h : heap) (se : addr) (v : sError) (m : string)
    (fuel : nat) :
  wf h -> h !! se = Some (sErrorObj v) -> plain_base h v m ->
  (unmarked_count h < fuel)%nat ->
  Error fuel se h = Ok ((m +:+ argsString_loop (args v))%string, h)
  /\ String_ fuel se h = Ok (m, h)
  /\ IsNil se h = Ok (false, h).
Proof.
  intros Hwf Hse Hm Hf. split; [by eapply Error_total|].
  destruct Hm as (e & He & Hm). split.
  - unfold String_. rewrite (bind_Ok _ _ _ _ _ (load_Ok _ _ _ Hse)).
    rewrite He. by apply error_Error_errorString.
  - unfold IsNil. rewrite (bind_Ok _ _ _ _ _ (load_Ok _ _ _ Hse)). unfold ret.
    by rewrite He.
Qed.

Lemma Error_returns_own_text_witness :
  let v := mk_sError (Some 0%nat) (Some 1%nat) [AString "k"; AInt 3] [] [] false false false in
  let h := [errorString "loop"; sErrorObj v] in
  wf h /\ h !! 1%nat = Some (sErrorObj v) /\ plain_base h v "loop"
  /\ (unmarked_count h < 2)%nat
  /\ Error 2 1 h = Ok ("loop [k=3]"%string, h)
  /\ String_ 2 1 h = Ok ("loop"%string, h)
  /\ IsNil 1 h = Ok (false, h).
Proof.
  intros v h.
  assert (Hwf : wf h).
  { intros a w Ha. destruct a as [|[|a]]; simpl in Ha; try discriminate.
    injection Ha as <-. split; [by exists "loop"%string, 0%nat|].
    simpl. intros c [= <-]. by exists (sErrorObj v). }
  assert (H1 : h !! 1%nat = Some (sErrorObj v)) by reflexivity.
  assert (H2 : plain_base h v "loop") by (exists 0%nat; split; reflexivity).
  assert (H3 : (unmarked_count h < 2)%nat) by (vm_compute; lia).
  do 4 (split; [done|]).
  exact (Error_returns_own_text h 1%nat v "loop"%string 2 Hwf H1 H2 H3).
Defined.

(** *** What the builders leave alone *)








(** *** [ValidArgs] seals *)

Lemma unmarked_count_le (h : heap) : (unmarked_count h <= length h)%nat.
Proof.
  unfold unmarked_count. etrans; [apply length_filter|]. by rewrite length_seq.
Qed.

Lemma ValidArgs_Ok fuel (h : heap) se v ks :
  h !! se = Some (sErrorObj v) -> sealed v = false ->
  ValidArgs fuel se ks h
  = Ok (se, <[se := sErrorObj {| error_ := error_ v; err := err v; args := args v;
                                 validArgs := ks; recurs := recurs v; sealed := true;
                                 locked := locked v; cloneWrapped := cloneWrapped v |}]> h).
Proof.
  intros Hse Hs. unfold ValidArgs.
  rewrite (bind_Ok _ _ _ _ _ (load_Ok _ _ _ Hse)), Hs.
  unfold bind at 1. unfold ret at 1.
  by rewrite (bind_Ok _ _ _ _ _ (load_Ok _ _ _ Hse)).
Qed.

Lemma ValidArgs_Panic fuel (h : heap) se v m ks :
  wf h -> h !! se = Some (sErrorObj v) -> sealed v = true -> plain_base h v m ->
  (length h < fuel)%nat ->
  ValidArgs fuel se ks h
  = Panic ("SError.ValidArgs() can only be called on an error once: "
           +:+ m +:+ argsString_loop (args v)).
Proof.
  intros Hwf Hse Hs Hm Hf. unfold ValidArgs.
  rewrite (bind_Ok _ _ _ _ _ (load_Ok _ _ _ Hse)), Hs.
  unfold bind at 1. unfold bind at 1.
  rewrite (Error_total (length h) h Hwf (unmarked_count_le h) se v m Hse Hm fuel Hf).
  reflexivity.
Qed.

(** X11. [ValidArgs] can be called once: on an error that is not sealed it
    records the keys, seals the error and returns it; a second call on the
    same error panics with the text of the error; and so does a call on the
    copy that [Args] returns afterwards, which inherits the seal. *)
Theorem ValidArgs_seals (fuel : nat) (h : heap) (se : addr) (v : sError) (m : string)
    (ks ks' : list string) (a : list any) :
  wf h -> h !! se = Some (sErrorObj v) -> plain_base h v m -> sealed v = false ->
  Nat.Even (length a) -> (length h + 1 < fuel)%nat ->
  exists h1,
    ValidArgs fuel se ks h = Ok (se, h1)
    /\ ValidArgs fuel se ks' h1
       = Panic ("SError.ValidArgs() can only be called on an error once: "
                +:+ m +:+ argsString_loop (args v))
    /\ exists r h2,
         Args fuel se a h1 = Ok (r, h2) /\ r <> se
         /\ ValidArgs fuel r ks' h2
            = Panic ("SError.ValidArgs() can only be called on an error once: "
                     +:+ m +:+ argsString_loop a).
Proof.
  intros Hwf Hse Hm Hs Hev Hf.
  assert (Hlt : (se < length h)%nat) by (by eapply lookup_lt_Some).
  set (v1 := {| error_ := error_ v; err := err v; args := args v;
                validArgs := ks; recurs := recurs v; sealed := true;
                locked := locked v; cloneWrapped := cloneWrapped v |}).
  set (h1 := <[se := sErrorObj v1]> h).
  assert (HV : ValidArgs fuel se ks h = Ok (se, h1)) by (by apply ValidArgs_Ok).
  assert (Hwf1 : wf h1) by (by eapply wf_ValidArgs).
  assert (Hse1 : h1 !! se = Some (sErrorObj v1))
    by (by apply list_lookup_insert_eq).
  assert (Hm1 : plain_base h1 v1 m).
  { eapply plain_base_store; [done|]. destruct Hm as (e & He & Hm). by exists e. }
  exists h1. split; [done|]. split.
  - apply (ValidArgs_Panic fuel h1 se v1 m ks'); try done.
    unfold h1. rewrite length_insert. lia.
  - pose proof (Args_Ok fuel h1 se v1 a Hse1 Hev) as HA.
    eexists _, _. split; [exact HA|]. split.
    { unfold h1. rewrite length_insert. lia. }
    eapply (ValidArgs_Panic fuel _ _ (clone_wrap_of se (with_args v1 a)) m ks').
    + by eapply wf_Args.
    + apply list_lookup_middle. by rewrite length_insert.
    + done.
    + apply plain_base_app. eapply plain_base_store; [done|].
      destruct Hm1 as (e & He & Hm1). by exists e.
    + rewrite length_app, length_insert. unfold h1. rewrite length_insert. simpl. lia.
Qed.

Lemma ValidArgs_seals_witness :
  let v := mk_sError (Some 0%nat) None [] [] [] false false false in
  let h := [errorString "m"; sErrorObj v] in
  wf h /\ h !! 1%nat = Some (sErrorObj v) /\ plain_base h v "m" /\ sealed v = false
  /\ Nat.Even (length [AString "k"; AInt 3]) /\ (length h + 1 < 4)%nat
  /\ exists h1,
    ValidArgs 4 1 ["k"%string] h = Ok (1%nat, h1)
    /\ ValidArgs 4 1 [] h1
       = Panic ("SError.ValidArgs() can only be called on an error once: "
                +:+ "m" +:+ argsString_loop (args v))
    /\ exists r h2,
         Args 4 1 [AString "k"; AInt 3] h1 = Ok (r, h2) /\ r <> 1%nat
         /\ ValidArgs 4 r [] h2
            = Panic ("SError.ValidArgs() can only be called on an error once: "
                     +:+ "m" +:+ argsString_loop [AString "k"; AInt 3]).
Proof.
  intros v h.
  assert (Hwf : wf h).
  { intros a w Ha. destruct a as [|[|a]]; simpl in Ha; try discriminate.
    injection Ha as <-. split; [by exists "m"%string, 0%nat|]. simpl. discriminate. }
  assert (H1 : h !! 1%nat = Some (sErrorObj v)) by reflexivity.
  assert (H2 : plain_base h v "m") by (exists 0%nat; split; reflexivity).
  assert (H3 : Nat.Even (length [AString "k"; AInt 3])) by (exists 1%nat; reflexivity).
  assert (H4 : (length h + 1 < 4)%nat) by (simpl; lia).
  repeat (split; [done|]).
  exact (ValidArgs_seals 4 h 1%nat v "m"%string ["k"%string] [] [AString "k"; AInt 3]
           Hwf H1 H2 eq_refl H3 H4).
Defined.

(** *** Attributes as [slog.Attr] *)

Lemma flatten_pairs_even (ps : list (any * any)) : Nat.Even (length (flatten_pairs ps)).
Proof.
  exists (length ps). unfold flatten_pairs. induction ps as [|p ps IH]; simpl; [done|].
  rewrite IH. lia.
Qed.

Lemma Attrs_loop_strings (args : list any) (kvs : list (string * any)) : forall i,
  Attrs_loop args (flatten_pairs (map (fun kv => (AString (fst kv), snd kv)) kvs)) i
  = Ok (map (fun kv => slog_Any (fst kv) (snd kv)) kvs).
Proof.
  induction kvs as [|[k x] kvs IH]; intros i; simpl; [done|]. by rewrite IH.
Qed.

Lemma Attrs_loop_bad (args : list any) (good : list (string * any)) k x rest :
  (forall s, k <> AString s) -> forall i,
  Attrs_loop args
    (flatten_pairs (map (fun kv => (AString (fst kv), snd kv)) good ++ (k, x) :: rest)) i
  = Panic ("Unexpected non-string error key: " +:+
           match args !! (i + length good)%nat with Some a => Sprint_v a | None => "" end).
Proof.
  intros Hk. induction good as [|[k' x'] good IH]; intros i; simpl.
  - rewrite Nat.add_0_r. destruct k; try done. by destruct (Hk s).
  - rewrite IH. by rewrite Nat.add_succ_comm.
Qed.

Lemma Attr_loop_missing (kvs : list (string * any)) key :
  key ∉ map fst kvs ->
  Attr_loop (map (fun kv => slog_Any (fst kv) (snd kv)) kvs) key = (slog_Any "" ANil, false).
Proof.
  induction kvs as [|[k x] kvs IH]; simpl; [done|]. intros Hn.
  apply not_elem_of_cons in Hn as [Hne Hn].
  destruct (String.eqb_spec k key) as [->|_]; [done|]. by apply IH.
Qed.

Lemma Attr_loop_first (pre post : list (string * any)) key x :
  key ∉ map fst pre ->
  Attr_loop (map (fun kv => slog_Any (fst kv) (snd kv)) (pre ++ (key, x) :: post)) key
  = (slog_Any key x, true).
Proof.
  induction pre as [|[k y] pre IH]; simpl.
  - intros _. by rewrite String.eqb_refl.
  - intros Hn. apply not_elem_of_cons in Hn as [Hne Hn].
    destruct (String.eqb_spec k key) as [->|_]; [done|]. by apply IH.
Qed.

Lemma Attrs_Ok (h : heap) se v (kvs : list (string * any)) :
  h !! se = Some (sErrorObj v) ->
  args v = flatten_pairs (map (fun kv => (AString (fst kv), snd kv)) kvs) ->
  Attrs se h = Ok (map (fun kv => slog_Any (fst kv) (snd kv)) kvs, h).
Proof.
  intros Hse Ha. unfold Attrs. rewrite (bind_Ok _ _ _ _ _ (load_Ok _ _ _ Hse)).
  unfold lift. rewrite Ha at 2. by rewrite Attrs_loop_strings.
Qed.

(** X12. The attributes given to [Args] with string keys come back from
    [Attrs], on the receiver and on the returned copy, as one [slog.Attr] per
    pair in the order given; [Attr] finds the first attribute with a key, and
    reports a key that is absent with [found = false] and the zero
    attribute. *)
Theorem Attrs_after_Args (fuel : nat) (h : heap) (se : addr) (v : sError)
    (kvs : list (string * any)) :
  h !! se = Some (sErrorObj v) ->
  let attrs := map (fun kv => slog_Any (fst kv) (snd kv)) kvs in
  exists r h',
    Args fuel se (flatten_pairs (map (fun kv => (AString (fst kv), snd kv)) kvs)) h
    = Ok (r, h')
    /\ Attrs r h' = Ok (attrs, h')
    /\ Attrs se h' = Ok (attrs, h')
    /\ (forall key, key ∉ map fst kvs ->
          Attr_ r key h' = Ok ((slog_Any "" ANil, false), h'))
    /\ (forall pre key x post, kvs = pre ++ (key, x) :: post -> key ∉ map fst pre ->
          Attr_ r key h' = Ok ((slog_Any key x, true), h')).
Proof.
  intros Hse attrs.
  set (a := flatten_pairs (map (fun kv => (AString (fst kv), snd kv)) kvs)).
  assert (Hlt : (se < length h)%nat) by (by eapply lookup_lt_Some).
  pose proof (Args_Ok fuel h se v a Hse (flatten_pairs_even _)) as HA.
  eexists _, _. split; [exact HA|].
  assert (Hr : Attrs (length h)
                 (<[se := sErrorObj (with_args v a)]> h
                  ++ [sErrorObj (clone_wrap_of se (with_args v a))])
               = Ok (attrs, <[se := sErrorObj (with_args v a)]> h
                            ++ [sErrorObj (clone_wrap_of se (with_args v a))])).
  { eapply Attrs_Ok; [apply list_lookup_middle; by rewrite length_insert|done]. }
  split; [exact Hr|]. split.
  - eapply Attrs_Ok; [apply lookup_app_l_Some; by apply list_lookup_insert_eq|done].
  - split.
    + intros key Hk. unfold Attr_. rewrite (bind_Ok _ _ _ _ _ Hr). unfold ret.
      unfold attrs. by rewrite Attr_loop_missing.
    + intros pre key x post -> Hk. unfold Attr_. rewrite (bind_Ok _ _ _ _ _ Hr).
      unfold ret, attrs. by rewrite Attr_loop_first.
Qed.

Lemma Attrs_after_Args_witness :
  let v := mk_sError (Some 0%nat) None [] [] [] false false false in
  let h := [errorString "m"; sErrorObj v] in
  let kvs := [("a"%string, AInt 1); ("b"%string, AString "x"); ("a"%string, AInt 2)] in
  h !! 1%nat = Some (sErrorObj v)
  /\ let attrs := map (fun kv => slog_Any (fst kv) (snd kv)) kvs in
  exists r h',
    Args 0 1 (flatten_pairs (map (fun kv => (AString (fst kv), snd kv)) kvs)) h
    = Ok (r, h')
    /\ Attrs r h' = Ok (attrs, h')
    /\ Attrs 1 h' = Ok (attrs, h')
    /\ (forall key, key ∉ map fst kvs ->
          Attr_ r key h' = Ok ((slog_Any "" ANil, false), h'))
    /\ (forall pre key x post, kvs = pre ++ (key, x) :: post -> key ∉ map fst pre ->
          Attr_ r key h' = Ok ((slog_Any key x, true), h')).
Proof.
  intros v h kvs. split; [reflexivity|].
  exact (Attrs_after_Args 0 h 1%nat v kvs eq_refl).
Defined.

(** X13. [Attrs] panics at the first key that is not a string, and the
    message of the panic prints the attribute at the index of the pair, not
    the key: the key itself only when the first pair is at fault, an element
    of an earlier pair otherwise. *)
Theorem Attrs_non_string_key (h : heap) (se : addr) (v : sError)
    (good : list (string * any)) (k x : any) (rest : list (any * any)) :
  h !! se = Some (sErrorObj v) ->
  args v = flatten_pairs (map (fun kv => (AString (fst kv), snd kv)) good
                          ++ (k, x) :: rest) ->
  (forall s, k <> AString s) ->
  exists a,
    Attrs se h = Panic ("Unexpected non-string error key: " +:+ Sprint_v a)
    /\ args v !! length good = Some a
    /\ (good = [] -> a = k)
    /\ (good <> [] ->
        flatten_pairs (map (fun kv => (AString (fst kv), snd kv)) good) !! length good
        = Some a).
Proof.
  intros Hse Ha Hk.
  set (g := flatten_pairs (map (fun kv => (AString (fst kv), snd kv)) good)).
  assert (Hg : length g = (2 * length good)%nat).
  { unfold g, flatten_pairs. clear. induction good as [|p good IH]; simpl; [done|].
    rewrite IH. lia. }
  assert (Hsplit : args v = g ++ k :: x :: flatten_pairs rest).
  { rewrite Ha. unfold g, flatten_pairs. by rewrite flat_map_app. }
  assert (Hex : exists a, args v !! length good = Some a).
  { apply lookup_lt_is_Some. rewrite Hsplit, length_app, Hg. simpl. lia. }
  destruct Hex as [a Hlook]. exists a. split; [|split; [done|split]].
  - unfold Attrs. rewrite (bind_Ok _ _ _ _ _ (load_Ok _ _ _ Hse)). unfold lift.
    rewrite Ha at 2. rewrite (Attrs_loop_bad _ _ _ _ _ Hk). simpl. by rewrite Hlook.
  - intros ->. rewrite Hsplit in Hlook. simpl in Hlook. congruence.
  - intros Hne. rewrite Hsplit in Hlook. rewrite lookup_app_l in Hlook; [done|].
    rewrite Hg. destruct good; [done|]. simpl. lia.
Qed.

Lemma Attrs_non_string_key_witness :
  let a := [AString "a"; AInt 1; AInt 7; AInt 8] in
  let v := mk_sError (Some 0%nat) None a [] [] false false false in
  let h := [errorString "m"; sErrorObj v] in
  h !! 1%nat = Some (sErrorObj v)
  /\ args v = flatten_pairs (map (fun kv => (AString (fst kv), snd kv)) [("a"%string, AInt 1)]
                             ++ (AInt 7, AInt 8) :: [])
  /\ (forall s, AInt 7 <> AString s)
  /\ exists x,
    Attrs 1 h = Panic ("Unexpected non-string error key: " +:+ Sprint_v x)
    /\ args v !! 1%nat = Some x
    /\ ([("a"%string, AInt 1)] = [] -> x = AInt 7)
    /\ ([("a"%string, AInt 1)] <> [] ->
        flatten_pairs (map (fun kv => (AString (fst kv), snd kv)) [("a"%string, AInt 1)])
          !! 1%nat = Some x).
Proof.
  intros a v h.
  assert (H3 : forall s, AInt 7 <> AString s) by discriminate.
  repeat (split; [done|]).
  exact (Attrs_non_string_key h 1%nat v [("a"%string, AInt 1)] (AInt 7) (AInt 8) []
           eq_refl eq_refl H3).
Defined.

(** *** [Cast] *)



(** *** Chains of builders *)

(** X15. In [se.Args(a...).Args(b...)] the second call works on the copy
    the first returned: the receiver keeps the attributes [a], the
    intermediate copy and the result carry [b], and each of the three
    renders as the message with its own attributes. *)
Theorem Args_twice (fuel : nat) (h : heap) (se : addr) (v : sError) (m : string)
    (a b : list any) :
  wf h -> h !! se = Some (sErrorObj v) -> plain_base h v m ->
  Nat.Even (length a) -> Nat.Even (length b) -> (length h + 2 < fuel)%nat ->
  exists r1 h1 r2 h2,
    Args fuel se a h = Ok (r1, h1)
    /\ Args fuel r1 b h1 = Ok (r2, h2)
    /\ r1 <> se /\ r2 <> se /\ r2 <> r1
    /\ Error fuel se h2 = Ok ((m +:+ argsString_loop a)%string, h2)
    /\ Error fuel r1 h2 = Ok ((m +:+ argsString_loop b)%string, h2)
    /\ Error fuel r2 h2 = Ok ((m +:+ argsString_loop b)%string, h2).
Proof.
  intros Hwf Hse Hm Ha Hb Hf.
  assert (Hlt : (se < length h)%nat) by (by eapply lookup_lt_Some).
  pose proof (Args_Ok fuel h se v a Hse Ha) as H1.
  set (h1 := <[se := sErrorObj (with_args v a)]> h
             ++ [sErrorObj (clone_wrap_of se (with_args v a))]) in *.
  assert (Hl1 : length h1 = S (length h)).
  { unfold h1. rewrite length_app, length_insert. simpl. lia. }
  assert (Hr1 : h1 !! length h = Some (sErrorObj (clone_wrap_of se (with_args v a)))).
  { apply list_lookup_middle. by rewrite length_insert. }
  pose proof (Args_Ok fuel h1 (length h) _ b Hr1 Hb) as H2.
  set (v1 := with_args (clone_wrap_of se (with_args v a)) b) in *.
  set (h2 := <[length h := sErrorObj v1]> h1 ++ [sErrorObj (clone_wrap_of (length h) v1)])
    in *.
  assert (Hwf1 : wf h1) by (by eapply wf_Args).
  assert (Hwf2 : wf h2) by (by eapply wf_Args).
  assert (Hl2 : length h2 = S (S (length h))).
  { unfold h2. rewrite length_app, length_insert. simpl. lia. }
  assert (Hm2 : forall w, error_ w = error_ v -> plain_base h2 w m).
  { intros w Hw. destruct Hm as (e & He & Hm). exists e. split; [congruence|].
    unfold h2. apply lookup_app_l_Some. rewrite list_lookup_insert_ne.
    - unfold h1. apply lookup_app_l_Some. rewrite list_lookup_insert_ne; [done|].
      intros ->. congruence.
    - intros <-. apply lookup_lt_Some in Hm. lia. }
  assert (Hs2 : h2 !! se = Some (sErrorObj (with_args v a))).
  { unfold h2. apply lookup_app_l_Some. rewrite list_lookup_insert_ne by lia.
    unfold h1. apply lookup_app_l_Some. by apply list_lookup_insert_eq. }
  assert (Hr12 : h2 !! length h = Some (sErrorObj v1)).
  { unfold h2. apply lookup_app_l_Some. apply list_lookup_insert_eq. lia. }
  assert (Hr22 : h2 !! length h1 = Some (sErrorObj (clone_wrap_of (length h) v1))).
  { unfold h2. apply list_lookup_middle. by rewrite length_insert. }
  assert (Hu : (unmarked_count h2 <= S (S (length h)))%nat).
  { rewrite <- Hl2. apply unmarked_count_le. }
  exists (length h), h1, (length h1), h2.
  split; [done|]. split; [done|]. split; [lia|]. split; [lia|]. split; [lia|].
  split; [|split].
  - apply (Error_total _ h2 Hwf2 Hu se _ m Hs2); [by apply Hm2|lia].
  - apply (Error_total _ h2 Hwf2 Hu (length h) _ m Hr12); [by apply Hm2|lia].
  - apply (Error_total _ h2 Hwf2 Hu (length h1) _ m Hr22); [by apply Hm2|lia].
Qed.

Lemma Args_twice_witness :
  let v := mk_sError (Some 0%nat) None [] [] [] false false false in
  let h := [errorString "m"; sErrorObj v] in
  let a := [AString "k"; AInt 3] in
  let b := [AString "n"; AString "x"] in
  wf h /\ h !! 1%nat = Some (sErrorObj v) /\ plain_base h v "m"
  /\ Nat.Even (length a) /\ Nat.Even (length b) /\ (length h + 2 < 5)%nat
  /\ exists r1 h1 r2 h2,
    Args 5 1 a h = Ok (r1, h1)
    /\ Args 5 r1 b h1 = Ok (r2, h2)
    /\ r1 <> 1%nat /\ r2 <> 1%nat /\ r2 <> r1
    /\ Error 5 1 h2 = Ok (("m" +:+ argsString_loop a)%string, h2)
    /\ Error 5 r1 h2 = Ok (("m" +:+ argsString_loop b)%string, h2)
    /\ Error 5 r2 h2 = Ok (("m" +:+ argsString_loop b)%string, h2).
Proof.
  intros v h a b.
  assert (Hwf : wf h).
  { intros x w Hx. destruct x as [|[|x]]; simpl in Hx; try discriminate.
    injection Hx as <-. split; [by exists "m"%string, 0%nat|]. simpl. discriminate. }
  assert (H1 : h !! 1%nat = Some (sErrorObj v)) by reflexivity.
  assert (H2 : plain_base h v "m") by (exists 0%nat; split; reflexivity).
  assert (H3 : Nat.Even (length a)) by (exists 1%nat; reflexivity).
  assert (H4 : Nat.Even (length b)) by (exists 1%nat; reflexivity).
  assert (H5 : (length h + 2 < 5)%nat) by (simpl; lia).
  repeat (split; [done|]).
  exact (Args_twice 5 h 1%nat v "m"%string a b Hwf H1 H2 H3 H4 H5).
Defined.

(** *** [CloneUnwrap] *)

Lemma as_sError_sError (h : heap) a v :
  h !! a = Some (sErrorObj v) -> as_sError (Some a) h = Ok (Some a, h).
Proof. intros E. unfold as_sError. by rewrite E. Qed.

Lemma as_sError_plain (h : heap) a m :
  h !! a = Some (errorString m) -> as_sError (Some a) h = Ok (None, h).
Proof. intros E. unfold as_sError. by rewrite E. Qed.

Lemma lookup_store_app (h t : heap) se o' x o :
  x <> se -> h !! x = Some o -> (<[se := o']> h ++ t) !! x = Some o.
Proof. intros Hx Ho. apply lookup_app_l_Some. by rewrite list_lookup_insert_ne. Qed.

(** X16. On the copy [r] that [se.Err(c)] returns, [Unwrap] gives [se], and
    [CloneUnwrap] gives [se] as well when [c] is nil, a plain error, or a
    structured error whose own cause is nil or plain; when [c] and the cause
    of [c] are both structured, it gives the cause of the cause of [c]. *)
Theorem CloneUnwrap_after_Err (fuel : nat) (h : heap) (se : addr) (v : sError)
    (c : error) :
  h !! se = Some (sErrorObj v) ->
  exists r h',
    Err fuel se c [] h = Ok (r, h')
    /\ Unwrap r h' = Ok (Some se, h')
    /\ (c = nil -> CloneUnwrap fuel r h' = Ok (Some se, h'))
    /\ (forall x m, c = Some x -> h !! x = Some (errorString m) ->
          CloneUnwrap fuel r h' = Ok (Some se, h'))
    /\ (forall x w, c = Some x -> x <> se -> h !! x = Some (sErrorObj w) ->
          err w = nil \/ (exists y m, err w = Some y /\ h !! y = Some (errorString m)) ->
          CloneUnwrap fuel r h' = Ok (Some se, h'))
    /\ (forall x w y u, c = Some x -> x <> se -> h !! x = Some (sErrorObj w) ->
          err w = Some y -> y <> se -> h !! y = Some (sErrorObj u) ->
          CloneUnwrap fuel r h' = Ok (err u, h')).
Proof.
  intros Hse.
  assert (Hlt : (se < length h)%nat) by (by eapply lookup_lt_Some).
  pose proof (Err_Ok_nil fuel h se v c Hse) as HE.
  set (h' := <[se := sErrorObj (with_err v c)]> h
             ++ [sErrorObj (clone_wrap_of se (with_err v c))]) in *.
  assert (Hr : h' !! length h = Some (sErrorObj (clone_wrap_of se (with_err v c)))).
  { apply list_lookup_middle. by rewrite length_insert. }
  assert (Hs : h' !! se = Some (sErrorObj (with_err v c))).
  { apply lookup_app_l_Some. by apply list_lookup_insert_eq. }
  assert (Hold : forall x o, x <> se -> h !! x = Some o -> h' !! x = Some o).
  { intros x o Hx Ho. by apply lookup_store_app. }
  assert (Hstart : CloneUnwrap fuel (length h) h'
            = (do sErr <- as_sError c;
               match sErr with
               | None => ret (Some se)
               | Some sErr =>
                   do v2 <- load sErr;
                   do sErr <- as_sError (err v2);
                   match sErr with
                   | None => ret (Some se)
                   | Some sErr => Unwrap sErr
                   end
               end) h').
  { unfold CloneUnwrap. rewrite (bind_Ok _ _ _ _ _ (load_Ok _ _ _ Hr)). simpl.
    rewrite (bind_Ok _ _ _ _ _ (as_sError_sError _ _ _ Hs)).
    by rewrite (bind_Ok _ _ _ _ _ (load_Ok _ _ _ Hs)). }
  exists (length h), h'. split; [done|]. split; [by eapply Unwrap_eq|].
  rewrite Hstart. repeat apply conj.
  - by intros ->.
  - intros x m -> Hx.
    assert (x <> se) by (intros ->; congruence).
    by rewrite (bind_Ok _ _ _ _ _ (as_sError_plain _ _ _ (Hold _ _ ltac:(done) Hx))).
  - intros x w -> Hne Hx Hw. pose proof (Hold _ _ Hne Hx) as Hx'.
    rewrite (bind_Ok _ _ _ _ _ (as_sError_sError _ _ _ Hx')).
    rewrite (bind_Ok _ _ _ _ _ (load_Ok _ _ _ Hx')).
    destruct Hw as [->|(y & m & -> & Hy)]; [done|].
    assert (y <> se) by (intros ->; congruence).
    by rewrite (bind_Ok _ _ _ _ _ (as_sError_plain _ _ _ (Hold _ _ ltac:(done) Hy))).
  - intros x w y u -> Hne Hx Hw Hney Hy. pose proof (Hold _ _ Hne Hx) as Hx'.
    pose proof (Hold _ _ Hney Hy) as Hy'.
    rewrite (bind_Ok _ _ _ _ _ (as_sError_sError _ _ _ Hx')).
    rewrite (bind_Ok _ _ _ _ _ (load_Ok _ _ _ Hx')). rewrite Hw.
    rewrite (bind_Ok _ _ _ _ _ (as_sError_sError _ _ _ Hy')).
    by apply Unwrap_Ok.
Qed.

Lemma CloneUnwrap_after_Err_witness :
  let v := mk_sError (Some 0%nat) None [] [] [] false false false in
  let h := [errorString "m"; sErrorObj v; errorString "boom"] in
  h !! 1%nat = Some (sErrorObj v)
  /\ exists r h',
    Err 0 1 (Some 2%nat) [] h = Ok (r, h')
    /\ Unwrap r h' = Ok (Some 1%nat, h')
    /\ CloneUnwrap 0 r h' = Ok (Some 1%nat, h').
Proof.
  intros v h. split; [reflexivity|].
  destruct (CloneUnwrap_after_Err 0 h 1%nat v (Some 2%nat) eq_refl)
    as (r & h' & H1 & H2 & _ & H3 & _).
  exists r, h'. split; [exact H1|]. split; [exact H2|].
  exact (H3 2%nat "boom"%string eq_refl eq_refl).
Defined.

(** *** [errors.Is] over structured errors *)


Lemma Is__Ok (h : heap) e v t :
  h !! e = Some (sErrorObj v) -> Is_ e t h = Ok (bool_decide (error_ v = t), h).
Proof. intros He. unfold Is_. by rewrite (bind_Ok _ _ _ _ _ (load_Ok _ _ _ He)). Qed.

Lemma errors_is_base k (h : heap) e v t :
  h !! e = Some (sErrorObj v) -> error_ v = t ->
  errors_is (S k) t (Some e) h = Ok (true, h).
Proof.
  intros He Hb. simpl. unfold errors_is_body. case_bool_decide; [done|].
  rewrite He. rewrite (bind_Ok _ _ _ _ _ (Is__Ok _ _ _ t He)).
  by rewrite bool_decide_eq_true_2.
Qed.

Lemma errors_is_step k (h : heap) e v c t :
  h !! e = Some (sErrorObj v) -> Some e <> t -> error_ v <> t -> err v = Some c ->
  errors_is (S k) t (Some e) h = errors_is k t (Some c) h.
Proof.
  intros He Hne Hb Hc. simpl. unfold errors_is_body at 1.
  rewrite bool_decide_eq_false_2 by done.
  rewrite He. rewrite (bind_Ok _ _ _ _ _ (Is__Ok _ _ _ t He)).
  rewrite bool_decide_eq_false_2 by done.
  rewrite (bind_Ok _ _ _ _ _ (Unwrap_Ok _ _ _ He)). by rewrite Hc.
Qed.

Lemma errors_is_end k (h : heap) e v t :
  h !! e = Some (sErrorObj v) -> Some e <> t -> error_ v <> t -> err v = nil ->
  errors_is (S k) t (Some e) h = Ok (false, h).
Proof.
  intros He Hne Hb Hc. simpl. unfold errors_is_body at 1.
  rewrite bool_decide_eq_false_2 by done.
  rewrite He. rewrite (bind_Ok _ _ _ _ _ (Is__Ok _ _ _ t He)).
  rewrite bool_decide_eq_false_2 by done.
  rewrite (bind_Ok _ _ _ _ _ (Unwrap_Ok _ _ _ He)). by rewrite Hc.
Qed.


Lemma Is_pointers k (h : heap) (e t : addr) :
  Is k (Some e) (Some t) h = errors_is k (Some t) (Some e) h.
Proof.
  unfold Is, errors_Is. by rewrite !bool_decide_eq_false_2 by done.
Qed.

(** A set of structured errors that is closed under [Unwrap] and holds
    neither the target nor an error that embeds it: [errors.Is] walks in it
    for ever. *)
Lemma errors_is_cycle (P : addr -> Prop) (h : heap) t :
  (forall x, P x -> Some x <> t
     /\ exists v c, h !! x = Some (sErrorObj v) /\ error_ v <> t /\ err v = Some c /\ P c) ->
  forall k x, P x -> errors_is k t (Some x) h = OutOfFuel.
Proof.
  intros HP. induction k as [|k IH]; intros x Hx; [done|].
  destruct (HP x Hx) as (Hne & v & c & Hv & Hb & Hc & HPc).
  rewrite (errors_is_step k h x v c t Hv Hne Hb Hc). by apply IH.
Qed.



(** X18. After [se.Err(se)] the chain of causes of [se] is a cycle, and
    [errors.Is] with a target that is neither on it nor embedded in it never
    returns, on [se] and on the copy returned: whatever the fuel, the loop is
    still running.  ([Error], on the same store, returns.) *)
Theorem Is_never_returns_on_self_cause (fuel : nat) (h : heap) (se t : addr)
    (v : sError) (m : string) :
  wf h -> h !! se = Some (sErrorObj v) -> plain_base h v m ->
  t <> se -> error_ v <> Some t -> is_Some (h !! t) ->
  exists r h',
    Err fuel se (Some se) [] h = Ok (r, h')
    /\ (forall k, Is k (Some se) (Some t) h' = OutOfFuel)
    /\ (forall k, Is k (Some r) (Some t) h' = OutOfFuel)
    /\ (forall k, (length h' < k)%nat ->
          Error k se h' = Ok ((m +:+ argsString_loop (args v))%string, h')).
Proof.
  intros Hwf Hse Hm Ht Hb Hts.
  assert (Hlt : (se < length h)%nat) by (by eapply lookup_lt_Some).
  assert (Htlt : (t < length h)%nat) by (by apply lookup_lt_is_Some).
  pose proof (Err_Ok_nil fuel h se v (Some se) Hse) as HE.
  set (vs := with_err v (Some se)) in *.
  set (h' := <[se := sErrorObj vs]> h ++ [sErrorObj (clone_wrap_of se vs)]) in *.
  assert (Hr : h' !! length h = Some (sErrorObj (clone_wrap_of se vs))).
  { apply list_lookup_middle. by rewrite length_insert. }
  assert (Hs : h' !! se = Some (sErrorObj vs)).
  { apply lookup_app_l_Some. by apply list_lookup_insert_eq. }
  assert (Hcyc : forall k y, (y = se \/ y = length h) ->
            errors_is k (Some t) (Some y) h' = OutOfFuel).
  { intros k y Hy. revert k y Hy.
    apply (errors_is_cycle (fun y => y = se \/ y = length h)).
    intros y [->| ->].
    - split; [congruence|]. exists vs, se. eauto.
    - split; [intros [= E]; lia|]. exists (clone_wrap_of se vs), se. eauto. }
  exists (length h), h'. split; [done|]. split; [|split].
  - intros k. rewrite Is_pointers. apply Hcyc. by left.
  - intros k. rewrite Is_pointers. apply Hcyc. by right.
  - intros k Hk.
    assert (Hwf' : wf h').
    { eapply wf_Err; [exact Hwf| |exact HE]. intros ? [= <-]. by eexists. }
    apply (Error_total (length h') h' Hwf' (unmarked_count_le h') se vs m Hs); [|done].
    apply plain_base_app. eapply plain_base_store; [done|].
    destruct Hm as (e & He & Hm). by exists e.
Qed.

Lemma Is_never_returns_on_self_cause_witness :
  let v := mk_sError (Some 0%nat) None [] [] [] false false false in
  let h := [errorString "m"; sErrorObj v; errorString "other"] in
  wf h /\ h !! 1%nat = Some (sErrorObj v) /\ plain_base h v "m"
  /\ 2%nat <> 1%nat /\ error_ v <> Some 2%nat /\ is_Some (h !! 2%nat)
  /\ exists r h',
    Err 0 1 (Some 1%nat) [] h = Ok (r, h')
    /\ (forall k, Is k (Some 1%nat) (Some 2%nat) h' = OutOfFuel)
    /\ (forall k, Is k (Some r) (Some 2%nat) h' = OutOfFuel)
    /\ (forall k, (length h' < k)%nat ->
          Error k 1 h' = Ok (("m" +:+ argsString_loop (args v))%string, h')).
Proof.
  intros v h.
  assert (Hwf : wf h).
  { intros x w Hx. destruct x as [|[|[|x]]]; simpl in Hx; try discriminate.
    injection Hx as <-. split; [by exists "m"%string, 0%nat|]. simpl. discriminate. }
  assert (H1 : h !! 1%nat = Some (sErrorObj v)) by reflexivity.
  assert (H2 : plain_base h v "m") by (exists 0%nat; split; reflexivity).
  assert (H3 : 2%nat <> 1%nat) by lia.
  assert (H4 : error_ v <> Some 2%nat) by discriminate.
  assert (H5 : is_Some (h !! 2%nat)) by (by eexists).
  repeat (split; [done|]).
  exact (Is_never_returns_on_self_cause 0 h 1%nat 2%nat v "m"%string Hwf H1 H2 H3 H4 H5).
Defined.

End serr_more.

(** ** More of [part_000] *)

Section part_000_more.
Import part_000.

Lemma part_000_load_Ok (st : state) se v :
  objects st !! se = Some (sErrorObj v) -> load se st = Ok (v, st).
Proof. intros E. unfold load. by rewrite E. Qed.

Lemma part_000_own_text f (st : state) se v e m :
  objects st !! se = Some (sErrorObj v) ->
  error_ v = Some e -> objects st !! e = Some (errorString m) ->
  (do v0 <- load se;
   do m0 <- error_Error f (error_ v0);
   do a <- argsString se; ret (m0 +:+ a)) st
  = Ok ((m +:+ argsString_loop (args v))%string, st).
Proof.
  intros Hse He Hm. rewrite (bind_Ok _ _ _ _ _ (part_000_load_Ok _ _ _ Hse)).
  unfold bind at 1. unfold error_Error. rewrite He, Hm.
  unfold argsString. unfold bind at 1.
  by rewrite (bind_Ok _ _ _ _ _ (part_000_load_Ok _ _ _ Hse)).
Qed.

Lemma part_000_tail f (st : state) se v e m (self : string) :
  objects st !! se = Some (sErrorObj v) ->
  error_ v = Some e -> objects st !! e = Some (errorString m) ->
  ((if negb (String.eqb self "") then
      do v <- load se;
      do m <- error_Error f (error_ v);
      do a <- argsString se;
      ret (m +:+ a +:+ "; " +:+ self)
    else ret ""%string);;
   do v0 <- load se;
   do m0 <- error_Error f (error_ v0);
   do a <- argsString se; ret (m0 +:+ a)) st
  = Ok ((m +:+ argsString_loop (args v))%string, st).
Proof.
  intros Hse He Hm.
  assert (H1 : exists s, (if negb (String.eqb self "") then
      do v <- load se;
      do m <- error_Error f (error_ v);
      do a <- argsString se;
      ret (m +:+ a +:+ "; " +:+ self)
    else ret ""%string) st = Ok (s, st)).
  { destruct (negb (String.eqb self "")); [|by eexists].
    rewrite (bind_Ok _ _ _ _ _ (part_000_load_Ok _ _ _ Hse)).
    unfold bind at 1. unfold error_Error. rewrite He, Hm.
    unfold argsString. unfold bind at 1.
    rewrite (bind_Ok _ _ _ _ _ (part_000_load_Ok _ _ _ Hse)). by eexists. }
  destruct H1 as [s H1]. rewrite (bind_Ok _ _ _ _ _ H1).
  by eapply part_000_own_text.
Qed.

Lemma set_recurs_same (v : sError) : set_recurs v (recurs v) = v.
Proof. by destruct v. Qed.

(** [selfError] when the cause renders without being asked for the lock:
    the state is put back as it was. *)
Lemma part_000_selfError_Ok f (objs : list object) se v c s :
  objs !! se = Some (sErrorObj v) -> err v = Some c ->
  let st := mk_state objs (mk_RWMutex false 0) in
  let st1 := mk_state (<[se := sErrorObj (set_recurs v (recurs v ++ [se]))]> objs)
                      (mk_RWMutex true 0) in
  error_Error f (Some c) st1 = Ok (s, st1) ->
  exists s', selfError f se st = Ok (s', st).
Proof.
  intros Hse Hc st st1 Hcall.
  assert (Hlt : (se < length objs)%nat) by (by eapply lookup_lt_Some).
  unfold selfError, recursing. unfold bind at 1. unfold bind at 1. unfold RLock at 1.
  simpl. unfold bind at 1. unfold load at 1. simpl. rewrite Hse.
  unfold bind at 1. unfold ret at 1. unfold bind at 1. unfold RUnlock at 1. simpl.
  unfold ret at 1.
  destruct (recursing_loop se (recurs v) (length (recurs v))); simpl; [by eexists|].
  unfold bind at 1. unfold Lock at 1. simpl.
  unfold bind at 1. unfold load at 1. simpl. rewrite Hse.
  unfold bind at 1. unfold store at 1. simpl.
  unfold bind at 1. unfold load at 1. simpl. rewrite list_lookup_insert_eq by done.
  simpl err. rewrite Hc. fold st1. rewrite (bind_Ok _ _ _ _ _ Hcall).
  unfold bind at 1. unfold load at 1. simpl. rewrite list_lookup_insert_eq by done.
  unfold bind at 1. unfold store at 1. simpl.
  unfold bind at 1. unfold Unlock at 1. simpl. unfold ret.
  exists s. do 2 f_equal. unfold st. f_equal.
  rewrite list_insert_insert_eq. rewrite length_app. simpl.
  replace (length (recurs v) + 1 - 1)%nat with (length (recurs v)) by lia.
  rewrite take_app_length. unfold set_recurs at 1. simpl.
  fold (set_recurs v (recurs v)). rewrite set_recurs_same.
  by apply list_insert_id.
Qed.

(** X19. In [part_000], with the lock free, [Error] returns on an error
    whose cause is nil, a plain error, or a structured error without a cause
    of its own; the text is the error's own message and attributes, and the
    state afterwards is the state before: the [recurs] list is restored and
    the lock is free again. *)
Theorem part_000_Error_of_shallow_cause (st : state) (se e : addr) (v : sError)
    (m : string) (n : nat) :
  mutex st = mk_RWMutex false 0 ->
  objects st !! se = Some (sErrorObj v) ->
  error_ v = Some e -> objects st !! e = Some (errorString m) ->
  (err v = nil
   \/ (exists c t, err v = Some c /\ objects st !! c = Some (errorString t))
   \/ (exists c w b t, err v = Some c /\ objects st !! c = Some (sErrorObj w)
         /\ err w = nil /\ error_ w = Some b /\ objects st !! b = Some (errorString t))) ->
  Error (2 + n) se st = Ok ((m +:+ argsString_loop (args v))%string, st).
Proof.
  intros Hmx Hse He Hm Hcause. destruct st as [objs mx]. simpl in *. subst mx.
  set (st := mk_state objs (mk_RWMutex false 0)).
  assert (Hse' : objects st !! se = Some (sErrorObj v)) by done.
  assert (Hlt : (se < length objs)%nat) by (by eapply lookup_lt_Some).
  change (Error (2 + n) se) with (Error_body (Error (S n)) se).
  unfold Error_body. rewrite (bind_Ok _ _ _ _ _ (part_000_load_Ok _ _ _ Hse')).
  destruct Hcause as [Hnil|Hcause].
  { rewrite Hnil. rewrite bool_decide_eq_true_2 by done.
    unfold bind at 1. unfold error_Error. rewrite He. simpl objects. rewrite Hm.
    unfold argsString. unfold bind at 1.
    by rewrite (bind_Ok _ _ _ _ _ (part_000_load_Ok _ _ _ Hse')). }
  set (st1 := mk_state (<[se := sErrorObj (set_recurs v (recurs v ++ [se]))]> objs)
                       (mk_RWMutex true 0)).
  assert (Hself : exists c s, err v = Some c
            /\ error_Error (Error (S n)) (Some c) st1 = Ok (s, st1)).
  { destruct Hcause as [(c & t & Hc & Ht)|(c & w & b & t & Hc & Hw & Hwn & Hb & Ht)].
    - simpl in Ht. assert (Hne : se <> c) by (intros ->; congruence).
      exists c, t. split; [done|]. unfold error_Error. simpl.
      rewrite list_lookup_insert_ne by done. by rewrite Ht.
    - simpl in Hw, Ht.
      assert (Hne : se <> c).
      { intros ->. rewrite Hse in Hw. injection Hw as <-. rewrite Hc in Hwn.
        discriminate. }
      assert (Hne' : se <> b) by (intros ->; congruence).
      assert (Hw1 : objects st1 !! c = Some (sErrorObj w)).
      { simpl. by rewrite list_lookup_insert_ne. }
      exists c, (t +:+ argsString_loop (args w))%string. split; [done|].
      unfold error_Error. rewrite Hw1.
      change (Error (S n) c) with (Error_body (Error n) c). unfold Error_body.
      rewrite (bind_Ok _ _ _ _ _ (part_000_load_Ok _ _ _ Hw1)).
      rewrite Hwn. rewrite bool_decide_eq_true_2 by done.
      unfold bind at 1. unfold error_Error. rewrite Hb. simpl objects.
      rewrite list_lookup_insert_ne by done. rewrite Ht.
      unfold argsString. unfold bind at 1.
      by rewrite (bind_Ok _ _ _ _ _ (part_000_load_Ok _ _ _ Hw1)). }
  destruct Hself as (c & s & Hc & Hcall).
  rewrite Hc. rewrite bool_decide_eq_false_2 by done.
  destruct (part_000_selfError_Ok (Error (S n)) objs se v c s Hse Hc Hcall) as [s' Hs'].
  fold st in Hs'. rewrite (bind_Ok _ _ _ _ _ Hs').
  by eapply part_000_tail.
Qed.

Lemma part_000_Error_of_shallow_cause_witness :
  let v := mk_sError (Some 0%nat) (Some 2%nat) [AString "k"; AInt 3] [] [] in
  let st := mk_state [errorString "context"; sErrorObj v; errorString "boom"]
                     (mk_RWMutex false 0) in
  mutex st = mk_RWMutex false 0
  /\ objects st !! 1%nat = Some (sErrorObj v)
  /\ error_ v = Some 0%nat /\ objects st !! 0%nat = Some (errorString "context")
  /\ (err v = nil
      \/ (exists c t, err v = Some c /\ objects st !! c = Some (errorString t))
      \/ (exists c w b t, err v = Some c /\ objects st !! c = Some (sErrorObj w)
            /\ err w = nil /\ error_ w = Some b
            /\ objects st !! b = Some (errorString t)))
  /\ Error (2 + 0) 1 st = Ok (("context" +:+ argsString_loop (args v))%string, st).
Proof.
  intros v st.
  assert (H5 : err v = nil
      \/ (exists c t, err v = Some c /\ objects st !! c = Some (errorString t))
      \/ (exists c w b t, err v = Some c /\ objects st !! c = Some (sErrorObj w)
            /\ err w = nil /\ error_ w = Some b
            /\ objects st !! b = Some (errorString t))).
  { right; left. by exists 2%nat, "boom"%string. }
  repeat (split; [done|]).
  exact (part_000_Error_of_shallow_cause st 1%nat 0%nat v "context"%string 0%nat
           eq_refl eq_refl eq_refl eq_refl H5).
Defined.

(** *** The builders of [part_000] work in place *)

Lemma part_000_Args_Ok fuel (st : state) se v a :
  objects st !! se = Some (sErrorObj v) -> Nat.Even (length a) ->
  Args fuel se a st
  = Ok (se, mk_state (<[se := sErrorObj {| error_ := error_ v; err := err v; args := a;
                                          validArgs := validArgs v;
                                          recurs := recurs v |}]> (objects st))
                     (mutex st)).
Proof.
  intros Hse Hev. unfold Args, chkArgs. rewrite (rem2_even _ Hev). simpl.
  unfold bind at 1. unfold ret at 1.
  by rewrite (bind_Ok _ _ _ _ _ (part_000_load_Ok _ _ _ Hse)).
Qed.

(** X20. In [part_000] [Args] and [Err] return their receiver: they
    allocate nothing, leave the lock and every other object alone, and what
    [Unwrap] and [GetArgs] give afterwards is the cause and the attributes
    just stored (the attributes as before for [Err] without attributes);
    [ValidArgs] can be called again. *)
Theorem part_000_builders_work_in_place (fuel : nat) (st : state) (se : addr)
    (v : sError) (c : error) (a : list any) (ks ks' : list string) :
  objects st !! se = Some (sErrorObj v) -> Nat.Even (length a) ->
  (exists st',
      Args fuel se a st = Ok (se, st')
      /\ GetArgs se st' = Ok (a, st') /\ Unwrap se st' = Ok (err v, st')
      /\ length (objects st') = length (objects st) /\ mutex st' = mutex st
      /\ forall x, x <> se -> objects st' !! x = objects st !! x)
  /\ (exists st',
        Err fuel se c a st = Ok (se, st')
        /\ GetArgs se st' = Ok (if bool_decide (a = []) then args v else a, st')
        /\ Unwrap se st' = Ok (c, st')
        /\ length (objects st') = length (objects st) /\ mutex st' = mutex st
        /\ forall x, x <> se -> objects st' !! x = objects st !! x)
  /\ (exists st' st'',
        ValidArgs se ks st = Ok (se, st') /\ ValidArgs se ks' st' = Ok (se, st'')
        /\ exists v'', objects st'' !! se = Some (sErrorObj v'')
                       /\ validArgs v'' = ks').
Proof.
  intros Hse Hev.
  assert (Hlt : (se < length (objects st))%nat) by (by eapply lookup_lt_Some).
  split; [|split].
  - eexists. split; [by apply part_000_Args_Ok|]. simpl.
    split; [|split; [|split; [|split]]].
    + unfold GetArgs, bind, load, ret. simpl. by rewrite list_lookup_insert_eq.
    + unfold Unwrap, bind, load, ret. simpl. by rewrite list_lookup_insert_eq.
    + by rewrite length_insert.
    + done.
    + intros x Hx. by rewrite list_lookup_insert_ne.
  - destruct a as [|a0 a].
    + destruct (part_000_Err_Unwrap fuel st se v c Hse) as (st' & HE & HU).
      exists st'. split; [done|].
      unfold Err, bind, load, store, ret in HE. rewrite Hse in HE. simpl in HE.
      injection HE as <-. simpl.
      split; [|split; [|split; [|split]]].
      * unfold GetArgs, bind, load, ret. simpl. by rewrite list_lookup_insert_eq.
      * unfold Unwrap, bind, load, ret. simpl. by rewrite list_lookup_insert_eq.
      * by rewrite length_insert.
      * done.
      * intros x Hx. by rewrite list_lookup_insert_ne.
    + set (a' := a0 :: a) in *.
      set (v1 := {| error_ := error_ v; err := c; args := args v;
                    validArgs := validArgs v; recurs := recurs v |}).
      set (st1 := mk_state (<[se := sErrorObj v1]> (objects st)) (mutex st)).
      assert (Hse1 : objects st1 !! se = Some (sErrorObj v1)).
      { simpl. by apply list_lookup_insert_eq. }
      pose proof (part_000_Args_Ok fuel st1 se v1 a' Hse1 Hev) as HA.
      eexists. split.
      { unfold Err. rewrite (bind_Ok _ _ _ _ _ (part_000_load_Ok _ _ _ Hse)).
        unfold bind at 1. unfold store at 1. fold v1. fold st1.
        change (0 <? Z.of_nat (length a')) with true. cbv iota.
        rewrite (bind_Ok _ _ _ _ _ HA). reflexivity. }
      simpl. split; [|split; [|split; [|split]]].
      * unfold GetArgs, bind, load, ret. simpl.
        rewrite list_lookup_insert_eq by (by rewrite length_insert). done.
      * unfold Unwrap, bind, load, ret. simpl.
        rewrite list_lookup_insert_eq by (by rewrite length_insert). done.
      * by rewrite !length_insert.
      * done.
      * intros x Hx. by rewrite !list_lookup_insert_ne.
  - eexists _, _. split; [|split].
    + unfold ValidArgs. rewrite (bind_Ok _ _ _ _ _ (part_000_load_Ok _ _ _ Hse)).
      reflexivity.
    + unfold ValidArgs, bind, load, store, ret. simpl.
      rewrite list_lookup_insert_eq by done. reflexivity.
    + eexists. simpl. split.
      * apply list_lookup_insert_eq. by rewrite length_insert.
      * done.
Qed.

Lemma part_000_builders_work_in_place_witness :
  let v := mk_sError (Some 0%nat) None [] [] [] in
  let st := mk_state [errorString "m"; sErrorObj v; errorString "boom"]
                     (mk_RWMutex false 0) in
  let a := [AString "k"; AInt 3] in
  objects st !! 1%nat = Some (sErrorObj v) /\ Nat.Even (length a)
  /\ exists st',
        Err 0 1 (Some 2%nat) a st = Ok (1%nat, st')
        /\ GetArgs 1 st' = Ok (if bool_decide (a = []) then args v else a, st')
        /\ Unwrap 1 st' = Ok (Some 2%nat, st')
        /\ length (objects st') = length (objects st) /\ mutex st' = mutex st
        /\ forall x, x <> 1%nat -> objects st' !! x = objects st !! x.
Proof.
  intros v st a.
  assert (H2 : Nat.Even (length a)) by (exists 1%nat; reflexivity).
  repeat (split; [done|]).
  exact (proj1 (proj2 (part_000_builders_work_in_place 0 st 1%nat v (Some 2%nat) a [] []
                         eq_refl H2))).
Defined.



End part_000_more.

(** ** The oldest revision: [serr.go], second unit *)

Section serr_old_facts.
Import serr_old.

Lemma old_load_Ok (h : heap) se v :
  h !! se = Some (sErrorObj v) -> load se h = Ok (v, h).
Proof. intros E. unfold load. by rewrite E. Qed.

Lemma old_argsString_Ok (h : heap) se v :
  h !! se = Some (sErrorObj v) ->
  argsString se h = Ok (argsString_loop (elems (args v)), h).
Proof.
  intros Hse. unfold argsString. by rewrite (bind_Ok _ _ _ _ _ (old_load_Ok _ _ _ Hse)).
Qed.

Lemma old_error_Error_sError f (h : heap) a v :
  h !! a = Some (sErrorObj v) -> error_Error f (Some a) h = f a h.
Proof. intros E. unfold error_Error. by rewrite E. Qed.

Lemma old_Error_leaf f (h : heap) se v m :
  h !! se = Some (sErrorObj v) -> err v = nil ->
  error_Error f (error_ v) h = Ok (m, h) ->
  Error_body f se h = Ok ((m +:+ argsString_loop (elems (args v)))%string, h).
Proof.
  intros Hse Hn Hm. unfold Error_body.
  rewrite (bind_Ok _ _ _ _ _ (old_load_Ok _ _ _ Hse)).
  rewrite Hn. rewrite bool_decide_eq_true_2 by done.
  change (negb true) with false. cbv iota.
  rewrite (bind_Ok _ _ _ _ _ Hm).
  by rewrite (bind_Ok _ _ _ _ _ (old_argsString_Ok _ _ _ Hse)).
Qed.

Lemma old_Error_cause f (h : heap) se v m c :
  h !! se = Some (sErrorObj v) -> err v <> nil ->
  error_Error f (error_ v) h = Ok (m, h) ->
  error_Error f (err v) h = Ok (c, h) ->
  Error_body f se h
  = Ok ((m +:+ argsString_loop (elems (args v)) +:+ "; " +:+ c)%string, h).
Proof.
  intros Hse Hn Hm Hc. unfold Error_body.
  rewrite (bind_Ok _ _ _ _ _ (old_load_Ok _ _ _ Hse)).
  rewrite bool_decide_eq_false_2 by done.
  change (negb false) with true. cbv iota.
  rewrite (bind_Ok _ _ _ _ _ Hm).
  rewrite (bind_Ok _ _ _ _ _ (old_argsString_Ok _ _ _ Hse)).
  rewrite (bind_Ok _ _ _ _ _ (old_load_Ok _ _ _ Hse)).
  by rewrite (bind_Ok _ _ _ _ _ Hc).
Qed.

Lemma renders_fuel (h : heap) e t :
  renders h e t ->
  exists k, forall fuel, (k <= fuel)%nat -> error_Error (Error fuel) e h = Ok (t, h).
Proof.
  induction 1 as [a s Ha|a v m Ha Hn _ [k IH]|a v m c Ha Hn _ [k1 IH1] _ [k2 IH2]].
  - exists 0%nat. intros fuel _. unfold error_Error. by rewrite Ha.
  - exists (S k). intros [|fuel] Hf; [lia|].
    rewrite (old_error_Error_sError _ _ _ _ Ha). simpl.
    apply old_Error_leaf; [done..|]. apply IH. lia.
  - exists (S (k1 `max` k2)). intros [|fuel] Hf; [lia|].
    rewrite (old_error_Error_sError _ _ _ _ Ha). simpl.
    apply old_Error_cause; [done..| |]; [apply IH1|apply IH2]; lia.
Qed.

(** The text of an error does not depend on objects added behind it. *)
Lemma renders_app (h t : heap) e s :
  renders h e s -> renders (h ++ t) e s.
Proof.
  induction 1 as [a s Ha|a v m Ha Hn _ IH|a v m c Ha Hn _ IH1 _ IH2].
  - apply renders_plain. by apply lookup_app_l_Some.
  - apply renders_leaf; [by apply lookup_app_l_Some|done..].
  - apply renders_cause; [by apply lookup_app_l_Some|done..].
Qed.

(** X22. In the second unit of [serr.go], [Error] returns, once the fuel
    covers the depth of the chain, the text of the whole chain: the message
    and attributes of the error, and for an error with a cause ["; "] and the
    text of the cause, and so on down the chain. *)
Theorem old_Error_renders_chain (h : heap) (se : addr) (v : sError) (t : string) :
  h !! se = Some (sErrorObj v) -> renders h (Some se) t ->
  exists k, forall fuel, (k <= fuel)%nat -> Error fuel se h = Ok (t, h).
Proof.
  intros Hse Hr. destruct (renders_fuel h _ _ Hr) as [k Hk]. exists k.
  intros fuel Hf. rewrite <- (Hk fuel Hf). by rewrite (old_error_Error_sError _ _ _ _ Hse).
Qed.

Lemma old_Error_renders_chain_witness :
  let v := mk_sError (Some 0%nat) (Some 2%nat) (Some [AString "k"; AInt 3]) [] in
  let h := [errorString "context"; sErrorObj v; errorString "boom"] in
  h !! 1%nat = Some (sErrorObj v)
  /\ renders h (Some 1%nat) "context [k=3]; boom"
  /\ exists k, forall fuel, (k <= fuel)%nat ->
       Error fuel 1 h = Ok ("context [k=3]; boom"%string, h).
Proof.
  intros v h.
  assert (H1 : h !! 1%nat = Some (sErrorObj v)) by reflexivity.
  assert (H2 : renders h (Some 1%nat) "context [k=3]; boom").
  { apply (renders_cause h 1%nat v "context" "boom" H1).
    - discriminate.
    - by apply renders_plain.
    - by apply renders_plain. }
  split; [exact H1|]. split; [exact H2|].
  exact (old_Error_renders_chain h 1%nat v "context [k=3]; boom"%string H1 H2).
Defined.

(** X23. The second unit has no cycle guard: after [se.Err(se)] the call
    [se.Error()] never returns, whatever the fuel. *)
Theorem old_Error_never_returns_on_self_cause (fuel : nat) (h : heap) (se e : addr)
    (v : sError) (m : string) :
  h !! se = Some (sErrorObj v) ->
  error_ v = Some e -> h !! e = Some (errorString m) ->
  exists h',
    Err fuel se (Some se) None h = Ok (se, h')
    /\ forall n, Error n se h' = OutOfFuel.
Proof.
  intros Hse He Hm.
  assert (Hlt : (se < length h)%nat) by (by eapply lookup_lt_Some).
  assert (Hne : se <> e) by (intros ->; congruence).
  set (v1 := {| error_ := error_ v; err := Some se; args := args v;
                validArgs := validArgs v |}).
  exists (<[se := sErrorObj v1]> h). split.
  - unfold Err. rewrite (bind_Ok _ _ _ _ _ (old_load_Ok _ _ _ Hse)). reflexivity.
  - assert (Hs1 : <[se := sErrorObj v1]> h !! se = Some (sErrorObj v1))
      by (by apply list_lookup_insert_eq).
    assert (Hm1 : <[se := sErrorObj v1]> h !! e = Some (errorString m))
      by (by rewrite list_lookup_insert_ne).
    induction n as [|n IH]; [done|]. simpl. unfold Error_body.
    rewrite (bind_Ok _ _ _ _ _ (old_load_Ok _ _ _ Hs1)).
    rewrite bool_decide_eq_false_2 by done.
    change (negb false) with true. cbv iota.
    assert (Hb : error_Error (Error n) (error_ v1) (<[se := sErrorObj v1]> h)
                 = Ok (m, <[se := sErrorObj v1]> h)).
    { simpl error_. rewrite He. unfold error_Error. by rewrite Hm1. }
    rewrite (bind_Ok _ _ _ _ _ Hb).
    rewrite (bind_Ok _ _ _ _ _ (old_argsString_Ok _ _ _ Hs1)).
    rewrite (bind_Ok _ _ _ _ _ (old_load_Ok _ _ _ Hs1)).
    unfold bind. simpl err. rewrite (old_error_Error_sError _ _ _ _ Hs1).
    by rewrite IH.
Qed.

Lemma old_Error_never_returns_on_self_cause_witness :
  let v := mk_sError (Some 0%nat) None None [] in
  let h := [errorString "m"; sErrorObj v] in
  h !! 1%nat = Some (sErrorObj v)
  /\ error_ v = Some 0%nat /\ h !! 0%nat = Some (errorString "m")
  /\ exists h',
    Err 0 1 (Some 1%nat) None h = Ok (1%nat, h')
    /\ forall n, Error n 1 h' = OutOfFuel.
Proof.
  intros v h. repeat (split; [done|]).
  exact (old_Error_never_returns_on_self_cause 0 h 1%nat 0%nat v "m"%string
           eq_refl eq_refl eq_refl).
Defined.

(** *** Attributes given to [Err] *)

Lemma argsString_loop_odd_tail (x : any) : forall (n : nat) (l : list any),
  length l = (2 * n)%nat -> argsString_loop (l ++ [x]) = argsString_loop l.
Proof.
  induction n as [|n IH]; intros l Hl.
  - by destruct l.
  - destruct l as [|k [|y l]]; simpl in Hl; try lia.
    simpl. rewrite IH by lia. done.
Qed.

Lemma old_Args_Ok fuel (h : heap) se v (a : slice) :
  h !! se = Some (sErrorObj v) -> Nat.Even (length (elems a)) ->
  Args fuel se a h
  = Ok (se, <[se := sErrorObj {| error_ := error_ v; err := err v; args := a;
                                 validArgs := validArgs v |}]> h).
Proof.
  intros Hse Hev. unfold Args, chkArgs. rewrite (rem2_even _ Hev). simpl.
  unfold bind at 1. unfold ret at 1.
  by rewrite (bind_Ok _ _ _ _ _ (old_load_Ok _ _ _ Hse)).
Qed.

(** X24. In the second unit, [Err] with attributes stores them when the
    error has none; when it has some, it appends the whole list as one
    element, so that the attributes rendered are the old ones and the new
    ones do not show. *)
Theorem old_Err_appends_the_slice (fuel : nat) (h : heap) (se : addr) (v : sError)
    (c : error) (la : list any) :
  h !! se = Some (sErrorObj v) -> la <> [] -> Nat.Even (length la) ->
  exists h' v',
    Err fuel se c (Some la) h = Ok (se, h')
    /\ h' !! se = Some (sErrorObj v') /\ err v' = c
    /\ (args v = None ->
        args v' = Some la /\ argsString se h' = Ok (argsString_loop la, h'))
    /\ (forall l, args v = Some l ->
          args v' = Some (l ++ [AOther (Sprint_slice la)])
          /\ (Nat.Even (length l) ->
              argsString se h' = Ok (argsString_loop l, h'))).
Proof.
  intros Hse Hne Hev.
  assert (Hlt : (se < length h)%nat) by (by eapply lookup_lt_Some).
  set (v1 := {| error_ := error_ v; err := c; args := args v;
                validArgs := validArgs v |}).
  set (h1 := <[se := sErrorObj v1]> h).
  assert (Hs1 : h1 !! se = Some (sErrorObj v1)) by (by apply list_lookup_insert_eq).
  assert (Hpos : (0 <? Z.of_nat (length (elems (Some la)))) = true).
  { destruct la; [done|]. reflexivity. }
  assert (Hchk : chkArgs fuel se (Z.of_nat (length (elems (Some la)))) h1 = Ok (tt, h1)).
  { unfold chkArgs. change (elems (Some la)) with la. by rewrite (rem2_even _ Hev). }
  assert (HE : Err fuel se c (Some la) h
               = Ok (se, <[se := sErrorObj
                            {| error_ := error_ v; err := c;
                               args := match args v with
                                       | None => Some la
                                       | Some l => Some (l ++ [AOther (Sprint_slice la)])
                                       end;
                               validArgs := validArgs v |}]> h)).
  { unfold Err. rewrite (bind_Ok _ _ _ _ _ (old_load_Ok _ _ _ Hse)).
    unfold bind at 1. unfold store at 1. fold v1. fold h1. rewrite Hpos.
    unfold bind at 1. rewrite (bind_Ok _ _ _ _ _ Hchk).
    rewrite (bind_Ok _ _ _ _ _ (old_load_Ok _ _ _ Hs1)).
    change (args v1) with (args v). change (error_ v1) with (error_ v).
    change (err v1) with c. change (validArgs v1) with (validArgs v).
    change (elems (Some la)) with la. unfold h1, v1.
    destruct (args v); unfold store, ret; by rewrite list_insert_insert_eq. }
  eexists _, _. split; [exact HE|].
  split; [by apply list_lookup_insert_eq|]. split; [done|]. split.
  - intros Hn. simpl args. rewrite Hn. split; [done|].
    erewrite old_argsString_Ok; [|by apply list_lookup_insert_eq].
    reflexivity.
  - intros l Hl. simpl args. rewrite Hl. split; [done|]. intros [k Hk].
    erewrite old_argsString_Ok; [|by apply list_lookup_insert_eq].
    cbn [args elems]. by rewrite (argsString_loop_odd_tail _ k).
Qed.

Lemma old_Err_appends_the_slice_witness :
  let v := mk_sError (Some 0%nat) None (Some [AString "a"; AInt 1]) [] in
  let h := [errorString "m"; sErrorObj v] in
  let la := [AString "b"; AInt 2] in
  h !! 1%nat = Some (sErrorObj v) /\ la <> [] /\ Nat.Even (length la)
  /\ exists h' v',
    Err 0 1 nil (Some la) h = Ok (1%nat, h')
    /\ h' !! 1%nat = Some (sErrorObj v') /\ err v' = nil
    /\ (args v = None ->
        args v' = Some la /\ argsString 1 h' = Ok (argsString_loop la, h'))
    /\ (forall l, args v = Some l ->
          args v' = Some (l ++ [AOther (Sprint_slice la)])
          /\ (Nat.Even (length l) ->
              argsString 1 h' = Ok (argsString_loop l, h'))).
Proof.
  intros v h la.
  assert (H2 : la <> []) by discriminate.
  assert (H3 : Nat.Even (length la)) by (exists 1%nat; reflexivity).
  repeat (split; [done|]).
  exact (old_Err_appends_the_slice 0 h 1%nat v nil la eq_refl H2 H3).
Defined.

(** *** [Wrap] *)

(** X25. In the second unit, an error made by [Wrap] renders as its
    message and attributes, then ["; "], then the text of the cause, whatever
    the chain below the cause is. *)
Theorem old_Wrap_renders_cause (fuel : nat) (h : heap) (c : addr) (t msg : string)
    (a : slice) :
  renders h (Some c) t -> Nat.Even (length (elems a)) ->
  exists r h' k,
    Wrap fuel (Some c) msg a h = Ok (r, h')
    /\ Unwrap r h' = Ok (Some c, h')
    /\ forall n, (k <= n)%nat ->
         Error n r h'
         = Ok ((msg +:+ argsString_loop (elems a) +:+ "; " +:+ t)%string, h').
Proof.
  intros Hc Hev.
  set (b := length h).
  set (v0 := {| error_ := Some b; err := nil; args := None; validArgs := [] |}).
  set (h1 := (h ++ [errorString msg]) ++ [sErrorObj v0]).
  assert (Hl0 : length (h ++ [errorString msg]) = S b).
  { rewrite length_app. simpl. unfold b. lia. }
  assert (Hse1 : h1 !! S b = Some (sErrorObj v0)).
  { unfold h1. rewrite <- Hl0. by apply list_lookup_middle. }
  assert (HN : New msg h = Ok (S b, h1)).
  { unfold New, errors_New, alloc, bind, ret. by rewrite Hl0. }
  set (v1 := {| error_ := Some b; err := Some c; args := None; validArgs := [] |}).
  assert (HE : Err fuel (S b) (Some c) None h1 = Ok (S b, <[S b := sErrorObj v1]> h1)).
  { unfold Err. by rewrite (bind_Ok _ _ _ _ _ (old_load_Ok _ _ _ Hse1)). }
  set (v2 := {| error_ := Some b; err := Some c; args := a; validArgs := [] |}).
  set (h' := (h ++ [errorString msg]) ++ [sErrorObj v2]).
  assert (Hins : forall w, <[S b := sErrorObj w]> h1 = (h ++ [errorString msg]) ++ [sErrorObj w]).
  { intros w. unfold h1. rewrite insert_app_r_alt by lia. rewrite Hl0, Nat.sub_diag. done. }
  assert (HW : exists h'', Wrap fuel (Some c) msg a h = Ok (S b, h'')
                /\ exists v', h'' = (h ++ [errorString msg]) ++ [sErrorObj v']
                   /\ error_ v' = Some b /\ err v' = Some c
                   /\ elems (args v') = elems a).
  { unfold Wrap. rewrite (bind_Ok _ _ _ _ _ HN). rewrite (bind_Ok _ _ _ _ _ HE).
    destruct (0 <? Z.of_nat (length (elems a))) eqn:Hpos.
    - assert (Hs : <[S b := sErrorObj v1]> h1 !! S b = Some (sErrorObj v1)).
      { apply list_lookup_insert_eq. unfold h1. rewrite length_app, Hl0. simpl. lia. }
      rewrite (old_Args_Ok fuel _ _ _ a Hs Hev). eexists. split; [done|].
      exists v2. rewrite list_insert_insert_eq. by rewrite Hins.
    - eexists. split; [done|]. exists v1. rewrite Hins. repeat split.
      destruct (elems a); [done|]. discriminate. }
  destruct HW as (h'' & HW & v' & -> & Hb & Hcv & Hargs).
  assert (Hr : ((h ++ [errorString msg]) ++ [sErrorObj v']) !! S b = Some (sErrorObj v')).
  { rewrite <- Hl0. by apply list_lookup_middle. }
  assert (Hren : renders ((h ++ [errorString msg]) ++ [sErrorObj v']) (Some (S b))
                   (msg +:+ argsString_loop (elems a) +:+ "; " +:+ t)).
  { rewrite <- Hargs. apply (renders_cause _ (S b) v' msg t Hr).
    - rewrite Hcv. discriminate.
    - rewrite Hb. apply renders_plain. apply lookup_app_l_Some.
      by apply list_lookup_middle.
    - rewrite Hcv. by do 2 apply renders_app. }
  destruct (renders_fuel _ _ _ Hren) as [k Hk].
  exists (S b), ((h ++ [errorString msg]) ++ [sErrorObj v']), k.
  split; [done|]. split.
  - unfold Unwrap. rewrite (bind_Ok _ _ _ _ _ (old_load_Ok _ _ _ Hr)). unfold ret.
    by rewrite Hcv.
  - intros n Hn. rewrite <- (Hk n Hn). by rewrite (old_error_Error_sError _ _ _ _ Hr).
Qed.

Lemma old_Wrap_renders_cause_witness :
  let v := mk_sError (Some 0%nat) (Some 2%nat) (Some [AString "k"; AInt 3]) [] in
  let h := [errorString "context"; sErrorObj v; errorString "boom"] in
  let a := Some [AString "n"; AString "x"] in
  renders h (Some 1%nat) "context [k=3]; boom" /\ Nat.Even (length (elems a))
  /\ exists r h' k,
    Wrap 0 (Some 1%nat) "outer" a h = Ok (r, h')
    /\ Unwrap r h' = Ok (Some 1%nat, h')
    /\ forall n, (k <= n)%nat ->
         Error n r h'
         = Ok (("outer" +:+ argsString_loop (elems a) +:+ "; "
                +:+ "context [k=3]; boom")%string, h').
Proof.
  intros v h a.
  assert (H1 : renders h (Some 1%nat) "context [k=3]; boom").
  { apply (renders_cause h 1%nat v "context" "boom" eq_refl).
    - discriminate.
    - by apply renders_plain.
    - by apply renders_plain. }
  assert (H2 : Nat.Even (length (elems a))) by (exists 1%nat; reflexivity).
  split; [exact H1|]. split; [exact H2|].
  exact (old_Wrap_renders_cause 0 h 1%nat "context [k=3]; boom"%string "outer"%string a
           H1 H2).
Defined.

(** *** [Cast] *)

(** X26. In the second unit [Cast] wraps whatever it is given in a new
    structured error without cause or attributes: the result renders as the
    error given does, a structured error included; and the result of
    [Cast(nil)] panics with a nil dereference when it is rendered. *)
Theorem old_Cast_wraps (h : heap) :
  (forall c t, renders h (Some c) t ->
     exists r h' k,
       Cast (Some c) h = Ok (r, h') /\ (length h <= r)%nat
       /\ Unwrap r h' = Ok (nil, h')
       /\ forall n, (k <= n)%nat -> Error n r h' = Ok (t, h'))
  /\ (exists r h',
        Cast nil h = Ok (r, h')
        /\ forall n, Error (S n) r h' = Panic nil_dereference).
Proof.
  split.
  - intros c t Hc.
    set (w := {| error_ := Some c; err := nil; args := None; validArgs := [] |}).
    assert (Hr : (h ++ [sErrorObj w]) !! length h = Some (sErrorObj w))
      by (by apply list_lookup_middle).
    destruct (renders_fuel _ _ _ (renders_app h [sErrorObj w] _ _ Hc)) as [k Hk].
    exists (length h), (h ++ [sErrorObj w]), (S k).
    split; [done|]. split; [done|]. split.
    + unfold Unwrap. by rewrite (bind_Ok _ _ _ _ _ (old_load_Ok _ _ _ Hr)).
    + intros [|n] Hn; [lia|]. simpl.
      rewrite <- (string_app_nil_r t) at 1.
      apply (old_Error_leaf _ _ _ w t Hr eq_refl). apply Hk. lia.
  - set (w := {| error_ := nil; err := nil; args := None; validArgs := [] |}).
    assert (Hr : (h ++ [sErrorObj w]) !! length h = Some (sErrorObj w))
      by (by apply list_lookup_middle).
    exists (length h), (h ++ [sErrorObj w]). split; [done|].
    intros n. simpl. unfold Error_body.
    by rewrite (bind_Ok _ _ _ _ _ (old_load_Ok _ _ _ Hr)).
Qed.

Lemma old_Cast_wraps_witness :
  let v := mk_sError (Some 0%nat) (Some 2%nat) (Some [AString "k"; AInt 3]) [] in
  let h := [errorString "context"; sErrorObj v; errorString "boom"] in
  renders h (Some 1%nat) "context [k=3]; boom"
  /\ exists r h' k,
       Cast (Some 1%nat) h = Ok (r, h') /\ (length h <= r)%nat
       /\ Unwrap r h' = Ok (nil, h')
       /\ forall n, (k <= n)%nat -> Error n r h' = Ok ("context [k=3]; boom"%string, h').
Proof.
  intros v h.
  assert (H1 : renders h (Some 1%nat) "context [k=3]; boom").
  { apply (renders_cause h 1%nat v "context" "boom" eq_refl).
    - discriminate.
    - by apply renders_plain.
    - by apply renders_plain. }
  split; [exact H1|].
  exact (proj1 (old_Cast_wraps h) 1%nat "context [k=3]; boom"%string H1).
Defined.

End serr_old_facts.
